(** * EduVerse live audio sessions: a shallow embedding and its properties

    The development follows the two live-session implementations of the
    repository, the audio transcriber (component [AudioTranscriber]) and the
    video deep dive (component [VideoProcessor]): the PCM16 capture encoder,
    the audio output scheduler kept in [nextStartTimeRef] and
    [audioSourcesRef], the transcript assembly, the session teardown and the
    history persisted in [localStorage]. *)

From Stdlib Require Import ZArith QArith Qminmax Lia Lqa.
From stdpp Require Import base list gmap sets strings pretty.

Local Open Scope Z_scope.

(** ** PCM16 capture encoder

    [onaudioprocess] reads a [Float32Array], multiplies every element by
    32768 and stores the product into an [Int16Array], whose buffer is then
    viewed as a [Uint8Array]. *)
Module PCM.

(** The value of a [Float32Array] element read as a JS number: a binary
    fraction [m * 2^e], or one of the three special values. The sign of a
    zero is not kept: the conversion to an integer maps both zeros to 0. *)
Inductive number : Type :=
  | Dyadic (m e : Z)
  | NaN
  | Infinity (negative : bool).

(** [inputData[i] * 32768]: the product of a binary32 value with [2^15] is
    a binary64 value, so the multiplication is exact. *)
Definition times32768 (x : number) : number :=
  match x with
  | Dyadic m e => Dyadic m (e + 15)
  | NaN => NaN
  | Infinity s => Infinity s
  end.

(** The integral part of [m * 2^e], rounding towards zero. *)
Definition truncate (m e : Z) : Z :=
  if 0 <=? e then m * 2 ^ e else Z.quot m (2 ^ (- e)).

(** ECMAScript [ToInt16], the conversion applied by a store into an
    [Int16Array]. *)
Definition ToInt16 (x : number) : Z :=
  match x with
  | NaN | Infinity _ => 0
  | Dyadic m e =>
      let int := truncate m e in
      let int16bit := int mod 2 ^ 16 in
      if 2 ^ 15 <=? int16bit then int16bit - 2 ^ 16 else int16bit
  end.

(** [for (let i = 0; i < l; i++) int16[i] = inputData[i] * 32768] *)
Definition int16_of_samples (inputData : list number) : list Z :=
  (fun s => ToInt16 (times32768 s)) <$> inputData.

(** The two bytes that hold a 16-bit element in the array's buffer: two's
    complement in the byte order of the platform, which puts the least
    significant byte first wherever browsers run. *)
Definition bytes_of_int16 (v : Z) : list Z :=
  [ (v mod 2 ^ 16) mod 2 ^ 8; (v mod 2 ^ 16) / 2 ^ 8 ].

(** [new Uint8Array(int16.buffer)] *)
Definition Uint8Array_of_Int16Array (int16 : list Z) : list Z :=
  int16 ≫= bytes_of_int16.

Definition floatToPCM16 (inputData : list number) : list Z :=
  Uint8Array_of_Int16Array (int16_of_samples inputData).

(** The rational value of a finite sample. *)
Definition Qpow2 (e : Z) : Q :=
  if 0 <=? e then inject_Z (2 ^ e) else 1 # Z.to_pos (2 ^ (- e)).

Definition value (m e : Z) : Q := (inject_Z m * Qpow2 e)%Q.

(** Truncation of a rational towards zero. *)
Definition Qtruncate (x : Q) : Z := Z.quot (Qnum x) (Z.pos (Qden x)).

(** What a clamping encoder would store. *)
Definition saturate16 (v : Z) : Z := Z.max (- 2 ^ 15) (Z.min (2 ^ 15 - 1) v).

(** Little-endian reading of a byte list. *)
Fixpoint le_combine (bs : list Z) : Z :=
  match bs with
  | [] => 0
  | b :: bs' => b + 2 ^ 8 * le_combine bs'
  end.

End PCM.

(** ** The numbers that hold a time

    A time in seconds is a JS number, an IEEE 754 binary64 value. Here it
    is the rational it stands for, and an operation that rounds is the
    exact operation followed by [binary64], the rounding to the nearest
    binary64 number, ties to the even significand. One unit is [2^-1074],
    the smallest positive binary64 number, so that every finite binary64
    number is a whole number of units with at most 53 significant bits.
    Sums beyond the largest finite number, which give [Infinity], are out
    of reach of a clock that counts seconds and are not modelled. *)
Module Binary64.

Definition units : positive := Z.to_pos (2 ^ 1074).

(** The multiple of [2^j] nearest to [p / q], the even one of two that are
    equally near. *)
Definition roundAt (j p q : Z) : Z :=
  let g := q * 2 ^ j in
  let m := p / g in
  let r := p mod g in
  let m' := if 2 * r <? g then m
            else if g <? 2 * r then m + 1
            else if Z.even m then m else m + 1 in
  m' * 2 ^ j.

(** The exponent of the gap between the binary64 numbers next to [f]
    units: 53 significant bits, and no gap below one unit. *)
Definition spacing (f : Z) : Z := Z.max 0 (Z.log2 f - 52).

Definition roundUnits (p q : Z) : Z := roundAt (spacing (p / q)) p q.

Definition binary64 (x : Q) : Q :=
  let p := Qnum x * 2 ^ 1074 in
  let q := Z.pos (Qden x) in
  if 0 <=? p then roundUnits p q # units
  else (- roundUnits (- p) q) # units.

(** The rational is a binary64 number. *)
Definition isDouble (x : Q) : Prop := (binary64 x == x)%Q.

(** A whole number of units that binary64 holds: a multiple of the gap at
    its size. *)
Definition canonical (R : Z) : Prop := R mod 2 ^ spacing R = 0.

End Binary64.

Arguments Binary64.binary64 : simpl never.

(** ** Browser objects and helpers shared by the two components *)

(** An [AudioBuffer]: [length] sample frames at [sampleRate] frames per
    second. *)
Record AudioBuffer : Type := mkAudioBuffer {
  buf_length : N;
  buf_sampleRate : positive
}.

(** [buffer.duration], in seconds: the number [length / sampleRate]. *)
Definition duration (b : AudioBuffer) : Q :=
  Binary64.binary64 (Z.of_N (buf_length b) # buf_sampleRate b).

(** The helpers imported from [../utils/audioUtils]; the module is not part
    of the sources at hand, so its three functions are an interface. *)
Class AudioUtils : Type := {
  encode : list Z -> string;
  decode : string -> list Z;
  decodeAudioData : list Z -> positive -> positive -> AudioBuffer
}.

(** [JSON.stringify] and [JSON.parse] at the type of a stored value;
    [JSON_parse] yields [None] where [JSON.parse] throws a [SyntaxError]. *)
Class JSON (A : Type) : Type := {
  JSON_stringify : A -> string;
  JSON_parse : string -> option A
}.

(** Calls made on browser and session objects, in program order. *)
Inductive op : Type :=
  | TrackStop (track : nat)
  | NodeConnect (node : nat)
  | NodeDisconnect (node : nat)
  | ContextClose (ctx : nat)
  | SessionClose (session : nat)
  | SendRealtimeInput (session : nat) (data mimeType : string)
  | SourceStart (source : nat) (when dur : Q)
  | SourceStop (source : nat)
  | ConsoleError
  | Uncaught.

(** A handler of [onmessage] suspended at [await decodeAudioData(...)]. *)
Record Awaiting (Msg : Type) : Type := mkAwaiting {
  aw_ctx : nat;
  aw_buffer : AudioBuffer;
  aw_message : Msg
}.
Arguments mkAwaiting {Msg}.
Arguments aw_ctx {Msg}.
Arguments aw_buffer {Msg}.
Arguments aw_message {Msg}.

(** What lives outside the component: the log of calls (oldest first), the
    audio contexts whose [state] attribute reads ['closed'], the counter
    that names new objects, and the page's [localStorage]. *)
Record Browser : Type := mkBrowser {
  log : list op;
  closedContexts : gset nat;
  nextObject : nat;
  localStorage : gmap string string
}.

Definition emit (o : op) (b : Browser) : Browser :=
  mkBrowser (log b ++ [o]) (closedContexts b) (nextObject b) (localStorage b).

Definition emits (os : list op) (b : Browser) : Browser :=
  mkBrowser (log b ++ os) (closedContexts b) (nextObject b) (localStorage b).

(** [new X(...)]: the new object is named by the counter. *)
Definition allocate (b : Browser) : nat * Browser :=
  (nextObject b,
   mkBrowser (log b) (closedContexts b) (S (nextObject b)) (localStorage b)).

(** [ctx.close()] returns a promise and leaves the [state] attribute as
    it is: the attribute changes in a task that the browser runs later. *)
Definition closeContext (ctx : nat) (b : Browser) : Browser :=
  emit (ContextClose ctx) b.

(** [close()] has been called on the context. *)
Definition closeCalled (ctx : nat) (l : list op) : bool :=
  existsb (fun o => match o with
                    | ContextClose c => bool_decide (c = ctx)
                    | _ => false
                    end) l.

(** The later task: the [state] attribute of a context on which [close()]
    has been called becomes ['closed']. *)
Definition contextStateClosed (ctx : nat) (b : Browser) : Browser :=
  if closeCalled ctx (log b)
  then mkBrowser (log b) ({[ctx]} ∪ closedContexts b) (nextObject b)
                 (localStorage b)
  else b.

Definition contextsStateClosed (ctxs : list nat) (b : Browser) : Browser :=
  foldr contextStateClosed b ctxs.

Definition setItem (k v : string) (b : Browser) : Browser :=
  mkBrowser (log b) (closedContexts b) (nextObject b) (<[k:=v]> (localStorage b)).

Definition removeItem (k : string) (b : Browser) : Browser :=
  mkBrowser (log b) (closedContexts b) (nextObject b) (delete k (localStorage b)).

(** The [useRef] cells of a live session; both components declare the same
    eight. A media stream is the list of its tracks. Times are seconds on
    the clock of the output context, each the rational that a binary64
    number stands for. *)
Record Refs : Type := mkRefs {
  sessionPromiseRef : option nat;
  inputAudioContextRef : option nat;
  outputAudioContextRef : option nat;
  scriptProcessorRef : option nat;
  mediaStreamSourceRef : option nat;
  mediaStreamRef : option (list nat);
  nextStartTimeRef : Q;
  audioSourcesRef : gset nat
}.

Definition set_sessionPromiseRef (v : option nat) (r : Refs) : Refs :=
  mkRefs v (inputAudioContextRef r) (outputAudioContextRef r)
         (scriptProcessorRef r) (mediaStreamSourceRef r) (mediaStreamRef r)
         (nextStartTimeRef r) (audioSourcesRef r).

Definition set_nextStartTimeRef (v : Q) (r : Refs) : Refs :=
  mkRefs (sessionPromiseRef r) (inputAudioContextRef r) (outputAudioContextRef r)
         (scriptProcessorRef r) (mediaStreamSourceRef r) (mediaStreamRef r)
         v (audioSourcesRef r).

Definition set_audioSourcesRef (v : gset nat) (r : Refs) : Refs :=
  mkRefs (sessionPromiseRef r) (inputAudioContextRef r) (outputAudioContextRef r)
         (scriptProcessorRef r) (mediaStreamSourceRef r) (mediaStreamRef r)
         (nextStartTimeRef r) v.

Definition initialRefs : Refs :=
  mkRefs None None None None None None 0%Q ∅.

(** The message a live session delivers to [onmessage], reduced to the
    paths the handlers read. *)
Record FunctionCall : Type := mkFunctionCall {
  fc_name : string;
  fc_args : option (gmap string string)
}.

Record LiveServerMessage : Type := mkMessage {
  inputTranscription : option string;
  outputTranscription : option string;
  inlineData : option string;
  interrupted : bool;
  turnComplete : bool;
  functionCalls : option (list FunctionCall)
}.

(** A message that carries the interruption flag and nothing else. *)
Definition interruptedMessage : LiveServerMessage :=
  mkMessage None None None true false None.

(** A message that carries one call of [generateLearningReport] and
    nothing else. *)
Definition toolCallMessage (args : gmap string string) : LiveServerMessage :=
  mkMessage None None None false false
            (Some [mkFunctionCall "generateLearningReport" (Some args)]).

(** A message that carries audio and nothing else. *)
Definition audioMessage (base64Audio : string) : LiveServerMessage :=
  mkMessage None None (Some base64Audio) false false None.

Inductive Speaker : Type := user | model.

Global Instance Speaker_eq_dec : EqDecision Speaker.
Proof. solve_decision. Defined.

(** ** The audio output scheduler

    The statements of [onmessage] between the test on [base64Audio] and the
    test that follows it; the two components hold the same text. *)
Module Scheduler.

(** [nextStartTimeRef.current = Math.max(nextStartTimeRef.current,
    ctx.currentTime)], the statement before the [await]. *)
Definition clampClock (currentTime : Q) (r : Refs) : Refs :=
  set_nextStartTimeRef (Qmax (nextStartTimeRef r) currentTime) r.

(** The statements after the [await], one function each. The state is the
    pair of the refs and the browser; [source] is the node made by
    [ctx.createBufferSource()]. *)
Definition stmt_connect (source : nat) (s : Refs * Browser) : Refs * Browser :=
  (s.1, emit (NodeConnect source) s.2).

Definition stmt_start (source : nat) (buffer : AudioBuffer)
    (s : Refs * Browser) : Refs * Browser :=
  (s.1, emit (SourceStart source (nextStartTimeRef s.1) (duration buffer)) s.2).

(** [nextStartTimeRef.current += buffer.duration]: the sum of two numbers
    is the binary64 number nearest to their exact sum. *)
Definition stmt_advance (buffer : AudioBuffer) (s : Refs * Browser) : Refs * Browser :=
  (set_nextStartTimeRef
     (Binary64.binary64 (nextStartTimeRef s.1 + duration buffer)%Q) s.1, s.2).

Definition stmt_add (source : nat) (s : Refs * Browser) : Refs * Browser :=
  (set_audioSourcesRef ({[source]} ∪ audioSourcesRef s.1) s.1, s.2).

(** [source.connect(ctx.destination)], [source.start(nextStartTime)],
    [nextStartTime += buffer.duration], [audioSources.add(source)], in the
    order of the source text. The listener installed by [addEventListener]
    is the function [onended] below. *)
Definition playStatements (source : nat) (buffer : AudioBuffer)
    : list (Refs * Browser -> Refs * Browser) :=
  [ stmt_connect source; stmt_start source buffer;
    stmt_advance buffer; stmt_add source ].

(** The states after each statement of a block, starting with the state in
    which the block is entered. *)
Fixpoint moments {S : Type} (stmts : list (S -> S)) (s : S) : list S :=
  match stmts with
  | [] => [s]
  | f :: rest => s :: moments rest (f s)
  end.

Definition run {S : Type} (stmts : list (S -> S)) (s : S) : S :=
  foldl (fun acc f => f acc) s stmts.

Definition playBuffer (buffer : AudioBuffer) (s : Refs * Browser) : Refs * Browser :=
  let '(source, b) := allocate s.2 in
  run (playStatements source buffer) (s.1, b).

(** The ['ended'] listener: [audioSourcesRef.current.delete(source)]. *)
Definition onended (source : nat) (r : Refs) : Refs :=
  set_audioSourcesRef (audioSourcesRef r ∖ {[source]}) r.

(** The started segments of a log, oldest first: source, start, length. *)
Fixpoint segments (l : list op) : list (nat * Q * Q) :=
  match l with
  | [] => []
  | SourceStart h t d :: l' => (h, t, d) :: segments l'
  | _ :: l' => segments l'
  end.

(** A source has been started in a log. *)
Definition started (l : list op) (h : nat) : Prop :=
  exists t d, In (SourceStart h t d) l.

(** The states a resumed handler goes through while it plays a buffer. *)
Definition playMoments (buffer : AudioBuffer) (s : Refs * Browser)
    : list (Refs * Browser) :=
  let '(source, b) := allocate s.2 in
  moments (playStatements source buffer) (s.1, b).

(** The calls made since the browser was as in [b0]. *)
Definition since (b0 b : Browser) : list op := drop (length (log b0)) (log b).

Definition start (g : nat * Q * Q) : Q := g.1.2.
Definition finish (g : nat * Q * Q) : Q := (g.1.2 + g.2)%Q.

(** Two segments overlap when some instant lies in both half-open
    intervals [[start, start + duration)]. *)
Definition overlap (a b : nat * Q * Q) : Prop :=
  exists x : Q, (start a <= x /\ x < finish a)%Q /\ (start b <= x /\ x < finish b)%Q.

Definition noOverlap (a b : nat * Q * Q) : Prop := ~ overlap a b.

(** The end of a segment as the scheduler computes it: the value
    [nextStartTime += duration] leaves in the clock, the binary64 number
    nearest to [finish]. *)
Definition computedFinish (g : nat * Q * Q) : Q :=
  Binary64.binary64 (g.1.2 + g.2)%Q.

(** The later segment starts no earlier than the earlier one, and no
    earlier than the computed end of the earlier one. *)
Definition before (a b : nat * Q * Q) : Prop :=
  (start a <= start b)%Q /\ (computedFinish a <= start b)%Q.

(** Two segments share no instant before the computed end of the earlier
    one: what they share lies between that number and the exact end. *)
Definition sharedOnlyInRounding (a b : nat * Q * Q) : Prop :=
  forall x : Q,
    (start a <= x /\ x < finish a)%Q -> (start b <= x /\ x < finish b)%Q ->
    (computedFinish a <= x /\ x < finish a)%Q.

(** The segments of [ops] follow one another and are over, by their
    computed ends, by [clock]. *)
Definition tidy (ops : list op) (clock : Q) : Prop :=
  ForallOrdPairs before (segments ops)
  /\ Forall (fun g => (start g <= clock)%Q /\ (computedFinish g <= clock)%Q)
            (segments ops).

(** The calls since [b0] are tidy for the clock of [r], which holds a
    binary64 number. *)
Definition tidySince (b0 : Browser) (r : Refs) (b : Browser) : Prop :=
  exists new, log b = log b0 ++ new /\ tidy new (nextStartTimeRef r)
              /\ Binary64.isDouble (nextStartTimeRef r).

(** [b'] extends the log of [b] by calls that start no source. *)
Definition silent (b b' : Browser) : Prop :=
  exists extra, log b' = log b ++ extra /\ segments extra = [].

(** A started source is in the handle set. *)
Definition registeredWhenStarted (h : nat) (s : Refs * Browser) : Prop :=
  started (log s.2) h -> h ∈ audioSourcesRef s.1.

End Scheduler.

(** [if (ref.current) ref.current.disconnect()] *)
Definition disconnectNode (node : option nat) (b : Browser) : Browser :=
  match node with
  | Some n => emit (NodeDisconnect n) b
  | None => b
  end.

(** [if (mediaStreamRef.current)
       mediaStreamRef.current.getTracks().forEach(track => track.stop())] *)
Definition stopTracks (stream : option (list nat)) (b : Browser) : Browser :=
  match stream with
  | Some tracks => emits (TrackStop <$> tracks) b
  | None => b
  end.

(** [if (ref.current && ref.current.state !== 'closed') ref.current.close()];
    the transcriber writes the same test with [?.]. *)
Definition closeUnlessClosed (ctx : option nat) (b : Browser) : Browser :=
  match ctx with
  | Some c => if decide (c ∈ closedContexts b) then b else closeContext c b
  | None => b
  end.

(** The five release statements that open both teardown handlers. *)
Definition releaseResources (r : Refs) (b : Browser) : Browser :=
  let b := stopTracks (mediaStreamRef r) b in
  let b := disconnectNode (scriptProcessorRef r) b in
  let b := disconnectNode (mediaStreamSourceRef r) b in
  let b := closeUnlessClosed (inputAudioContextRef r) b in
  closeUnlessClosed (outputAudioContextRef r) b.

(** The calls a teardown makes. *)
Definition releaseOp (o : op) : Prop :=
  match o with
  | TrackStop _ | NodeDisconnect _ | ContextClose _ => True
  | _ => False
  end.

(** The refs hold nothing a teardown would call: no stream, no node, and
    no context that is not closed. *)
Definition nothingToRelease (r : Refs) (b : Browser) : Prop :=
  mediaStreamRef r = None
  /\ scriptProcessorRef r = None
  /\ mediaStreamSourceRef r = None
  /\ (forall c, inputAudioContextRef r = Some c -> c ∈ closedContexts b)
  /\ (forall c, outputAudioContextRef r = Some c -> c ∈ closedContexts b).

(** The first half of both [start] functions once the microphone stream is
    there: the stream is kept, the output context made, the clock and the
    handle set reset, the connection requested. *)
Definition acquire (stream : list nat) (r : Refs) (b : Browser) : Refs * Browser :=
  let '(ctx, b) := allocate b in
  let '(session, b) := allocate b in
  (mkRefs (Some session) (inputAudioContextRef r) (Some ctx)
          (scriptProcessorRef r) (mediaStreamSourceRef r) (Some stream)
          0%Q ∅, b).

(** [onopen]: the input context and the capture graph. *)
Definition openCapture (r : Refs) (b : Browser) : Refs * Browser :=
  let '(ctx, b) := allocate b in
  let '(streamSource, b) := allocate b in
  let '(processor, b) := allocate b in
  let b := emit (NodeConnect streamSource) b in
  let b := emit (NodeConnect processor) b in
  (mkRefs (sessionPromiseRef r) (Some ctx) (outputAudioContextRef r)
          (Some processor) (Some streamSource) (mediaStreamRef r)
          (nextStartTimeRef r) (audioSourcesRef r), b).

(** The test [if (base64Audio && outputAudioContextRef.current)]: a
    non-empty string and a context. *)
Definition audioToPlay (m : LiveServerMessage) (r : Refs) : option (string * nat) :=
  match inlineData m, outputAudioContextRef r with
  | Some (String c rest), Some ctx => Some (String c rest, ctx)
  | _, _ => None
  end.

(** ** The audio transcriber *)
Module AudioTranscriber.

Record ConversationTurn : Type := mkTurn {
  speaker : Speaker;
  text : string;
  isFinal : bool
}.

Record AudioHistoryItem : Type := mkItem {
  id : string;
  timestamp : Z;
  item_conversation : list ConversationTurn
}.

(** The [useState] cells. *)
Record UI : Type := mkUI {
  isSessionActive : bool;
  conversation : list ConversationTurn;
  error : option string;
  statusMessage : string;
  history : list AudioHistoryItem;
  showHistory : bool
}.

Record State : Type := mkState {
  ui : UI;
  refs : Refs;
  browser : Browser;
  awaiting : list (Awaiting LiveServerMessage)
}.

Definition setIsSessionActive (v : bool) (u : UI) : UI :=
  mkUI v (conversation u) (error u) (statusMessage u) (history u) (showHistory u).
Definition setConversation (f : list ConversationTurn -> list ConversationTurn)
    (u : UI) : UI :=
  mkUI (isSessionActive u) (f (conversation u)) (error u) (statusMessage u)
       (history u) (showHistory u).
Definition setError (v : option string) (u : UI) : UI :=
  mkUI (isSessionActive u) (conversation u) v (statusMessage u) (history u)
       (showHistory u).
Definition setStatusMessage (v : string) (u : UI) : UI :=
  mkUI (isSessionActive u) (conversation u) (error u) v (history u) (showHistory u).
Definition setHistory (v : list AudioHistoryItem) (u : UI) : UI :=
  mkUI (isSessionActive u) (conversation u) (error u) (statusMessage u) v
       (showHistory u).
Definition setShowHistory (v : bool) (u : UI) : UI :=
  mkUI (isSessionActive u) (conversation u) (error u) (statusMessage u)
       (history u) v.

Definition with_ui (f : UI -> UI) (s : State) : State :=
  mkState (f (ui s)) (refs s) (browser s) (awaiting s).
Definition with_refs (f : Refs -> Refs) (s : State) : State :=
  mkState (ui s) (f (refs s)) (browser s) (awaiting s).
Definition with_browser (f : Browser -> Browser) (s : State) : State :=
  mkState (ui s) (refs s) (f (browser s)) (awaiting s).

Definition initialUI : UI :=
  mkUI false [] None "Ready to connect" [] false.

Definition historyKey : string := "eduverse_audio_history".

(** The updater passed to [setConversation] for a transcription: the copy
    [newConv], its last element [newConv[newConv.length - 1]] (undefined
    for the empty list), and either the update of that element or a
    [push]. Here a conversation is the list of the values of its turns;
    the version on the turn objects follows. *)
Definition appendTranscription (who : Speaker) (transcription : string)
    (prev : list ConversationTurn) : list ConversationTurn :=
  let newConv := prev in
  let i := pred (length newConv) in
  match newConv !! i with
  | Some lastTurn =>
      if bool_decide (speaker lastTurn = who) && negb (isFinal lastTurn)
      then <[i := mkTurn (speaker lastTurn) (text lastTurn +:+ transcription)
                         (isFinal lastTurn)]> newConv
      else newConv ++ [mkTurn who transcription false]
  | None => newConv ++ [mkTurn who transcription false]
  end.

(** [prev.map(turn => ({ ...turn, isFinal: true }))] *)
Definition finalizeTurns (prev : list ConversationTurn) : list ConversationTurn :=
  (fun turn => mkTurn (speaker turn) (text turn) true) <$> prev.

(** The same two updaters on the objects themselves. A turn is an object
    at an address of the heap and a conversation is the array of the
    addresses of its turns: the copy [[...prev]] shares the objects of
    [prev], [lastTurn.text += transcription] writes into the shared object,
    [push] and [map] make new ones. *)
Definition readTurns (heap : list ConversationTurn) (conv : list nat)
    : list ConversationTurn :=
  omap (fun a => heap !! a) conv.

Definition appendTranscriptionRef (who : Speaker) (transcription : string)
    (heap : list ConversationTurn) (prev : list nat)
    : list ConversationTurn * list nat :=
  let newConv := prev in
  let fresh := mkTurn who transcription false in
  match newConv !! pred (length newConv) with
  | Some a =>
      match heap !! a with
      | Some lastTurn =>
          if bool_decide (speaker lastTurn = who) && negb (isFinal lastTurn)
          then (<[a := mkTurn (speaker lastTurn) (text lastTurn +:+ transcription)
                               (isFinal lastTurn)]> heap, newConv)
          else (heap ++ [fresh], newConv ++ [length heap])
      | None => (heap ++ [fresh], newConv ++ [length heap])
      end
  | None => (heap ++ [fresh], newConv ++ [length heap])
  end.

Definition finalizeTurnsRef (heap : list ConversationTurn) (prev : list nat)
    : list ConversationTurn * list nat :=
  let copies := finalizeTurns (readTurns heap prev) in
  (heap ++ copies, seq (length heap) (length copies)).

(** The addresses of a conversation are distinct and allocated. *)
Definition wellFormed (heap : list ConversationTurn) (conv : list nat) : Prop :=
  NoDup conv /\ Forall (fun a => (a < length heap)%nat) conv.

(** The speaker and text a message carries: [isInput] decides when both
    transcriptions are present. *)
Definition transcriptionOf (m : LiveServerMessage) : option (Speaker * string) :=
  match inputTranscription m, outputTranscription m with
  | Some t, _ => Some (user, t)
  | None, Some t => Some (model, t)
  | None, None => None
  end.

(** [if (message.serverContent?.interrupted) { ... }] *)
Definition onInterrupted (s : State) : State :=
  let sources := elements (audioSourcesRef (refs s)) in
  let s := with_browser (emits (SourceStop <$> sources)) s in
  let s := with_refs (set_audioSourcesRef ∅) s in
  with_refs (set_nextStartTimeRef 0%Q) s.

(** The two tests that close [onmessage]. *)
Definition onmessage_tail (m : LiveServerMessage) (s : State) : State :=
  let s := if interrupted m then onInterrupted s else s in
  if turnComplete m then with_ui (setConversation finalizeTurns) s else s.

(** The first test of [onmessage]: a transcription updates the
    conversation. *)
Definition onTranscription (m : LiveServerMessage) (s : State) : State :=
  match transcriptionOf m with
  | Some (who, transcription) =>
      with_ui (setConversation (appendTranscription who transcription)) s
  | None => s
  end.

(** What one message does to the conversation. *)
Definition transcribe (m : LiveServerMessage)
    (conv : list ConversationTurn) : list ConversationTurn :=
  let conv := match transcriptionOf m with
              | Some (who, transcription) => appendTranscription who transcription conv
              | None => conv
              end in
  if turnComplete m then finalizeTurns conv else conv.

(** A transcription fragment [(speaker, text, turnComplete)] as a message:
    the text under the speaker's transcription, and the flag. *)
Definition fragmentMessage (f : Speaker * string * bool) : LiveServerMessage :=
  let '(who, fragment, complete) := f in
  match who with
  | user => mkMessage (Some fragment) None None false complete None
  | model => mkMessage None (Some fragment) None false complete None
  end.

(** Adjacent turns differ in speaker, or the earlier one is final. *)
Fixpoint adjacentOk (conv : list ConversationTurn) : Prop :=
  match conv with
  | t1 :: rest =>
      match rest with
      | t2 :: _ => speaker t1 <> speaker t2 \/ isFinal t1 = true
      | [] => True
      end /\ adjacentOk rest
  | [] => True
  end.

Section Handlers.
Context `{AudioUtils} `{JSON (list AudioHistoryItem)}.

(** [onmessage] up to its [await], or to its end when there is no audio to
    play. *)
Definition onmessage_begin (m : LiveServerMessage) (currentTime : Q)
    (s : State) : State :=
  let s := onTranscription m s in
  match audioToPlay m (refs s) with
  | Some (base64Audio, ctx) =>
      let s := with_refs (Scheduler.clampClock currentTime) s in
      let buffer := decodeAudioData (decode base64Audio) 24000 1 in
      mkState (ui s) (refs s) (browser s)
              (awaiting s ++ [mkAwaiting ctx buffer m])
  | None => onmessage_tail m s
  end.

(** The rest of [onmessage] once the [k]-th suspended handler resumes. *)
Definition onmessage_resume (k : nat) (s : State) : State :=
  match awaiting s !! k with
  | Some a =>
      let '(r, b) := Scheduler.playBuffer (aw_buffer a) (refs s, browser s) in
      onmessage_tail (aw_message a) (mkState (ui s) r b (delete k (awaiting s)))
  | None => s
  end.

(** A delivery whose [await] resumes before anything else happens. *)
Definition onmessage (m : LiveServerMessage) (currentTime : Q) (s : State) : State :=
  onmessage_resume (length (awaiting s)) (onmessage_begin m currentTime s).

(** [saveToHistory]; [history] is the one of the render that made the
    function. *)
Definition saveToHistory (render : UI) (conv : list ConversationTurn)
    (idNow timestampNow : Z) (s : State) : State :=
  if decide (length conv = 0%nat) then s
  else
    let newItem := mkItem (pretty idNow) timestampNow conv in
    let updated := take 10 (newItem :: history render) in
    let s := with_ui (setHistory updated) s in
    with_browser (setItem historyKey (JSON_stringify updated)) s.

Definition clearHistory (s : State) : State :=
  let s := with_ui (setHistory []) s in
  with_browser (removeItem historyKey) s.

(** [handleSessionEnded]; [conversation] is the one of the render that made
    the function. *)
Definition handleSessionEnded (render : UI) (idNow timestampNow : Z)
    (s : State) : State :=
  let s := with_browser (releaseResources (refs s)) s in
  let s := if bool_decide (is_Some (sessionPromiseRef (refs s)))
              && bool_decide (0 < length (conversation render))%nat
           then saveToHistory render (conversation render) idNow timestampNow s
           else s in
  let s := with_refs (set_sessionPromiseRef None) s in
  let s := with_ui (setIsSessionActive false) s in
  with_ui (setStatusMessage "Session ended") s.

(** [startSession], with the outcome of [getUserMedia]. *)
Definition startSession (microphone : option (list nat)) (s : State) : State :=
  let s := with_ui (setError None) s in
  let s := with_ui (setConversation (fun _ => [])) s in
  let s := with_ui (setIsSessionActive true) s in
  let s := with_ui (setStatusMessage "Connecting...") s in
  match microphone with
  | Some stream =>
      let '(r, b) := acquire stream (refs s) (browser s) in
      mkState (ui s) r b (awaiting s)
  | None =>
      let s := with_browser (emit ConsoleError) s in
      let s := with_ui (setError (Some "mic_permission")) s in
      let s := with_ui (setIsSessionActive false) s in
      with_ui (setStatusMessage "Error connecting") s
  end.

Definition onopen (s : State) : State :=
  let s := with_ui (setStatusMessage "Listening...") s in
  let '(r, b) := openCapture (refs s) (browser s) in
  mkState (ui s) r b (awaiting s).

(** [onaudioprocess]: [sessionPromiseRef.current.then(...)] has no guard. *)
Definition onaudioprocess (inputData : list PCM.number) (s : State) : State :=
  let data := encode (PCM.floatToPCM16 inputData) in
  match sessionPromiseRef (refs s) with
  | Some session =>
      with_browser (emit (SendRealtimeInput session data "audio/pcm;rate=16000")) s
  | None => with_browser (emit Uncaught) s
  end.

Definition onerror (render : UI) (idNow timestampNow : Z) (s : State) : State :=
  let s := with_browser (emit ConsoleError) s in
  let s := with_ui (setError (Some "session_interrupted")) s in
  handleSessionEnded render idNow timestampNow s.

Definition onclose (render : UI) (idNow timestampNow : Z) (s : State) : State :=
  handleSessionEnded render idNow timestampNow s.

Definition stopSession (s : State) : State :=
  match sessionPromiseRef (refs s) with
  | Some session => with_browser (emit (SessionClose session)) s
  | None => s
  end.

Definition restoreFromHistory (render : UI) (item : AudioHistoryItem)
    (s : State) : State :=
  let s := if isSessionActive render then stopSession s else s in
  let s := with_ui (setConversation (fun _ => item_conversation item)) s in
  with_ui (setShowHistory false) s.

(** The effect that runs once after the first render. *)
Definition loadHistory (s : State) : State :=
  match localStorage (browser s) !! historyKey with
  | Some (String c rest) =>
      match JSON_parse (String c rest) with
      | Some parsed => with_ui (setHistory parsed) s
      | None => with_browser (emit ConsoleError) s
      end
  | _ => s
  end.

(** What can happen to a mounted transcriber while a session runs. *)
Inductive event : Type :=
  | Message (m : LiveServerMessage) (currentTime : Q)
  | Decoded (k : nat)
  | Ended (source : nat).

Definition step (s : State) (e : event) : State :=
  match e with
  | Message m currentTime => onmessage_begin m currentTime s
  | Decoded k => onmessage_resume k s
  | Ended source => with_refs (Scheduler.onended source) s
  end.

Definition steps (es : list event) (s : State) : State := foldl step s es.

(** The reading of [ctx.currentTime] that comes with a message is a
    binary64 number. *)
Definition doubleTime (e : event) : Prop :=
  match e with
  | Message _ currentTime => Binary64.isDouble currentTime
  | _ => True
  end.

(** No interruption is signalled during [es]: neither by a message that
    arrives nor by one whose handler is still suspended when [es] begins. *)
Definition quietEvent (e : event) : Prop :=
  match e with Message m _ => interrupted m = false | _ => True end.

Definition quietAwaiting (s : State) : Prop :=
  Forall (fun a => interrupted (aw_message a) = false) (awaiting s).

Definition uninterrupted (s : State) (es : list event) : Prop :=
  quietAwaiting s /\ Forall quietEvent es.

(** Messages delivered one after the other, each with the reading of the
    output context's clock at its arrival. *)
Definition deliver (ms : list (LiveServerMessage * Q)) (s : State) : State :=
  foldl (fun s mt => onmessage mt.1 mt.2 s) s ms.

End Handlers.

Definition initialState (storage : gmap string string) : State :=
  mkState initialUI initialRefs (mkBrowser [] ∅ 0 storage) [].

End AudioTranscriber.

(** ** The deep dive of the video processor *)
Module VideoProcessor.

Record Summary : Type := mkSummary {
  brief : string;
  detailed : string;
  keyPoints : list string
}.

Inductive QuestionType : Type :=
  | multiple_choice | true_false | short_answer | fill_in_the_blank.

Record QuizQuestion : Type := mkQuestion {
  question : string;
  type : QuestionType;
  options : option (list string);
  answer : string;
  explanation : string
}.

Record VideoAnalysisResult : Type := mkResult {
  summary : Summary;
  quiz : list QuizQuestion
}.

Record VideoHistoryItem : Type := mkItem {
  id : string;
  timestamp : Z;
  sourceName : string;
  result : VideoAnalysisResult
}.

Record ConversationTurn : Type := mkTurn {
  speaker : Speaker;
  text : string
}.

Inductive DeepDiveStatus : Type := idle | active | generating_report | complete.

Global Instance DeepDiveStatus_eq_dec : EqDecision DeepDiveStatus.
Proof. solve_decision. Defined.

(** The [useState] cells the deep dive and the history read or write. *)
Record UI : Type := mkUI {
  analysisResult : option VideoAnalysisResult;
  history : list VideoHistoryItem;
  deepDiveStatus : DeepDiveStatus;
  deepDiveConversation : list ConversationTurn;
  learningReport : option (gmap string string);
  deepDiveError : option string
}.

Record State : Type := mkState {
  ui : UI;
  refs : Refs;
  browser : Browser;
  awaiting : list (Awaiting LiveServerMessage)
}.

Definition setHistory (v : list VideoHistoryItem) (u : UI) : UI :=
  mkUI (analysisResult u) v (deepDiveStatus u) (deepDiveConversation u)
       (learningReport u) (deepDiveError u).
Definition setDeepDiveStatus (v : DeepDiveStatus) (u : UI) : UI :=
  mkUI (analysisResult u) (history u) v (deepDiveConversation u)
       (learningReport u) (deepDiveError u).
Definition setDeepDiveConversation
    (f : list ConversationTurn -> list ConversationTurn) (u : UI) : UI :=
  mkUI (analysisResult u) (history u) (deepDiveStatus u)
       (f (deepDiveConversation u)) (learningReport u) (deepDiveError u).
Definition setLearningReport (v : option (gmap string string)) (u : UI) : UI :=
  mkUI (analysisResult u) (history u) (deepDiveStatus u)
       (deepDiveConversation u) v (deepDiveError u).
Definition setDeepDiveError (v : option string) (u : UI) : UI :=
  mkUI (analysisResult u) (history u) (deepDiveStatus u)
       (deepDiveConversation u) (learningReport u) v.

Definition with_ui (f : UI -> UI) (s : State) : State :=
  mkState (f (ui s)) (refs s) (browser s) (awaiting s).
Definition with_refs (f : Refs -> Refs) (s : State) : State :=
  mkState (ui s) (f (refs s)) (browser s) (awaiting s).
Definition with_browser (f : Browser -> Browser) (s : State) : State :=
  mkState (ui s) (refs s) (f (browser s)) (awaiting s).

Definition initialUI : UI := mkUI None [] idle [] None None.

Definition initialState (storage : gmap string string) : State :=
  mkState initialUI initialRefs (mkBrowser [] ∅ 0 storage) [].

Definition historyKey : string := "eduverse_video_history".

(** The updater of a transcription: [last = prev[prev.length - 1]], then
    either [[...prev.slice(0, -1), { ...last, text: last.text + text }]] or
    [[...prev, { speaker, text }]]. *)
Definition appendText (who : Speaker) (fragment : string)
    (prev : list ConversationTurn) : list ConversationTurn :=
  match prev !! pred (length prev) with
  | Some last =>
      if bool_decide (speaker last = who)
      then take (pred (length prev)) prev
             ++ [mkTurn (speaker last) (text last +:+ fragment)]
      else prev ++ [mkTurn who fragment]
  | None => prev ++ [mkTurn who fragment]
  end.

(** [handleDeepDiveSessionEnded]; [deepDiveStatus] is the one of the render
    that made the function. *)
Definition handleDeepDiveSessionEnded (render : UI) (s : State) : State :=
  let s := with_browser (releaseResources (refs s)) s in
  let s := with_refs (set_sessionPromiseRef None) s in
  if decide (deepDiveStatus render = complete) then s
  else with_ui (setDeepDiveStatus idle) s.

(** [stopDeepDive], made by the same render as the handler it calls.
    [session.close()] is called by the function given to [then], which
    runs once the statements of [stopDeepDive] and of its caller are
    done: after the teardown, and although the ref is [null] by then. *)
Definition stopDeepDive (render : UI) (s : State) : State :=
  let session := sessionPromiseRef (refs s) in
  let s := handleDeepDiveSessionEnded render s in
  match session with
  | Some session => with_browser (emit (SessionClose session)) s
  | None => s
  end.

(** [if (message.toolCall?.functionCalls) { ... }]; reading [fc.name] of a
    missing first call throws. *)
Definition onToolCall (render : UI) (m : LiveServerMessage) (s : State) : State :=
  match functionCalls m with
  | Some (fc :: _) =>
      if decide (fc_name fc = "generateLearningReport") then
        match fc_args fc with
        | Some args =>
            let s := with_ui (setLearningReport (Some args)) s in
            let s := with_ui (setDeepDiveStatus complete) s in
            stopDeepDive render s
        | None => s
        end
      else s
  | Some [] => with_browser (emit Uncaught) s
  | None => s
  end.

(** The first two tests of [onmessage]: the user's transcription, then the
    model's. *)
Definition onTranscriptions (m : LiveServerMessage) (s : State) : State :=
  let s := match inputTranscription m with
           | Some fragment =>
               with_ui (setDeepDiveConversation (appendText user fragment)) s
           | None => s
           end in
  match outputTranscription m with
  | Some fragment =>
      with_ui (setDeepDiveConversation (appendText model fragment)) s
  | None => s
  end.

Section Handlers.
Context `{AudioUtils} `{JSON (list VideoHistoryItem)}.

(** [onmessage] up to its [await], or to its end when there is no audio to
    play; [render] is the render in which [startDeepDive] was called. *)
Definition onmessage_begin (render : UI) (m : LiveServerMessage)
    (currentTime : Q) (s : State) : State :=
  let s := onTranscriptions m s in
  match audioToPlay m (refs s) with
  | Some (base64Audio, ctx) =>
      let s := with_refs (Scheduler.clampClock currentTime) s in
      let buffer := decodeAudioData (decode base64Audio) 24000 1 in
      mkState (ui s) (refs s) (browser s)
              (awaiting s ++ [mkAwaiting ctx buffer m])
  | None => onToolCall render m s
  end.

Definition onmessage_resume (render : UI) (k : nat) (s : State) : State :=
  match awaiting s !! k with
  | Some a =>
      let '(r, b) := Scheduler.playBuffer (aw_buffer a) (refs s, browser s) in
      onToolCall render (aw_message a)
                 (mkState (ui s) r b (delete k (awaiting s)))
  | None => s
  end.

(** A delivery whose [await] resumes before anything else happens. *)
Definition onmessage (render : UI) (m : LiveServerMessage) (currentTime : Q)
    (s : State) : State :=
  onmessage_resume render (length (awaiting s))
                   (onmessage_begin render m currentTime s).

(** [startDeepDive], with the outcome of [getUserMedia]. *)
Definition startDeepDive (render : UI) (microphone : option (list nat))
    (s : State) : State :=
  match analysisResult render with
  | None => s
  | Some _ =>
      let s := with_ui (setDeepDiveError None) s in
      let s := with_ui (setDeepDiveConversation (fun _ => [])) s in
      let s := with_ui (setLearningReport None) s in
      let s := with_ui (setDeepDiveStatus active) s in
      match microphone with
      | Some stream =>
          let '(r, b) := acquire stream (refs s) (browser s) in
          mkState (ui s) r b (awaiting s)
      | None =>
          let s := with_browser (emit ConsoleError) s in
          let s := with_ui (setDeepDiveError (Some "mic_permission")) s in
          with_ui (setDeepDiveStatus idle) s
      end
  end.

Definition onopen (s : State) : State :=
  let '(r, b) := openCapture (refs s) (browser s) in
  mkState (ui s) r b (awaiting s).

(** [onaudioprocess]: [sessionPromiseRef.current?.then(...)]. *)
Definition onaudioprocess (inputData : list PCM.number) (s : State) : State :=
  let data := encode (PCM.floatToPCM16 inputData) in
  match sessionPromiseRef (refs s) with
  | Some session =>
      with_browser (emit (SendRealtimeInput session data "audio/pcm;rate=16000")) s
  | None => s
  end.

Definition onerror (render : UI) (s : State) : State :=
  let s := with_browser (emit ConsoleError) s in
  let s := with_ui (setDeepDiveError (Some "session_interrupted")) s in
  stopDeepDive render s.

Definition onclose (render : UI) (s : State) : State :=
  handleDeepDiveSessionEnded render s.

(** The effect that runs once after the first render. *)
Definition loadHistory (s : State) : State :=
  match localStorage (browser s) !! historyKey with
  | Some (String c rest) =>
      match JSON_parse (String c rest) with
      | Some parsed => with_ui (setHistory parsed) s
      | None => with_browser (emit ConsoleError) s
      end
  | _ => s
  end.

Definition saveToHistory (render : UI) (res : VideoAnalysisResult)
    (name : string) (idNow timestampNow : Z) (s : State) : State :=
  let newItem := mkItem (pretty idNow) timestampNow name res in
  let updatedHistory := take 10 (newItem :: history render) in
  let s := with_ui (setHistory updatedHistory) s in
  with_browser (setItem historyKey (JSON_stringify updatedHistory)) s.

(** The callbacks of one session; all are made in the render in which
    [startDeepDive] was called. *)
Inductive event : Type :=
  | Open
  | Message (m : LiveServerMessage) (currentTime : Q)
  | Decoded (k : nat)
  | Ended (source : nat)
  | Error
  | Close.

Definition step (render : UI) (s : State) (e : event) : State :=
  match e with
  | Open => onopen s
  | Message m currentTime => onmessage_begin render m currentTime s
  | Decoded k => onmessage_resume render k s
  | Ended source => with_refs (Scheduler.onended source) s
  | Error => onerror render s
  | Close => onclose render s
  end.

Definition steps (render : UI) (es : list event) (s : State) : State :=
  foldl (step render) s es.

(** The reading of [ctx.currentTime] that comes with a message is a
    binary64 number. *)
Definition doubleTime (e : event) : Prop :=
  match e with
  | Message _ currentTime => Binary64.isDouble currentTime
  | _ => True
  end.

(** A session from the click on the start button: the callbacks keep the
    render of the click. *)
Definition session (microphone : option (list nat)) (es : list event)
    (s : State) : State :=
  steps (ui s) es (startDeepDive (ui s) microphone s).

End Handlers.

End VideoProcessor.

(** ** What was said and what was heard

    The words of one speaker in a conversation, turn after turn, and the
    words of that speaker in the transcriptions of a list of messages. *)
Module Words.

Definition saidBy (who : Speaker) (conv : list AudioTranscriber.ConversationTurn)
    : string :=
  foldr (fun t rest =>
           if decide (AudioTranscriber.speaker t = who)
           then AudioTranscriber.text t +:+ rest else rest)
        EmptyString conv.

(** What a list of messages carries for a speaker, message after
    message: for the user every input transcription; for the model the
    output transcription of every message that carries no input
    transcription. *)
Definition heardFrom (who : Speaker) (ms : list LiveServerMessage) : string :=
  foldr (fun m rest =>
           match who with
           | user => default EmptyString (inputTranscription m) +:+ rest
           | model =>
               match inputTranscription m with
               | Some _ => rest
               | None => default EmptyString (outputTranscription m) +:+ rest
               end
           end)
        EmptyString ms.

Definition messagesOf (es : list AudioTranscriber.event) : list LiveServerMessage :=
  omap (fun e => match e with
                 | AudioTranscriber.Message m _ => Some m
                 | _ => None
                 end) es.

(** The same for the deep dive, whose handler reads both transcriptions of
    a message, the user's first. *)
Definition saidInDeepDive (who : Speaker)
    (conv : list VideoProcessor.ConversationTurn) : string :=
  foldr (fun t rest =>
           if decide (VideoProcessor.speaker t = who)
           then VideoProcessor.text t +:+ rest else rest)
        EmptyString conv.

Definition heardInDeepDive (who : Speaker) (ms : list LiveServerMessage) : string :=
  foldr (fun m rest =>
           match who with
           | user => default EmptyString (inputTranscription m) +:+ rest
           | model => default EmptyString (outputTranscription m) +:+ rest
           end)
        EmptyString ms.

Definition deepDiveMessagesOf (es : list VideoProcessor.event)
    : list LiveServerMessage :=
  omap (fun e => match e with
                 | VideoProcessor.Message m _ => Some m
                 | _ => None
                 end) es.

(** Adjacent turns of a deep dive differ in speaker. *)
Fixpoint alternates (conv : list VideoProcessor.ConversationTurn) : Prop :=
  match conv with
  | t1 :: rest =>
      match rest with
      | t2 :: _ => VideoProcessor.speaker t1 <> VideoProcessor.speaker t2
      | [] => True
      end /\ alternates rest
  | [] => True
  end.

End Words.

(** ** The calls of a teardown

    What [releaseResources] adds to the log, call by call. *)
Module Release.

Definition closeCalls (ctx : option nat) (b : Browser) : list op :=
  match ctx with
  | Some c => if decide (c ∈ closedContexts b) then [] else [ContextClose c]
  | None => []
  end.

Definition releaseCalls (r : Refs) (b : Browser) : list op :=
  (TrackStop <$> default [] (mediaStreamRef r))
  ++ (NodeDisconnect <$> option_list (scriptProcessorRef r))
  ++ (NodeDisconnect <$> option_list (mediaStreamSourceRef r))
  ++ closeCalls (inputAudioContextRef r) b
  ++ closeCalls (outputAudioContextRef r) b.

End Release.

(** ** Released

    Between the browser [b] and the browser [b'], everything the refs [r]
    hold has been released: every track of the stream stopped, both nodes
    disconnected, and each context either closed before or told to close
    in between. *)
Definition closedOrClosing (c : nat) (b b' : Browser) : Prop :=
  c ∈ closedContexts b \/ In (ContextClose c) (Scheduler.since b b').

Definition released (r : Refs) (b b' : Browser) : Prop :=
  (forall tracks t, mediaStreamRef r = Some tracks -> t ∈ tracks ->
                    In (TrackStop t) (Scheduler.since b b'))
  /\ (forall n, scriptProcessorRef r = Some n ->
                In (NodeDisconnect n) (Scheduler.since b b'))
  /\ (forall n, mediaStreamSourceRef r = Some n ->
                In (NodeDisconnect n) (Scheduler.since b b'))
  /\ (forall c, inputAudioContextRef r = Some c -> closedOrClosing c b b')
  /\ (forall c, outputAudioContextRef r = Some c -> closedOrClosing c b b').

(** ** A whole session of the audio transcriber

    The callbacks given to [ai.live.connect] are made inside [startSession],
    so they all see the render in which the start button was clicked. *)
Module TranscriberSession.
Import AudioTranscriber.

Inductive callback : Type :=
  | Opened
  | Event (e : event)
  | Failed (idNow timestampNow : Z)
  | Closed (idNow timestampNow : Z).

Section Handlers.
Context `{AudioUtils} `{JSON (list AudioHistoryItem)}.

Definition call (render : UI) (s : State) (c : callback) : State :=
  match c with
  | Opened => onopen s
  | Event e => step s e
  | Failed idNow timestampNow => onerror render idNow timestampNow s
  | Closed idNow timestampNow => onclose render idNow timestampNow s
  end.

Definition session (microphone : option (list nat)) (cs : list callback)
    (s : State) : State :=
  foldl (call (ui s)) (startSession microphone s) cs.

End Handlers.
End TranscriberSession.

(** ** The history of the video page

    [clearHistory] of the video processor, and analyses saved one after
    the other, each by the [saveToHistory] of the render that follows the
    save before it. *)
Module VideoHistory.
Import VideoProcessor.

Definition clearHistory (s : State) : State :=
  let s := with_ui (setHistory []) s in
  with_browser (removeItem historyKey) s.

Definition itemOf (a : VideoAnalysisResult * string * Z * Z) : VideoHistoryItem :=
  let '(res, name, idNow, timestampNow) := a in
  mkItem (pretty idNow) timestampNow name res.

Section Handlers.
Context `{JSON (list VideoHistoryItem)}.

Definition saveAnalysis (s : State)
    (a : VideoAnalysisResult * string * Z * Z) : State :=
  let '(res, name, idNow, timestampNow) := a in
  saveToHistory (ui s) res name idNow timestampNow s.

Definition saveAnalyses (analyses : list (VideoAnalysisResult * string * Z * Z))
    (s : State) : State :=
  foldl saveAnalysis s analyses.

End Handlers.
End VideoHistory.

(** ** The input and the quiz of the video page

    The [useState] cells of [VideoProcessor] that the URL field, the quiz
    and the analysis write. A JS string is kept as the bytes of its UTF-8
    form: the patterns tested below are ASCII, and an ASCII byte occurs in
    UTF-8 only as itself, so a substring or suffix test gives the same
    answer on the bytes as on the code units. *)
Module VideoPage.
Import VideoProcessor.

Inductive AppStatus : Type :=
  | status_idle | status_processing | status_success | status_error.

Inductive SummaryView : Type := view_brief | view_detailed | view_keyPoints.

Record Page : Type := mkPage {
  videoFile : option string;
  videoUrl : string;
  status : AppStatus;
  error : option string;
  analysisResult : option VideoAnalysisResult;
  userAnswers : gmap nat string;
  quizScore : option nat;
  videoUrlInput : string;
  summaryView : SummaryView;
  deepDiveStatus : DeepDiveStatus;
  deepDiveConversation : list ConversationTurn;
  learningReport : option (gmap string string)
}.

Definition setVideoFile (v : option string) (p : Page) : Page :=
  mkPage v (videoUrl p) (status p) (error p) (analysisResult p) (userAnswers p)
         (quizScore p) (videoUrlInput p) (summaryView p) (deepDiveStatus p)
         (deepDiveConversation p) (learningReport p).
Definition setVideoUrl (v : string) (p : Page) : Page :=
  mkPage (videoFile p) v (status p) (error p) (analysisResult p) (userAnswers p)
         (quizScore p) (videoUrlInput p) (summaryView p) (deepDiveStatus p)
         (deepDiveConversation p) (learningReport p).
Definition setStatus (v : AppStatus) (p : Page) : Page :=
  mkPage (videoFile p) (videoUrl p) v (error p) (analysisResult p) (userAnswers p)
         (quizScore p) (videoUrlInput p) (summaryView p) (deepDiveStatus p)
         (deepDiveConversation p) (learningReport p).
Definition setError (v : option string) (p : Page) : Page :=
  mkPage (videoFile p) (videoUrl p) (status p) v (analysisResult p) (userAnswers p)
         (quizScore p) (videoUrlInput p) (summaryView p) (deepDiveStatus p)
         (deepDiveConversation p) (learningReport p).
Definition setUserAnswers (f : gmap nat string -> gmap nat string) (p : Page) : Page :=
  mkPage (videoFile p) (videoUrl p) (status p) (error p) (analysisResult p)
         (f (userAnswers p)) (quizScore p) (videoUrlInput p) (summaryView p)
         (deepDiveStatus p) (deepDiveConversation p) (learningReport p).
Definition setQuizScore (v : option nat) (p : Page) : Page :=
  mkPage (videoFile p) (videoUrl p) (status p) (error p) (analysisResult p)
         (userAnswers p) v (videoUrlInput p) (summaryView p) (deepDiveStatus p)
         (deepDiveConversation p) (learningReport p).
Definition setVideoUrlInput (v : string) (p : Page) : Page :=
  mkPage (videoFile p) (videoUrl p) (status p) (error p) (analysisResult p)
         (userAnswers p) (quizScore p) v (summaryView p) (deepDiveStatus p)
         (deepDiveConversation p) (learningReport p).

Definition resetAnalysisState (p : Page) : Page :=
  mkPage (videoFile p) (videoUrl p) (status p) (error p) None ∅ None
         (videoUrlInput p) view_brief idle [] None.

(** [String.prototype.includes], and [RegExp.prototype.test] of a pattern
    that is an alternation of literal texts. *)
Fixpoint includes (searchString s : string) : bool :=
  String.prefix searchString s
  || match s with
     | EmptyString => false
     | String _ rest => includes searchString rest
     end.

(** The lower-case form of an ASCII letter; any other byte is itself. The
    [i] flag of a pattern without the [u] flag never lets a character
    outside ASCII match an ASCII letter. *)
Definition lowerAscii (c : Ascii.ascii) : Ascii.ascii :=
  let n := Ascii.nat_of_ascii c in
  if (65 <=? n)%nat && (n <=? 90)%nat then Ascii.ascii_of_nat (n + 32) else c.

Fixpoint lower (s : string) : string :=
  match s with
  | EmptyString => EmptyString
  | String c rest => String (lowerAscii c) (lower rest)
  end.

(** A literal text followed by [$], with no [m] flag: a match at the very
    end of the input. *)
Fixpoint endsWith (suffix s : string) : bool :=
  String.eqb s suffix
  || match s with
     | EmptyString => false
     | String _ rest => endsWith suffix rest
     end.

(** [/youtube\.com|youtu\.be|vimeo\.com/.test(url)] *)
Definition platforms : list string := ["youtube.com"; "youtu.be"; "vimeo.com"].
Definition isPlatformLink (url : string) : bool :=
  includes "youtube.com" url || includes "youtu.be" url || includes "vimeo.com" url.

(** [/\.(mp4|webm|ogv)$/i.test(url)] *)
Definition extensions : list string := [".mp4"; ".webm"; ".ogv"].
Definition hasVideoExtension (url : string) : bool :=
  endsWith ".mp4" (lower url) || endsWith ".webm" (lower url)
  || endsWith ".ogv" (lower url).

Definition handleUrlInputChange (url : string) (p : Page) : Page :=
  let p := setVideoUrlInput url p in
  let p := resetAnalysisState p in
  let p := setError None p in
  let p := setVideoUrl EmptyString p in
  let p := setVideoFile None p in
  match url with
  | EmptyString => p
  | String _ _ =>
      if isPlatformLink url then setError (Some "platform_link") p
      else if negb (hasVideoExtension url) then setError (Some "invalid_url_format") p
      else setVideoUrl url p
  end.

(** The [disabled] attribute of the Analyze button:
    [!videoUrl || status === 'processing' || !!error]. *)
Definition analyzeDisabled (p : Page) : bool :=
  match videoUrl p with
  | EmptyString => true
  | String _ _ =>
      match status p, error p with
      | status_processing, _ => true
      | _, Some (String _ _) => true
      | _, _ => false
      end
  end.

(** The [catch] and the [setStatus('error')] of [handleSubmit], with the
    message of the error that was thrown. *)
Definition handleSubmit_catch (errorMessage : string) (p : Page) : Page :=
  let p :=
    if includes "timed out" errorMessage then setError (Some "timeout") p
    else if includes "CORS" errorMessage then setError (Some "cors") p
    else if includes "extract frames" errorMessage then setError (Some "extract_frames") p
    else if includes "invalid duration" errorMessage then setError (Some "invalid_duration") p
    else setError (Some "generic_analysis") p in
  setStatus status_error p.

(** The errors that [extractFrames] rejects with and the one [handleSubmit]
    throws itself, with their messages. *)
Inductive Rejection : Type :=
  | no_canvas_context | loading_timed_out | invalid_duration | loading_failed
  | no_frames.

Definition message (r : Rejection) : string :=
  match r with
  | no_canvas_context => "Could not create canvas context."
  | loading_timed_out => "Video loading timed out."
  | invalid_duration => "Video has an invalid duration."
  | loading_failed => "Failed to load video due to CORS or a network issue."
  | no_frames => "Could not extract frames."
  end.

Section Quiz.
(** [String.prototype.trim] and [String.prototype.toLowerCase]. *)
Variables trim toLowerCase : string -> string.

(** [userAnswers[index] || ''] *)
Definition answerAt (answers : gmap nat string) (index : nat) : string :=
  match answers !! index with
  | Some (String c rest) => String c rest
  | _ => EmptyString
  end.

(** The test of [handleQuizSubmit], which the results view repeats for
    each question. *)
Definition isCorrect (answers : gmap nat string) (index : nat)
    (q : QuizQuestion) : bool :=
  bool_decide (toLowerCase (trim (answerAt answers index))
               = toLowerCase (trim (answer q))).

(** [analysisResult.quiz.forEach((q, index) => { ... score++ })], from
    [index] on. *)
Fixpoint forEach_score (answers : gmap nat string) (index : nat)
    (quiz : list QuizQuestion) (score : nat) : nat :=
  match quiz with
  | [] => score
  | q :: rest =>
      forEach_score answers (S index) rest
        (if isCorrect answers index q then S score else score)
  end.

Definition handleQuizSubmit (p : Page) : Page :=
  match analysisResult p with
  | None => p
  | Some res => setQuizScore (Some (forEach_score (userAnswers p) 0 (quiz res) 0)) p
  end.

(** The marks of the results view, one per question. *)
Definition marks (p : Page) : list bool :=
  match analysisResult p with
  | None => []
  | Some res => imap (fun index q => isCorrect (userAnswers p) index q) (quiz res)
  end.

(** The [onChange] of the input of question [index]. *)
Definition answer_onChange (index : nat) (value : string) (p : Page) : Page :=
  setUserAnswers (fun prev => <[index := value]> prev) p.

End Quiz.

End VideoPage.

(** ** Stand-ins for closed examples

    A byte-per-character transport encoding and a two-bytes-per-frame
    decoder, and a JSON reader that knows only the empty list. *)
Definition exampleAudioUtils : AudioUtils := {|
  encode bs := String.string_of_list_ascii ((fun b => Ascii.ascii_of_N (Z.to_N b)) <$> bs);
  decode s := (fun c => Z.of_N (Ascii.N_of_ascii c)) <$> String.list_ascii_of_string s;
  decodeAudioData data rate channels :=
    mkAudioBuffer (N.of_nat (length data) / 2 / Npos channels) rate
|}.

Definition exampleJSON (A : Type) : JSON (list A) := {|
  JSON_stringify l := match l with [] => "[]" | _ => "[...]" end;
  JSON_parse s := if decide (s = "[]") then Some [] else None
|}.

(** A page of the video processor whose analysis is done, before any deep
    dive. *)
Definition analysedPage : VideoProcessor.State :=
  VideoProcessor.mkState
    (VideoProcessor.mkUI
       (Some (VideoProcessor.mkResult
                (VideoProcessor.mkSummary "brief" "detailed" []) []))
       [] VideoProcessor.idle [] None None)
    initialRefs (mkBrowser [] ∅ 0 ∅) [].

(** The same page after a deep dive that was opened and then ended by a
    click on End Call, once the two contexts it closed have reached the
    closed state. *)
Definition afterDeepDive : VideoProcessor.State :=
  let s := VideoProcessor.session (H:=exampleAudioUtils) (Some [0%nat])
             [VideoProcessor.Open] analysedPage in
  let s := VideoProcessor.stopDeepDive (VideoProcessor.ui s) s in
  VideoProcessor.with_browser
    (fun b => contextStateClosed 2 (contextStateClosed 0 b)) s.

(** A transcriber session just opened on a fresh page, and what happens
    next: a final turn of the user, a chunk of audio that is decoded and
    played, more words of the user, a second chunk, and the end of the
    first source. *)
Definition openedTranscriber : AudioTranscriber.State :=
  AudioTranscriber.onopen
    (AudioTranscriber.startSession (Some [0%nat]) (AudioTranscriber.initialState ∅)).

Definition firstEvents : list AudioTranscriber.event :=
  [ AudioTranscriber.Message (AudioTranscriber.fragmentMessage (user, "Hi", true)) 0%Q;
    AudioTranscriber.Message (audioMessage "abcd") 0%Q;
    AudioTranscriber.Decoded 0 ].

Definition nextEvents : list AudioTranscriber.event :=
  [ AudioTranscriber.Message (AudioTranscriber.fragmentMessage (user, "there", false)) (1 # 2)%Q;
    AudioTranscriber.Message (audioMessage "efghij") (1 # 8)%Q;
    AudioTranscriber.Decoded 0;
    AudioTranscriber.Ended 5 ].

(** A deep dive just started from the analysed page, and its first
    events: the connection opens, two chunks of audio arrive one after the
    other before either is decoded, then both are played. *)
Definition startedDeepDive : VideoProcessor.State :=
  VideoProcessor.startDeepDive (VideoProcessor.ui analysedPage) (Some [0%nat])
    analysedPage.

Definition openingEvents : list VideoProcessor.event :=
  [ VideoProcessor.Open;
    VideoProcessor.Message (audioMessage "abcd") 0%Q ].

Definition playingEvents : list VideoProcessor.event :=
  [ VideoProcessor.Message (audioMessage "efghij") (1 # 128)%Q;
    VideoProcessor.Decoded 0;
    VideoProcessor.Decoded 0 ].

(** Four chunks of five frames each, all arriving at time 0 and each
    played before the next arrives. *)
Definition roundingEvents : list AudioTranscriber.event :=
  [ AudioTranscriber.Message (audioMessage "abcdefghij") 0%Q;
    AudioTranscriber.Decoded 0;
    AudioTranscriber.Message (audioMessage "abcdefghij") 0%Q;
    AudioTranscriber.Decoded 0;
    AudioTranscriber.Message (audioMessage "abcdefghij") 0%Q;
    AudioTranscriber.Decoded 0;
    AudioTranscriber.Message (audioMessage "abcdefghij") 0%Q;
    AudioTranscriber.Decoded 0 ].

(** A JSON codec that knows one list: it writes every list as the same
    text and reads that text back as [l0]. *)
Definition memoJSON {A : Type} (l0 : list A) : JSON (list A) := {|
  JSON_stringify _ := "[memo]";
  JSON_parse s := if decide (s = "[memo]") then Some l0 else None
|}.

(** * Properties *)

(** ** The encoder *)
Module PCMFacts.
Import PCM.

Lemma pow2_pos (k : Z) : 0 <= k -> 0 < 2 ^ k.
Proof. intros; apply Z.pow_pos_nonneg; lia. Qed.

(** The integer the encoder truncates to is the truncation of the scaled
    rational value. *)
Lemma truncate_scaled (m e : Z) :
  truncate m (e + 15) = Qtruncate (value m e * 32768).
Proof.
  unfold truncate, Qtruncate, value, Qpow2.
  destruct (Z.leb_spec 0 e) as [He|He].
  - destruct (Z.leb_spec 0 (e + 15)); [|lia].
    cbn [Qmult inject_Z Qnum Qden Pos.mul].
    rewrite Z.quot_1_r, Z.pow_add_r by lia.
    change (2 ^ 15) with 32768. lia.
  - cbn [Qmult inject_Z Qnum Qden].
    rewrite Z.mul_1_r, Pos.mul_1_l, Pos.mul_1_r.
    assert (Hp : 0 < 2 ^ (- e)) by (apply pow2_pos; lia).
    rewrite Z2Pos.id by exact Hp.
    destruct (Z.leb_spec 0 (e + 15)) as [Hs|Hs].
    + replace 32768 with (2 ^ (e + 15) * 2 ^ (- e)).
      * rewrite Z.mul_assoc, Z.quot_mul by lia. reflexivity.
      * rewrite <- Z.pow_add_r by lia. replace (e + 15 + - e) with 15 by lia.
        reflexivity.
    + replace (2 ^ (- e)) with (2 ^ (- (e + 15)) * 32768).
      * assert (0 < 2 ^ (- (e + 15))) by (apply pow2_pos; lia).
        rewrite Z.quot_mul_cancel_r by lia. reflexivity.
      * change 32768 with (2 ^ 15). rewrite <- Z.pow_add_r by lia.
        f_equal. lia.
Qed.

(** [Qtruncate] rounds towards zero. *)
Lemma Qtruncate_nonneg (x : Q) :
  (0 <= x)%Q -> (inject_Z (Qtruncate x) <= x)%Q /\ (x < inject_Z (Qtruncate x) + 1)%Q.
Proof.
  destruct x as [n d]. unfold Qtruncate, Qle, Qlt. cbn. intros Hn.
  rewrite Z.mul_1_r in Hn.
  pose proof (Z.quot_rem' n (Z.pos d)) as Hqr.
  pose proof (Z.rem_bound_pos n (Z.pos d) Hn ltac:(lia)) as Hr.
  split; nia.
Qed.

Lemma Qtruncate_nonpos (x : Q) :
  (x <= 0)%Q -> (x <= inject_Z (Qtruncate x))%Q /\ (inject_Z (Qtruncate x) - 1 < x)%Q.
Proof.
  destruct x as [n d]. unfold Qtruncate, Qle, Qlt. cbn. intros Hn.
  rewrite Z.mul_1_r in Hn.
  pose proof (Z.quot_rem' n (Z.pos d)) as Hqr.
  pose proof (Z.rem_bound_pos (- n) (Z.pos d) ltac:(lia) ltac:(lia)) as Hr.
  rewrite Z.rem_opp_l' in Hr.
  split; nia.
Qed.

Lemma ToInt16_range (x : number) : - 2 ^ 15 <= ToInt16 x < 2 ^ 15.
Proof.
  destruct x as [m e| |s]; cbn [ToInt16]; try lia.
  pose proof (Z.mod_pos_bound (truncate m e) (2 ^ 16) ltac:(lia)).
  destruct (Z.leb_spec (2 ^ 15) (truncate m e mod 2 ^ 16)); lia.
Qed.

Lemma ToInt16_congruent (m e : Z) :
  ToInt16 (Dyadic m e) mod 2 ^ 16 = truncate m e mod 2 ^ 16.
Proof.
  cbn [ToInt16].
  destruct (Z.leb_spec (2 ^ 15) (truncate m e mod 2 ^ 16)).
  - rewrite <- (Z.mod_add _ 1 (2 ^ 16)) by lia.
    replace (truncate m e mod 2 ^ 16 - 2 ^ 16 + 1 * 2 ^ 16)
      with (truncate m e mod 2 ^ 16) by lia.
    apply Z.mod_mod; lia.
  - apply Z.mod_mod; lia.
Qed.

Lemma bytes_of_int16_le (v : Z) :
  le_combine (bytes_of_int16 v) = v mod 2 ^ 16
  /\ Forall (fun b => 0 <= b < 2 ^ 8) (bytes_of_int16 v).
Proof.
  unfold bytes_of_int16. cbn [le_combine].
  pose proof (Z.mod_pos_bound v (2 ^ 16) ltac:(lia)) as Hv.
  pose proof (Z.div_mod (v mod 2 ^ 16) (2 ^ 8) ltac:(lia)) as Hd.
  pose proof (Z.mod_pos_bound (v mod 2 ^ 16) (2 ^ 8) ltac:(lia)) as Hm.
  split; [lia|].
  repeat constructor; lia.
Qed.

Lemma floatToPCM16_bind (inputData : list number) :
  floatToPCM16 inputData
  = inputData ≫= (fun s => bytes_of_int16 (ToInt16 (times32768 s))).
Proof.
  unfold floatToPCM16, Uint8Array_of_Int16Array, int16_of_samples.
  induction inputData as [|s l IH]; [reflexivity|].
  cbn. do 2 f_equal. exact IH.
Qed.

(** C7. Every finite sample [s = m * 2^e] is stored as the 16-bit signed
    integer congruent modulo [2^16] to the truncation of [s * 32768], NaN
    and the infinities as 0; each stored integer takes two bytes, least
    significant first; nothing is clamped: the sample 1.5, outside [-1,1],
    is stored as [49152 - 65536 = -16384], not as the saturated 32767. *)
Theorem pcm16_truncates_and_wraps :
  (forall m e : Z,
      let v := ToInt16 (times32768 (Dyadic m e)) in
      - 2 ^ 15 <= v < 2 ^ 15
      /\ v mod 2 ^ 16 = Qtruncate (value m e * 32768) mod 2 ^ 16
      /\ le_combine (bytes_of_int16 v) = v mod 2 ^ 16
      /\ Forall (fun b => 0 <= b < 2 ^ 8) (bytes_of_int16 v))
  /\ ToInt16 (times32768 NaN) = 0
  /\ (forall negative : bool, ToInt16 (times32768 (Infinity negative)) = 0)
  /\ (forall inputData : list number,
        floatToPCM16 inputData
        = inputData ≫= (fun s => bytes_of_int16 (ToInt16 (times32768 s))))
  /\ (exists m e : Z,
        ~ (-1 <= value m e <= 1)%Q
        /\ Qtruncate (value m e * 32768) = 49152
        /\ ToInt16 (times32768 (Dyadic m e)) = 49152 - 2 ^ 16
        /\ ToInt16 (times32768 (Dyadic m e))
           <> saturate16 (Qtruncate (value m e * 32768))
        /\ floatToPCM16 [Dyadic m e] = [0; 192]).
Proof.
  split; [|split; [|split; [|split]]].
  - intros m e v. subst v. split; [apply ToInt16_range|].
    split; [|apply bytes_of_int16_le].
    cbn [times32768]. rewrite ToInt16_congruent, truncate_scaled. reflexivity.
  - reflexivity.
  - reflexivity.
  - apply floatToPCM16_bind.
  - exists 3, (-1). repeat split; try (vm_compute; congruence).
    intros [_ Hle]. vm_compute in Hle. apply Hle. reflexivity.
Qed.

End PCMFacts.

(** ** The transcript of the audio transcriber *)
Module TranscriptFacts.
Import AudioTranscriber.

Lemma lookup_last_snoc {A} (init : list A) (t : A) :
  (init ++ [t]) !! pred (length (init ++ [t])) = Some t.
Proof.
  rewrite length_app, Nat.add_1_r. cbn [pred].
  rewrite lookup_app_r by lia. by rewrite Nat.sub_diag.
Qed.

Lemma insert_last_snoc {A} (init : list A) (t t' : A) :
  <[pred (length (init ++ [t])) := t']> (init ++ [t]) = init ++ [t'].
Proof.
  rewrite length_app, Nat.add_1_r. cbn [pred].
  rewrite insert_app_r_alt by lia. by rewrite Nat.sub_diag.
Qed.

Lemma appendTranscription_snoc who tr init t :
  appendTranscription who tr (init ++ [t])
  = if bool_decide (speaker t = who) && negb (isFinal t)
    then init ++ [mkTurn (speaker t) (text t +:+ tr) false]
    else init ++ [t; mkTurn who tr false].
Proof.
  unfold appendTranscription. rewrite lookup_last_snoc.
  destruct (bool_decide (speaker t = who) && negb (isFinal t)) eqn:E.
  - rewrite insert_last_snoc. apply andb_true_iff in E as [_ E].
    apply negb_true_iff in E. by rewrite E.
  - by rewrite <- app_assoc.
Qed.

Lemma appendTranscription_nil who tr :
  appendTranscription who tr [] = [mkTurn who tr false].
Proof. reflexivity. Qed.

(** *** Turn objects and turn values *)

Lemma readTurns_app heap c1 c2 :
  readTurns heap (c1 ++ c2) = readTurns heap c1 ++ readTurns heap c2.
Proof. apply omap_app. Qed.

Lemma readTurns_grow heap extra conv :
  Forall (fun a => (a < length heap)%nat) conv ->
  readTurns (heap ++ extra) conv = readTurns heap conv.
Proof.
  unfold readTurns. induction 1 as [|a conv Ha _ IH]; [done|].
  cbn. rewrite lookup_app_l by exact Ha. by rewrite IH.
Qed.

Lemma readTurns_insert_other heap a t conv :
  a ∉ conv -> readTurns (<[a:=t]> heap) conv = readTurns heap conv.
Proof.
  unfold readTurns. induction conv as [|b conv IH]; intros Hnot; [done|].
  apply not_elem_of_cons in Hnot as [Hne Hnot].
  cbn. rewrite list_lookup_insert_ne by done. by rewrite IH.
Qed.

Lemma readTurns_fresh heap copies :
  readTurns (heap ++ copies) (seq (length heap) (length copies)) = copies.
Proof.
  unfold readTurns.
  revert heap. induction copies as [|t copies IH]; intros heap; [done|].
  cbn [length seq omap list_omap].
  rewrite lookup_app_r, Nat.sub_diag by lia. cbn.
  f_equal. specialize (IH (heap ++ [t])).
  rewrite length_app, Nat.add_1_r, <- app_assoc in IH. exact IH.
Qed.

Lemma readTurns_length heap conv :
  Forall (fun a => (a < length heap)%nat) conv ->
  length (readTurns heap conv) = length conv.
Proof.
  unfold readTurns. induction 1 as [|a conv Ha _ IH]; [done|].
  cbn. destruct (lookup_lt_is_Some_2 heap a Ha) as [t Ht].
  rewrite Ht. cbn. by rewrite IH.
Qed.

(** The updaters on objects give the conversation the updaters on values
    give, and keep the addresses distinct and allocated; the write into the
    shared object is seen through the old array as well. *)
Lemma appendTranscriptionRef_refines who tr heap prev :
  wellFormed heap prev ->
  let '(heap', conv') := appendTranscriptionRef who tr heap prev in
  readTurns heap' conv' = appendTranscription who tr (readTurns heap prev)
  /\ wellFormed heap' conv'
  /\ (conv' = prev -> readTurns heap' prev
                      = appendTranscription who tr (readTurns heap prev)).
Proof.
  intros [Hnd Hlt]. unfold appendTranscriptionRef.
  assert (Hpush :
    let heap' := heap ++ [mkTurn who tr false] in
    let conv' := prev ++ [length heap] in
    readTurns heap' conv' = readTurns heap prev ++ [mkTurn who tr false]
    /\ wellFormed heap' conv').
  { cbv zeta. split.
    - rewrite readTurns_app, readTurns_grow by exact Hlt. cbn.
      by rewrite lookup_app_r, Nat.sub_diag by lia.
    - split.
      + apply NoDup_app. split; [exact Hnd|]. split; [|apply NoDup_singleton].
        intros a Ha Hin. apply list_elem_of_singleton in Hin. subst a.
        rewrite Forall_forall in Hlt. specialize (Hlt _ Ha). lia.
      + apply Forall_app. split.
        * eapply Forall_impl; [exact Hlt|]. intros a Ha. cbn in Ha.
          rewrite length_app. cbn. lia.
        * repeat constructor. rewrite length_app. cbn. lia. }
  cbv zeta in Hpush. destruct Hpush as [Hread Hwf].
  destruct prev as [|a init _] using rev_ind.
  { cbn. split; [exact Hread|]. split; [exact Hwf|]. discriminate. }
  rewrite lookup_last_snoc.
  apply NoDup_app in Hnd as (Hnd & Hnot & _).
  apply Forall_app in Hlt as [Hlt Ha]. rewrite Forall_singleton in Ha.
  destruct (lookup_lt_is_Some_2 heap a Ha) as [t Ht]. rewrite Ht.
  assert (Hval : readTurns heap (init ++ [a]) = readTurns heap init ++ [t])
    by (rewrite readTurns_app; cbn; by rewrite Ht).
  rewrite Hval, appendTranscription_snoc.
  destruct (bool_decide (speaker t = who) && negb (isFinal t)) eqn:E.
  - assert (Hnew : readTurns
                     (<[a:=mkTurn (speaker t) (text t +:+ tr) (isFinal t)]> heap)
                     (init ++ [a])
                   = readTurns heap init ++ [mkTurn (speaker t) (text t +:+ tr) false]).
    { rewrite readTurns_app, readTurns_insert_other.
      - cbn. rewrite list_lookup_insert_eq by exact Ha. cbn.
        apply andb_true_iff in E as [_ E]. apply negb_true_iff in E.
        by rewrite E.
      - intros Hin. apply (Hnot a Hin). by apply list_elem_of_singleton. }
    split; [exact Hnew|]. split; [|intros _; exact Hnew].
    split.
    + apply NoDup_app. split; [exact Hnd|]. split; [exact Hnot|apply NoDup_singleton].
    + rewrite length_insert. apply Forall_app. split; [exact Hlt|].
      by apply Forall_singleton.
  - rewrite Hval in Hread. rewrite Hread, <- app_assoc.
    split; [reflexivity|]. split; [exact Hwf|].
    intros Heq. apply (f_equal length) in Heq.
    rewrite !length_app in Heq. cbn in Heq. lia.
Qed.

Lemma finalizeTurnsRef_refines heap prev :
  wellFormed heap prev ->
  let '(heap', conv') := finalizeTurnsRef heap prev in
  readTurns heap' conv' = finalizeTurns (readTurns heap prev)
  /\ wellFormed heap' conv'
  /\ readTurns heap' prev = readTurns heap prev.
Proof.
  intros [Hnd Hlt]. unfold finalizeTurnsRef. cbv zeta.
  split; [apply readTurns_fresh|]. split; [|by apply readTurns_grow].
  split; [apply NoDup_seq|].
  apply Forall_forall. intros a Ha. apply elem_of_seq in Ha.
  rewrite length_app. lia.
Qed.

Lemma onmessage_tail_conversation m s :
  conversation (ui (onmessage_tail m s))
  = if turnComplete m then finalizeTurns (conversation (ui s))
    else conversation (ui s).
Proof.
  unfold onmessage_tail. destruct (interrupted m), (turnComplete m); reflexivity.
Qed.

Section WithUtils.
Context `{AudioUtils}.

Lemma onTranscription_frame m s :
  refs (onTranscription m s) = refs s
  /\ browser (onTranscription m s) = browser s
  /\ awaiting (onTranscription m s) = awaiting s
  /\ conversation (ui (onTranscription m s))
     = match transcriptionOf m with
       | Some (who, transcription) =>
           appendTranscription who transcription (conversation (ui s))
       | None => conversation (ui s)
       end.
Proof.
  unfold onTranscription. destruct (transcriptionOf m) as [[? ?]|]; done.
Qed.

Lemma onmessage_tail_awaiting m s :
  awaiting (onmessage_tail m s) = awaiting s.
Proof.
  unfold onmessage_tail. destruct (interrupted m), (turnComplete m); done.
Qed.

(** A delivery that resumes at once, in one piece. *)
Lemma transcriber_onmessage_eq m now s :
  onmessage m now s
  = let s := onTranscription m s in
    match audioToPlay m (refs s) with
    | Some (base64Audio, ctx) =>
        let '(r, b) :=
          Scheduler.playBuffer (decodeAudioData (decode base64Audio) 24000 1)
            (Scheduler.clampClock now (refs s), browser s) in
        onmessage_tail m (mkState (ui s) r b (awaiting s))
    | None => onmessage_tail m s
    end.
Proof.
  unfold onmessage, onmessage_begin. cbv zeta.
  destruct (onTranscription_frame m s) as (_ & _ & Ha & _). rewrite <- Ha. clear Ha.
  generalize (onTranscription m s). intros s1.
  destruct (audioToPlay m (refs s1)) as [[base64Audio ctx]|].
  - unfold onmessage_resume. simpl.
    rewrite lookup_app_r, Nat.sub_diag by lia. simpl.
    by rewrite (delete_middle (awaiting s1) []), app_nil_r.
  - unfold onmessage_resume.
    by rewrite onmessage_tail_awaiting, lookup_ge_None_2 by lia.
Qed.

Lemma onmessage_conversation m now s :
  conversation (ui (onmessage m now s)) = transcribe m (conversation (ui s)).
Proof.
  unfold onmessage, onmessage_begin, transcribe.
  destruct (onTranscription_frame m s) as (Hr & _ & Ha & Hc).
  rewrite <- Hc. clear Hc. generalize dependent (onTranscription m s).
  intros s1 Hr Ha.
  destruct (audioToPlay m (refs s1)) as [[base64Audio ctx]|].
  - unfold onmessage_resume. simpl.
    rewrite Ha, lookup_app_r, Nat.sub_diag by lia. simpl.
    by rewrite onmessage_tail_conversation.
  - unfold onmessage_resume.
    rewrite onmessage_tail_awaiting, Ha, lookup_ge_None_2 by lia.
    apply onmessage_tail_conversation.
Qed.

Lemma deliver_conversation ms s :
  conversation (ui (deliver ms s))
  = foldl (fun conv mt => transcribe mt.1 conv) (conversation (ui s)) ms.
Proof.
  unfold deliver. revert s. induction ms as [|[m now] ms IH]; intros s; [done|].
  cbn [foldl]. rewrite IH. cbn [fst snd]. by rewrite onmessage_conversation.
Qed.

Lemma startSession_conversation microphone s :
  conversation (ui (onopen (startSession microphone s))) = [].
Proof.
  unfold onopen, startSession. destruct microphone as [stream|]; cbn.
  - reflexivity.
  - reflexivity.
Qed.

End WithUtils.

Lemma finalizeTurns_final conv :
  Forall (fun t => isFinal t = true) (finalizeTurns conv)
  /\ speaker <$> finalizeTurns conv = speaker <$> conv
  /\ text <$> finalizeTurns conv = text <$> conv.
Proof.
  unfold finalizeTurns. repeat split.
  - apply Forall_fmap, Forall_true. done.
  - rewrite <- list_fmap_compose. done.
  - rewrite <- list_fmap_compose. done.
Qed.

(** C1. A fragment is appended to the trailing turn when that turn has the
    fragment's speaker and is not final, and starts a new non-final turn
    otherwise. A message files the text of its input transcription under
    the user, or else the text of its output transcription under the
    model, and then, when it signals turn completion, marks every turn
    final; so a fragment of either speaker, and any sequence of them, has
    exactly that effect. The fragments Hel, lo and the empty text with
    turn completion, all of the user, give one final turn Hello. *)
Theorem transcript_assembly `{AudioUtils} :
  (forall who tr init t,
      appendTranscription who tr (init ++ [t])
      = if bool_decide (speaker t = who) && negb (isFinal t)
        then init ++ [mkTurn (speaker t) (text t +:+ tr) false]
        else init ++ [t; mkTurn who tr false])
  /\ (forall who tr, appendTranscription who tr [] = [mkTurn who tr false])
  /\ (forall m now s,
        conversation (ui (onmessage m now s))
        = let conv := match inputTranscription m, outputTranscription m with
                      | Some tr, _ =>
                          appendTranscription user tr (conversation (ui s))
                      | None, Some tr =>
                          appendTranscription model tr (conversation (ui s))
                      | None, None => conversation (ui s)
                      end in
          if turnComplete m then finalizeTurns conv else conv)
  /\ (forall who tr complete now s,
        conversation (ui (onmessage (fragmentMessage (who, tr, complete)) now s))
        = let conv := appendTranscription who tr (conversation (ui s)) in
          if complete then finalizeTurns conv else conv)
  /\ (forall (fragments : list (Speaker * string * bool * Q)) s,
        conversation
          (ui (deliver ((fun f : Speaker * string * bool * Q =>
                           (fragmentMessage f.1, f.2)) <$> fragments) s))
        = foldl (fun conv (f : Speaker * string * bool * Q) =>
                   let conv := appendTranscription f.1.1.1 f.1.1.2 conv in
                   if f.1.2 then finalizeTurns conv else conv)
                (conversation (ui s)) fragments)
  /\ (forall conv,
        Forall (fun t => isFinal t = true) (finalizeTurns conv)
        /\ speaker <$> finalizeTurns conv = speaker <$> conv
        /\ text <$> finalizeTurns conv = text <$> conv)
  /\ (forall microphone s now1 now2 now3,
        conversation
          (ui (deliver [ (fragmentMessage (user, "Hel", false), now1);
                         (fragmentMessage (user, "lo", false), now2);
                         (fragmentMessage (user, EmptyString, true), now3) ]
                       (onopen (startSession microphone s))))
        = [mkTurn user "Hello" true]).
Proof.
  assert (Hfrag : forall who tr complete conv,
             transcribe (fragmentMessage (who, tr, complete)) conv
             = let conv := appendTranscription who tr conv in
               if complete then finalizeTurns conv else conv)
    by (intros [|] tr complete conv; reflexivity).
  split; [exact appendTranscription_snoc|].
  split; [exact appendTranscription_nil|].
  split.
  { intros m now s. rewrite onmessage_conversation.
    unfold transcribe, transcriptionOf.
    by destruct (inputTranscription m), (outputTranscription m). }
  split.
  { intros who tr complete now s. by rewrite onmessage_conversation, Hfrag. }
  split.
  { intros fragments s. rewrite deliver_conversation.
    generalize (conversation (ui s)).
    induction fragments as [|[[[who tr] complete] now] fragments IH];
      intros conv; [reflexivity|].
    cbn [fmap list_fmap foldl fst snd]. rewrite Hfrag. by apply IH. }
  split; [exact finalizeTurns_final|].
  intros. rewrite deliver_conversation, startSession_conversation. reflexivity.
Qed.

(** *** The shape of the conversation *)

Lemma adjacentOk_snoc init t u :
  adjacentOk (init ++ [t; u])
  <-> adjacentOk (init ++ [t]) /\ (speaker t <> speaker u \/ isFinal t = true).
Proof.
  induction init as [|a init IH]; [cbn; tauto|].
  change (adjacentOk ((a :: init) ++ [t; u]))
    with (match init ++ [t; u] with
          | t2 :: _ => speaker a <> speaker t2 \/ isFinal a = true
          | [] => True
          end /\ adjacentOk (init ++ [t; u])).
  change (adjacentOk ((a :: init) ++ [t]))
    with (match init ++ [t] with
          | t2 :: _ => speaker a <> speaker t2 \/ isFinal a = true
          | [] => True
          end /\ adjacentOk (init ++ [t])).
  rewrite IH. destruct init; cbn; tauto.
Qed.

Lemma adjacentOk_last init t t' :
  speaker t' = speaker t -> adjacentOk (init ++ [t]) -> adjacentOk (init ++ [t']).
Proof.
  intros Hs. induction init as [|a init IH]; [cbn; tauto|].
  cbn [app adjacentOk]. intros [Ha Hrest]. split; [|auto].
  destruct init; cbn in *; [rewrite Hs|]; exact Ha.
Qed.

Lemma adjacentOk_append who tr conv :
  adjacentOk conv -> adjacentOk (appendTranscription who tr conv).
Proof.
  destruct conv as [|t init _] using rev_ind; [cbn; tauto|].
  rewrite appendTranscription_snoc. intros Hok.
  destruct (bool_decide (speaker t = who) && negb (isFinal t)) eqn:E.
  - eapply adjacentOk_last; [|exact Hok]. reflexivity.
  - apply adjacentOk_snoc. split; [exact Hok|].
    cbn [speaker isFinal].
    apply andb_false_iff in E as [E|E].
    + left. by apply bool_decide_eq_false in E.
    + right. by apply negb_false_iff in E.
Qed.

Lemma adjacentOk_finalize conv : adjacentOk (finalizeTurns conv).
Proof.
  induction conv as [|t conv IH]; [exact I|].
  cbn. split; [|exact IH]. destruct conv; cbn; auto.
Qed.

Lemma adjacentOk_transcribe m conv :
  adjacentOk conv -> adjacentOk (transcribe m conv).
Proof.
  intros Hok. unfold transcribe.
  destruct (turnComplete m); [apply adjacentOk_finalize|].
  destruct (transcriptionOf m) as [[who tr]|]; [|exact Hok].
  by apply adjacentOk_append.
Qed.

Lemma adjacentOk_lookup conv i t1 t2 :
  adjacentOk conv -> conv !! i = Some t1 -> conv !! S i = Some t2 ->
  speaker t1 <> speaker t2 \/ isFinal t1 = true.
Proof.
  revert i. induction conv as [|a conv IH]; intros i Hok H1 H2; [done|].
  destruct Hok as [Ha Hrest]. destruct i as [|i].
  - cbn in H1, H2. destruct conv as [|b conv]; [done|].
    cbn in H2. by simplify_eq.
  - cbn in H1. change ((a :: conv) !! S (S i)) with (conv !! S i) in H2. eauto.
Qed.

Section Shape.
Context `{AudioUtils}.

Lemma step_adjacentOk s e :
  adjacentOk (conversation (ui s)) -> adjacentOk (conversation (ui (step s e))).
Proof.
  intros Hok. destruct e as [m now|k|source]; cbn [step].
  - unfold onmessage_begin.
    destruct (onTranscription_frame m s) as (_ & _ & _ & Hc).
    assert (Hok1 : adjacentOk (conversation (ui (onTranscription m s)))).
    { rewrite Hc. destruct (transcriptionOf m) as [[who tr]|]; [|exact Hok].
      by apply adjacentOk_append. }
    clear Hc. generalize dependent (onTranscription m s). intros s1 Hok1.
    destruct (audioToPlay m (refs s1)) as [[base64Audio ctx]|]; [exact Hok1|].
    rewrite onmessage_tail_conversation.
    destruct (turnComplete m); [apply adjacentOk_finalize|exact Hok1].
  - unfold onmessage_resume. destruct (awaiting s !! k) as [a|]; [|exact Hok].
    destruct (Scheduler.playBuffer _ _) as [r b].
    rewrite onmessage_tail_conversation. cbn [ui].
    destruct (turnComplete _); [apply adjacentOk_finalize|exact Hok].
  - exact Hok.
Qed.

Lemma steps_adjacentOk es s :
  adjacentOk (conversation (ui s)) -> adjacentOk (conversation (ui (steps es s))).
Proof.
  unfold steps. revert s. induction es as [|e es IH]; intros s Hok; [exact Hok|].
  cbn [foldl]. apply IH, step_adjacentOk, Hok.
Qed.

(** C9. In a session of the audio transcriber, whatever messages arrive,
    whenever their suspended handlers resume and whichever sources end,
    two adjacent turns of the conversation differ in speaker or the
    earlier one is final. *)
Theorem adjacent_turns_differ_or_final microphone s0 es i t1 t2 :
  let s := steps es (onopen (startSession microphone s0)) in
  conversation (ui s) !! i = Some t1 ->
  conversation (ui s) !! S i = Some t2 ->
  speaker t1 <> speaker t2 \/ isFinal t1 = true.
Proof.
  intros s. apply adjacentOk_lookup. subst s.
  apply steps_adjacentOk. by rewrite startSession_conversation.
Qed.

End Shape.

Lemma adjacent_turns_witness :
  let s := steps (H:=exampleAudioUtils) (firstEvents ++ nextEvents)
             (onopen (startSession (Some [0%nat]) (initialState ∅))) in
  conversation (ui s) !! 0%nat = Some (mkTurn user "Hi" true)
  /\ conversation (ui s) !! 1%nat = Some (mkTurn user "there" false)
  /\ (speaker (mkTurn user "Hi" true) <> speaker (mkTurn user "there" false)
      \/ isFinal (mkTurn user "Hi" true) = true).
Proof.
  cbv zeta. split; [reflexivity|]. split; [reflexivity|].
  apply (adjacent_turns_differ_or_final (H:=exampleAudioUtils)
           (Some [0%nat]) (initialState ∅) (firstEvents ++ nextEvents) 0);
    reflexivity.
Defined.

End TranscriptFacts.

(** ** Rounding to binary64 *)
Module Binary64Facts.
Import Binary64.

Lemma spacing_nonneg f : 0 <= spacing f.
Proof. unfold spacing. lia. Qed.

Lemma spacing_mono f1 f2 : 0 <= f1 <= f2 -> spacing f1 <= spacing f2.
Proof.
  intros Hf. unfold spacing. pose proof (Z.log2_le_mono f1 f2 ltac:(lia)). lia.
Qed.

(** The two neighbours of a rounded value. *)
Lemma roundAt_between j p q :
  0 <= j -> 0 <= p -> 0 < q ->
  p / (q * 2 ^ j) * 2 ^ j <= roundAt j p q <= (p / (q * 2 ^ j) + 1) * 2 ^ j.
Proof.
  intros Hj Hp Hq. unfold roundAt. cbv zeta.
  assert (H2 : 0 < 2 ^ j) by (apply Z.pow_pos_nonneg; lia).
  repeat case_match; nia.
Qed.

Lemma roundAt_mono j p1 q1 p2 q2 :
  0 <= j -> 0 <= p1 -> 0 < q1 -> 0 < q2 -> p1 * q2 <= p2 * q1 ->
  roundAt j p1 q1 <= roundAt j p2 q2.
Proof.
  intros Hj Hp1 Hq1 Hq2 Hle. unfold roundAt. cbv zeta.
  assert (H2 : 0 < 2 ^ j) by (apply Z.pow_pos_nonneg; lia).
  set (g1 := q1 * 2 ^ j). set (g2 := q2 * 2 ^ j).
  assert (Hg1 : 0 < g1) by (subst g1; nia).
  assert (Hg2 : 0 < g2) by (subst g2; nia).
  assert (Hle' : p1 * g2 <= p2 * g1) by (subst g1 g2; nia).
  pose proof (Z.div_mod p1 g1 ltac:(lia)) as E1.
  pose proof (Z.div_mod p2 g2 ltac:(lia)) as E2.
  pose proof (Z.mod_pos_bound p1 g1 Hg1) as B1.
  pose proof (Z.mod_pos_bound p2 g2 Hg2) as B2.
  set (m1 := p1 / g1) in *. set (m2 := p2 / g2) in *.
  set (r1 := p1 mod g1) in *. set (r2 := p2 mod g2) in *.
  assert (Hm : m1 <= m2).
  { destruct (Z_le_gt_dec m1 m2) as [|Hgt]; [done|]. exfalso.
    assert (Hm1 : m2 + 1 <= m1) by lia.
    assert (A1 : g1 * (m2 + 1) <= p1) by nia.
    assert (A2 : p2 < g2 * (m2 + 1)) by nia.
    assert (A3 : g1 * (m2 + 1) * g2 <= p1 * g2) by (apply Z.mul_le_mono_nonneg_r; lia).
    assert (A4 : p2 * g1 < g2 * (m2 + 1) * g1) by (apply Z.mul_lt_mono_pos_r; lia).
    nia. }
  apply Z.mul_le_mono_nonneg_r; [lia|].
  destruct (Z_lt_le_dec m1 m2) as [Hlt|Hge].
  - repeat case_match; lia.
  - assert (Hmm : m1 = m2) by lia.
    assert (Hr : r1 * g2 <= r2 * g1) by nia.
    rewrite Hmm.
    destruct (Z.ltb_spec (2 * r1) g1), (Z.ltb_spec g1 (2 * r1)),
             (Z.ltb_spec (2 * r2) g2), (Z.ltb_spec g2 (2 * r2));
      try lia; try (destruct (Z.even m2); lia); try (exfalso; nia).
Qed.

Lemma pow2_positive n : 0 <= n -> 0 < 2 ^ n.
Proof. intros. apply Z.pow_pos_nonneg; lia. Qed.

Lemma div_div_pow p q j :
  0 < q -> 0 <= j -> p / (q * 2 ^ j) = p / q / 2 ^ j.
Proof.
  intros Hq Hj. rewrite Z.div_div; [done|lia|apply pow2_positive; lia].
Qed.

(** A positive number of units lies in the binade its spacing names. *)
Lemma spacing_binade f :
  0 < spacing f -> 2 ^ (52 + spacing f) <= f < 2 ^ (53 + spacing f).
Proof.
  unfold spacing. intros Hs.
  assert (Hl : 52 < Z.log2 f) by lia.
  assert (Hf : 0 < f).
  { destruct (Z_lt_le_dec 0 f); [done|]. rewrite Z.log2_nonpos in Hl by lia. lia. }
  pose proof (Z.log2_spec f Hf) as [H1 H2].
  replace (Z.max 0 (Z.log2 f - 52)) with (Z.log2 f - 52) by lia.
  replace (52 + (Z.log2 f - 52)) with (Z.log2 f) by lia.
  replace (53 + (Z.log2 f - 52)) with (Z.succ (Z.log2 f)) by lia. done.
Qed.

Lemma spacing_zero f : 0 <= f -> spacing f = 0 -> f < 2 ^ 53.
Proof.
  unfold spacing. intros Hf Hs.
  destruct (Z_le_lt_eq_dec 0 f Hf) as [Hpos| <-]; [|done].
  pose proof (Z.log2_spec f Hpos) as [_ H2].
  eapply Z.lt_le_trans; [exact H2|]. apply Z.pow_le_mono_r; lia.
Qed.

Lemma spacing_of_binade f j :
  0 <= j -> 2 ^ (52 + j) <= f < 2 ^ (53 + j) -> spacing f = j.
Proof.
  intros Hj Hf. unfold spacing.
  rewrite (Z.log2_unique f (52 + j)); [lia|lia|].
  replace (Z.succ (52 + j)) with (53 + j) by lia. done.
Qed.

Lemma roundUnits_nonneg p q : 0 <= p -> 0 < q -> 0 <= roundUnits p q.
Proof.
  intros Hp Hq. unfold roundUnits.
  pose proof (spacing_nonneg (p / q)) as Hj.
  pose proof (roundAt_between _ p q Hj Hp Hq) as [Hlo _].
  pose proof (pow2_positive _ Hj).
  assert (0 <= p / (q * 2 ^ spacing (p / q))) by (apply Z.div_pos; nia).
  nia.
Qed.

(** The rounded value stays in the closed binade of its argument. *)
Lemma roundUnits_binade p q :
  0 <= p -> 0 < q -> 0 < spacing (p / q) ->
  2 ^ (52 + spacing (p / q)) <= roundUnits p q <= 2 ^ (53 + spacing (p / q)).
Proof.
  intros Hp Hq Hs. unfold roundUnits.
  set (j := spacing (p / q)) in *.
  assert (Hj : 0 <= j) by lia.
  pose proof (roundAt_between j p q Hj Hp Hq) as [Hlo Hhi].
  pose proof (spacing_binade (p / q) Hs) as [B1 B2]. fold j in B1, B2.
  rewrite div_div_pow in Hlo, Hhi by lia.
  pose proof (pow2_positive j Hj) as H2.
  rewrite Z.pow_add_r in B1, B2 by lia. rewrite !Z.pow_add_r by lia.
  assert (M1 : 2 ^ 52 <= p / q / 2 ^ j) by (apply Z.div_le_lower_bound; lia).
  assert (M2 : p / q / 2 ^ j < 2 ^ 53) by (apply Z.div_lt_upper_bound; lia).
  split; nia.
Qed.

Lemma roundUnits_small p q :
  0 <= p -> 0 < q -> spacing (p / q) = 0 -> 0 <= roundUnits p q <= 2 ^ 53.
Proof.
  intros Hp Hq Hs. split; [by apply roundUnits_nonneg|].
  unfold roundUnits. rewrite Hs.
  pose proof (roundAt_between 0 p q ltac:(lia) Hp Hq) as [_ Hhi].
  rewrite div_div_pow in Hhi by lia. change (2 ^ 0) with 1 in Hhi.
  rewrite Z.div_1_r, Z.mul_1_r in Hhi.
  assert (0 <= p / q) by (apply Z.div_pos; lia).
  pose proof (spacing_zero (p / q) ltac:(lia) Hs). lia.
Qed.

Lemma roundUnits_mono p1 q1 p2 q2 :
  0 <= p1 -> 0 < q1 -> 0 < q2 -> p1 * q2 <= p2 * q1 ->
  roundUnits p1 q1 <= roundUnits p2 q2.
Proof.
  intros Hp1 Hq1 Hq2 Hle.
  assert (Hp2 : 0 <= p2) by nia.
  assert (Hf1 : 0 <= p1 / q1) by (apply Z.div_pos; lia).
  assert (Hf : p1 / q1 <= p2 / q2).
  { apply Z.div_le_lower_bound; [lia|].
    pose proof (Z.mul_div_le p1 q1 Hq1).
    assert (q2 * (p1 / q1) * q1 <= p2 * q1) by nia. nia. }
  pose proof (spacing_mono _ _ (conj Hf1 Hf)) as Hs.
  pose proof (spacing_nonneg (p1 / q1)) as Hj1.
  destruct (Z_le_lt_eq_dec _ _ Hs) as [Hlt|Heq].
  - (* a higher binade *)
    assert (Hs2 : 0 < spacing (p2 / q2)) by lia.
    pose proof (roundUnits_binade p2 q2 Hp2 Hq2 Hs2) as [Hlo _].
    eapply Z.le_trans; [|exact Hlo].
    destruct (Z_le_lt_eq_dec _ _ Hj1) as [Hpos|Hzero].
    + pose proof (roundUnits_binade p1 q1 Hp1 Hq1 Hpos) as [_ Hhi].
      eapply Z.le_trans; [exact Hhi|]. apply Z.pow_le_mono_r; lia.
    + pose proof (roundUnits_small p1 q1 Hp1 Hq1 (eq_sym Hzero)) as [_ Hhi].
      eapply Z.le_trans; [exact Hhi|]. apply Z.pow_le_mono_r; lia.
  - unfold roundUnits. rewrite <- Heq. by apply roundAt_mono.
Qed.

Lemma roundUnits_canonical p q :
  0 <= p -> 0 < q -> canonical (roundUnits p q).
Proof.
  intros Hp Hq. unfold canonical.
  pose proof (spacing_nonneg (p / q)) as Hj.
  destruct (Z_le_lt_eq_dec _ _ Hj) as [Hpos|Hzero].
  - pose proof (roundUnits_binade p q Hp Hq Hpos) as [Hlo Hhi].
    set (j := spacing (p / q)) in *.
    assert (Hmult : exists m', roundUnits p q = m' * 2 ^ j)
      by (unfold roundUnits, roundAt; fold j; eexists; reflexivity).
    destruct Hmult as [m' Hm'].
    destruct (Z_le_lt_eq_dec _ _ Hhi) as [Hlt|Heq].
    + rewrite (spacing_of_binade _ j) by lia. rewrite Hm'. apply Z.mod_mul.
      pose proof (pow2_positive j); lia.
    + rewrite Heq. rewrite (spacing_of_binade _ (j + 1)).
      * replace (53 + j) with (52 + (j + 1)) by lia.
        rewrite Z.pow_add_r by lia. apply Z.mod_mul.
        pose proof (pow2_positive (j + 1)); lia.
      * lia.
      * replace (52 + (j + 1)) with (53 + j) by lia. split; [lia|].
        apply Z.pow_lt_mono_r; lia.
  - pose proof (roundUnits_small p q Hp Hq (eq_sym Hzero)) as [Hlo Hhi].
    destruct (Z_le_lt_eq_dec _ _ Hhi) as [Hlt|Heq].
    + assert (Hs : spacing (roundUnits p q) = 0).
      { unfold spacing.
        destruct (Z_le_lt_eq_dec _ _ Hlo) as [Hp0|Hz]; [|by rewrite <- Hz].
        assert (Z.log2 (roundUnits p q) < 53)
          by (apply Z.log2_lt_pow2; lia). lia. }
      rewrite Hs. apply Z.mod_1_r.
    + rewrite Heq. reflexivity.
Qed.

Lemma roundUnits_fixed R d :
  0 <= R -> 0 < d -> canonical R -> roundUnits (R * d) d = R.
Proof.
  intros HR Hd Hc. unfold roundUnits, roundAt. cbv zeta.
  rewrite Z.div_mul by lia.
  set (j := spacing R) in *. unfold canonical in Hc. fold j in Hc.
  assert (Hj : 0 <= j) by apply spacing_nonneg.
  pose proof (pow2_positive j Hj) as H2.
  assert (HR' : R = R / 2 ^ j * 2 ^ j).
  { pose proof (Z.div_mod R (2 ^ j) ltac:(lia)). lia. }
  assert (Hdiv : R * d / (d * 2 ^ j) = R / 2 ^ j).
  { rewrite HR' at 1. replace (R / 2 ^ j * 2 ^ j * d) with (R / 2 ^ j * (d * 2 ^ j)) by ring.
    apply Z.div_mul. nia. }
  assert (Hmod : (R * d) mod (d * 2 ^ j) = 0).
  { rewrite HR' at 1. replace (R / 2 ^ j * 2 ^ j * d) with (R / 2 ^ j * (d * 2 ^ j)) by ring.
    apply Z.mod_mul. nia. }
  rewrite Hdiv, Hmod.
  assert (Hlt : (2 * 0 <? d * 2 ^ j) = true) by (apply Z.ltb_lt; nia).
  rewrite Hlt. lia.
Qed.

Lemma units_pos : Z.pos units = 2 ^ 1074.
Proof. reflexivity. Qed.

Lemma scaled_sign a D : 0 < D -> (0 <= a * D <-> 0 <= a).
Proof.
  intros HD. split; [|nia]. intros Ha.
  destruct (Z_lt_le_dec a 0) as [Hn|]; [|done].
  assert (a * D < 0) by (apply Z.mul_neg_pos; lia). lia.
Qed.

Lemma binary64_mono (x y : Q) : (x <= y)%Q -> (binary64 x <= binary64 y)%Q.
Proof.
  destruct x as [a b], y as [c d]. unfold Qle, binary64. cbn [Qnum Qden].
  intros Hle.
  assert (HD : 0 < 2 ^ 1074) by (apply pow2_positive; lia).
  set (D := 2 ^ 1074) in *.
  assert (Hu : 0 < Z.pos units) by lia.
  assert (Hscale : forall u v, u <= v -> u * D <= v * D)
    by (intros; apply Z.mul_le_mono_nonneg_r; lia).
  destruct (Z.leb_spec 0 (a * D)) as [Ha|Ha]; destruct (Z.leb_spec 0 (c * D)) as [Hc|Hc];
    cbn [Qnum Qden]; (apply Z.mul_le_mono_nonneg_r; [lia|]).
  - apply roundUnits_mono; [lia|lia|lia|].
    replace (a * D * Z.pos d) with (a * Z.pos d * D) by ring.
    replace (c * D * Z.pos b) with (c * Z.pos b * D) by ring.
    by apply Hscale.
  - exfalso. apply scaled_sign in Ha; [|done].
    assert (c < 0) by (rewrite Z.lt_nge, <- (scaled_sign c D HD); lia). nia.
  - pose proof (roundUnits_nonneg (- (a * D)) (Z.pos b) ltac:(lia) ltac:(lia)).
    pose proof (roundUnits_nonneg (c * D) (Z.pos d) ltac:(lia) ltac:(lia)). lia.
  - assert (roundUnits (- (c * D)) (Z.pos d) <= roundUnits (- (a * D)) (Z.pos b)).
    { apply roundUnits_mono; [lia|lia|lia|].
      replace (- (c * D) * Z.pos b) with (- (c * Z.pos b) * D) by ring.
      replace (- (a * D) * Z.pos d) with (- (a * Z.pos d) * D) by ring.
      apply Hscale. lia. }
    lia.
Qed.

Lemma binary64_idempotent (x : Q) : binary64 (binary64 x) = binary64 x.
Proof.
  assert (Hfix : forall R, 0 <= R -> canonical R ->
                   binary64 (R # units) = R # units
                   /\ binary64 ((- R) # units) = (- R) # units).
  { intros R HR Hc. unfold binary64. cbn [Qnum Qden].
    assert (HD : 0 < 2 ^ 1074) by (apply pow2_positive; lia).
    rewrite units_pos. set (D := 2 ^ 1074) in *. split.
    - destruct (Z.leb_spec 0 (R * D)); [|nia].
      by rewrite roundUnits_fixed.
    - destruct (Z.leb_spec 0 (- R * D)) as [Hn|Hn].
      + assert (R = 0) by (apply scaled_sign in Hn; lia). subst R.
        change (- 0) with 0. by rewrite (roundUnits_fixed 0 D).
      + replace (- (- R * D)) with (R * D) by ring.
        by rewrite roundUnits_fixed. }
  assert (Hout : exists R, 0 <= R /\ canonical R
                    /\ (binary64 x = R # units \/ binary64 x = (- R) # units)).
  { destruct x as [a b]. unfold binary64. cbn [Qnum Qden].
    destruct (Z.leb_spec 0 (a * 2 ^ 1074)) as [Ha|Ha].
    - exists (roundUnits (a * 2 ^ 1074) (Z.pos b)).
      split; [apply roundUnits_nonneg; lia|].
      split; [apply roundUnits_canonical; lia|by left].
    - exists (roundUnits (- (a * 2 ^ 1074)) (Z.pos b)).
      split; [apply roundUnits_nonneg; lia|].
      split; [apply roundUnits_canonical; lia|by right]. }
  destruct Hout as (R & HR & Hc & [-> | ->]); by apply Hfix.
Qed.

Lemma isDouble_binary64 (x : Q) : isDouble (binary64 x).
Proof. unfold isDouble. by rewrite binary64_idempotent. Qed.

Lemma isDouble_0 : isDouble 0.
Proof. vm_compute. reflexivity. Qed.

Lemma isDouble_Qmax (x y : Q) : isDouble x -> isDouble y -> isDouble (Qmax x y).
Proof.
  intros Hx Hy. unfold Qmax, GenericMinMax.gmax. by destruct (x ?= y)%Q.
Qed.

Lemma binary64_nonneg (x : Q) : (0 <= x)%Q -> (0 <= binary64 x)%Q.
Proof.
  intros Hx. apply binary64_mono in Hx.
  eapply Qle_trans; [|exact Hx]. vm_compute. discriminate.
Qed.

(** Adding what is not negative to a binary64 number never rounds below
    the number. *)
Lemma binary64_plus_le (x d : Q) :
  isDouble x -> (0 <= d)%Q -> (x <= binary64 (x + d))%Q.
Proof.
  intros Hx Hd. unfold isDouble in Hx. rewrite <- Hx at 1.
  apply binary64_mono. lra.
Qed.

End Binary64Facts.


(** ** The audio output scheduler *)
Module SchedulerFacts.
Import Scheduler.

Lemma duration_nonneg (buffer : AudioBuffer) : (0 <= duration buffer)%Q.
Proof.
  unfold duration. apply Binary64Facts.binary64_nonneg.
  unfold Qle. cbn. destruct (buf_length buffer); cbn; lia.
Qed.

Lemma duration_isDouble (buffer : AudioBuffer) :
  Binary64.isDouble (duration buffer).
Proof. apply Binary64Facts.isDouble_binary64. Qed.

Lemma segments_app (l1 l2 : list op) :
  segments (l1 ++ l2) = segments l1 ++ segments l2.
Proof.
  induction l1 as [|o l1 IH]; [reflexivity|].
  destruct o; cbn; rewrite ?IH; reflexivity.
Qed.

Lemma ForallOrdPairs_snoc {A} (R : A -> A -> Prop) (l : list A) (x : A) :
  ForallOrdPairs R l -> Forall (fun a => R a x) l -> ForallOrdPairs R (l ++ [x]).
Proof.
  induction 1 as [|a l Ha Hl IH]; intros Hx; cbn.
  - constructor; constructor.
  - apply Forall_cons_1 in Hx as [Hax Hx]. constructor; [|auto].
    apply Forall_app. split; [exact Ha|]. by constructor.
Qed.

Lemma ForallOrdPairs_impl {A} (R S : A -> A -> Prop) (l : list A) :
  (forall a b, R a b -> S a b) -> ForallOrdPairs R l -> ForallOrdPairs S l.
Proof.
  intros HRS. induction 1 as [|a l Ha Hl IH]; constructor; [|exact IH].
  eapply Forall_impl; [exact Ha|]. intros b. apply HRS.
Qed.

(** An instant that two segments share, the earlier of which is [before]
    the later, lies after the computed end of the earlier one and before
    its exact end. *)
Lemma before_shared a b x :
  before a b ->
  (start a <= x /\ x < finish a)%Q -> (start b <= x /\ x < finish b)%Q ->
  (computedFinish a <= x /\ x < finish a)%Q.
Proof.
  intros [_ Hab] [_ Hxa] [Hbx _]. split; [|exact Hxa].
  eapply Qle_trans; [exact Hab|exact Hbx].
Qed.

Lemma tidy_nil clock : tidy [] clock.
Proof. split; constructor. Qed.

Lemma tidy_later ops extra clock clock' :
  segments extra = [] -> (clock <= clock')%Q ->
  tidy ops clock -> tidy (ops ++ extra) clock'.
Proof.
  intros Hextra Hle [Hord Hfin]. unfold tidy.
  rewrite segments_app, Hextra, app_nil_r. split; [exact Hord|].
  eapply Forall_impl; [exact Hfin|]. intros g [Hs Hg].
  split; (eapply Qle_trans; [eassumption|exact Hle]).
Qed.

Lemma tidy_start ops h clock d :
  Binary64.isDouble clock -> (0 <= d)%Q -> tidy ops clock ->
  tidy (ops ++ [NodeConnect h; SourceStart h clock d])
       (Binary64.binary64 (clock + d)).
Proof.
  intros Hc Hd [Hord Hfin]. unfold tidy. rewrite segments_app. cbn [segments].
  pose proof (Binary64Facts.binary64_plus_le clock d Hc Hd) as Hle.
  split.
  - apply ForallOrdPairs_snoc; [exact Hord|exact Hfin].
  - apply Forall_app. split.
    + eapply Forall_impl; [exact Hfin|]. intros g [Hs Hg].
      split; (eapply Qle_trans; [eassumption|exact Hle]).
    + constructor; [|constructor]. split; [exact Hle|apply Qle_refl].
Qed.

Lemma clampClock_le now r :
  (nextStartTimeRef r <= nextStartTimeRef (clampClock now r))%Q.
Proof. cbn. apply Q.le_max_l. Qed.

Lemma playBuffer_spec buffer r b :
  let h := nextObject b in
  let s' := playBuffer buffer (r, b) in
  log s'.2 = log b ++ [NodeConnect h; SourceStart h (nextStartTimeRef r) (duration buffer)]
  /\ nextStartTimeRef s'.1
     = Binary64.binary64 (nextStartTimeRef r + duration buffer)%Q
  /\ audioSourcesRef s'.1 = {[h]} ∪ audioSourcesRef r
  /\ closedContexts s'.2 = closedContexts b
  /\ localStorage s'.2 = localStorage b
  /\ sessionPromiseRef s'.1 = sessionPromiseRef r.
Proof.
  cbn. rewrite <- app_assoc. done.
Qed.

Lemma playBuffer_le buffer r b :
  Binary64.isDouble (nextStartTimeRef r) ->
  (nextStartTimeRef r <= nextStartTimeRef (playBuffer buffer (r, b)).1)%Q.
Proof.
  intros Hc. destruct (playBuffer_spec buffer r b) as (_ & -> & _).
  apply Binary64Facts.binary64_plus_le; [exact Hc|apply duration_nonneg].
Qed.

Lemma clampClock_isDouble now r :
  Binary64.isDouble now -> Binary64.isDouble (nextStartTimeRef r) ->
  Binary64.isDouble (nextStartTimeRef (clampClock now r)).
Proof. intros Hn Hc. cbn. by apply Binary64Facts.isDouble_Qmax. Qed.

Lemma silent_refl b : silent b b.
Proof. exists []. by rewrite app_nil_r. Qed.

Lemma silent_trans b1 b2 b3 : silent b1 b2 -> silent b2 b3 -> silent b1 b3.
Proof.
  intros (e1 & H1 & S1) (e2 & H2 & S2). exists (e1 ++ e2).
  rewrite H2, H1, <- app_assoc, segments_app, S1, S2. done.
Qed.

Lemma silent_emits os b : segments os = [] -> silent b (emits os b).
Proof. intros Hos. by exists os. Qed.

Lemma silent_emit o b : segments [o] = [] -> silent b (emit o b).
Proof. intros Ho. by exists [o]. Qed.

Lemma segments_fmap_silent {A} (f : A -> op) (l : list A) :
  (forall x, segments [f x] = []) -> segments (f <$> l) = [].
Proof.
  intros Hf. induction l as [|x l IH]; [done|].
  change (f <$> x :: l) with ([f x] ++ (f <$> l)).
  by rewrite segments_app, Hf, IH.
Qed.

Lemma silent_allocate b : silent b (allocate b).2.
Proof. exists []. by rewrite app_nil_r. Qed.

Lemma silent_closeUnlessClosed ctx b : silent b (closeUnlessClosed ctx b).
Proof.
  unfold closeUnlessClosed. destruct ctx as [c|]; [|apply silent_refl].
  case_decide; [apply silent_refl|]. by exists [ContextClose c].
Qed.

Lemma silent_releaseResources r b : silent b (releaseResources r b).
Proof.
  unfold releaseResources.
  eapply silent_trans; [|apply silent_closeUnlessClosed].
  eapply silent_trans; [|apply silent_closeUnlessClosed].
  eapply silent_trans; [|unfold disconnectNode; destruct (mediaStreamSourceRef r);
                          [by apply silent_emit|apply silent_refl]].
  eapply silent_trans; [|unfold disconnectNode; destruct (scriptProcessorRef r);
                          [by apply silent_emit|apply silent_refl]].
  unfold stopTracks. destruct (mediaStreamRef r); [|apply silent_refl].
  apply silent_emits. by apply segments_fmap_silent.
Qed.

Lemma silent_openCapture r b : silent b (openCapture r b).2.
Proof. exists [NodeConnect (S (nextObject b)); NodeConnect (S (S (nextObject b)))].
  cbn. by rewrite <- app_assoc. Qed.

Lemma tidySince_refl b0 r :
  Binary64.isDouble (nextStartTimeRef r) -> tidySince b0 r b0.
Proof.
  intros Hc. exists []. rewrite app_nil_r.
  split; [done|]. split; [apply tidy_nil|exact Hc].
Qed.

Lemma tidySince_isDouble b0 r b :
  tidySince b0 r b -> Binary64.isDouble (nextStartTimeRef r).
Proof. by intros (new & _ & _ & Hc). Qed.

Lemma tidySince_silent b0 r r' b b' :
  silent b b' -> (nextStartTimeRef r <= nextStartTimeRef r')%Q ->
  Binary64.isDouble (nextStartTimeRef r') ->
  tidySince b0 r b -> tidySince b0 r' b'.
Proof.
  intros (extra & Hlog & Hseg) Hle Hc' (new & Hnew & Htidy & _).
  exists (new ++ extra). rewrite Hlog, Hnew, <- app_assoc. split; [done|].
  split; [by eapply tidy_later|exact Hc'].
Qed.

Lemma tidySince_play b0 buffer r b :
  tidySince b0 r b ->
  tidySince b0 (playBuffer buffer (r, b)).1 (playBuffer buffer (r, b)).2.
Proof.
  intros (new & Hnew & Htidy & Hc).
  destruct (playBuffer_spec buffer r b) as (Hlog & Hclock & _).
  eexists. rewrite Hlog, Hnew, <- app_assoc. split; [reflexivity|].
  rewrite Hclock.
  split; [|apply Binary64Facts.isDouble_binary64].
  apply tidy_start; [exact Hc|apply duration_nonneg|exact Htidy].
Qed.

Lemma tidySince_before b0 r b :
  tidySince b0 r b -> ForallOrdPairs before (segments (since b0 b)).
Proof.
  intros (new & Hnew & [Hord _] & _). unfold since.
  by rewrite Hnew, drop_app_length.
Qed.

End SchedulerFacts.

(** ** The scheduler inside the two sessions *)
Module TranscriberScheduling.
Import Scheduler SchedulerFacts AudioTranscriber.

Lemma onmessage_tail_quiet m s :
  interrupted m = false ->
  refs (onmessage_tail m s) = refs s /\ browser (onmessage_tail m s) = browser s.
Proof.
  intros Hq. unfold onmessage_tail. rewrite Hq. by destruct (turnComplete m).
Qed.

Section WithUtils.
Context `{AudioUtils}.

Lemma transcriber_step_tidy b0 s e :
  quietEvent e -> doubleTime e -> quietAwaiting s ->
  tidySince b0 (refs s) (browser s) ->
  quietAwaiting (step s e)
  /\ tidySince b0 (refs (step s e)) (browser (step s e))
  /\ (nextStartTimeRef (refs s) <= nextStartTimeRef (refs (step s e)))%Q.
Proof.
  intros He Hd Hq Ht. pose proof (tidySince_isDouble _ _ _ Ht) as Hc.
  destruct e as [m now|k|source]; cbn [step].
  - cbn in He, Hd. unfold onmessage_begin.
    destruct (TranscriptFacts.onTranscription_frame m s) as (Hr & Hb & Ha & _).
    unfold quietAwaiting in *. rewrite <- Ha in Hq. rewrite <- Hr, <- Hb in Ht.
    rewrite <- Hr in Hc. rewrite <- Hr. clear Hr Hb Ha.
    generalize dependent (onTranscription m s). intros s1 Hq Ht Hc.
    destruct (audioToPlay m (refs s1)) as [[base64Audio ctx]|].
    + cbn [awaiting refs browser]. split; [|split].
      * apply Forall_app. split; [exact Hq|]. by repeat constructor.
      * cbn. eapply tidySince_silent; [apply silent_refl| | |exact Ht].
        -- apply clampClock_le.
        -- by apply clampClock_isDouble.
      * apply clampClock_le.
    + destruct (onmessage_tail_quiet m s1 He) as [-> ->].
      rewrite TranscriptFacts.onmessage_tail_awaiting.
      split; [exact Hq|]. split; [exact Ht|apply Qle_refl].
  - unfold onmessage_resume. destruct (awaiting s !! k) as [a|] eqn:Hk.
    + assert (Ha : interrupted (aw_message a) = false)
        by (eapply (Forall_lookup_1 _ _ _ _ Hq); exact Hk).
      pose proof (tidySince_play b0 (aw_buffer a) _ _ Ht) as Hp.
      pose proof (playBuffer_le (aw_buffer a) (refs s) (browser s) Hc) as Hle.
      destruct (playBuffer (aw_buffer a) (refs s, browser s)) as [r b].
      destruct (onmessage_tail_quiet (aw_message a)
                  (mkState (ui s) r b (delete k (awaiting s))) Ha) as [-> ->].
      unfold quietAwaiting. rewrite TranscriptFacts.onmessage_tail_awaiting.
      cbn [awaiting refs browser]. split; [|split; [exact Hp|exact Hle]].
      unfold quietAwaiting in Hq. by apply Forall_delete.
    + split; [exact Hq|]. split; [exact Ht|apply Qle_refl].
  - split; [exact Hq|]. split; [exact Ht|apply Qle_refl].
Qed.

Lemma transcriber_steps_tidy b0 es s :
  Forall quietEvent es -> Forall doubleTime es -> quietAwaiting s ->
  tidySince b0 (refs s) (browser s) ->
  quietAwaiting (steps es s)
  /\ tidySince b0 (refs (steps es s)) (browser (steps es s))
  /\ (nextStartTimeRef (refs s) <= nextStartTimeRef (refs (steps es s)))%Q.
Proof.
  unfold steps. revert s. induction es as [|e es IH]; intros s Hes Hds Hq Ht.
  - split; [exact Hq|]. split; [exact Ht|apply Qle_refl].
  - apply Forall_cons_1 in Hes as [He Hes].
    apply Forall_cons_1 in Hds as [Hd Hds]. cbn [foldl].
    destruct (transcriber_step_tidy b0 s e He Hd Hq Ht) as (Hq1 & Ht1 & Hle1).
    destruct (IH _ Hes Hds Hq1 Ht1) as (Hq2 & Ht2 & Hle2).
    split; [exact Hq2|]. split; [exact Ht2|]. eapply Qle_trans; eassumption.
Qed.

End WithUtils.
End TranscriberScheduling.

Module DeepDiveScheduling.
Import Scheduler SchedulerFacts VideoProcessor.

Lemma handleDeepDiveSessionEnded_frame render s :
  silent (browser s) (browser (handleDeepDiveSessionEnded render s))
  /\ browser (handleDeepDiveSessionEnded render s)
     = releaseResources (refs s) (browser s)
  /\ refs (handleDeepDiveSessionEnded render s)
     = set_sessionPromiseRef None (refs s)
  /\ awaiting (handleDeepDiveSessionEnded render s) = awaiting s.
Proof.
  unfold handleDeepDiveSessionEnded. cbn.
  case_decide; cbn; (split; [apply silent_releaseResources|done]).
Qed.

Lemma stopDeepDive_frame render s :
  silent (browser s) (browser (stopDeepDive render s))
  /\ nextStartTimeRef (refs (stopDeepDive render s)) = nextStartTimeRef (refs s)
  /\ audioSourcesRef (refs (stopDeepDive render s)) = audioSourcesRef (refs s)
  /\ awaiting (stopDeepDive render s) = awaiting s.
Proof.
  unfold stopDeepDive. cbv zeta.
  destruct (handleDeepDiveSessionEnded_frame render s) as (Hs & _ & Hr & Ha).
  destruct (sessionPromiseRef (refs s)) as [session|];
    cbn [refs browser awaiting with_browser]; rewrite Hr, Ha.
  - split; [|done]. eapply silent_trans; [exact Hs|]. by apply silent_emit.
  - by split.
Qed.

Lemma onToolCall_frame render m s :
  silent (browser s) (browser (onToolCall render m s))
  /\ nextStartTimeRef (refs (onToolCall render m s)) = nextStartTimeRef (refs s)
  /\ audioSourcesRef (refs (onToolCall render m s)) = audioSourcesRef (refs s)
  /\ awaiting (onToolCall render m s) = awaiting s.
Proof.
  unfold onToolCall.
  destruct (functionCalls m) as [[|fc fcs]|].
  - cbn. split; [by apply silent_emit|done].
  - case_decide; [|cbn; split; [apply silent_refl|done]].
    destruct (fc_args fc) as [args|]; [|cbn; split; [apply silent_refl|done]].
    apply (stopDeepDive_frame render
             (with_ui (setDeepDiveStatus complete)
                (with_ui (setLearningReport (Some args)) s))).
  - cbn. split; [apply silent_refl|done].
Qed.

Section WithUtils.
Context `{AudioUtils}.

Lemma transcriptions_frame (m : LiveServerMessage) (s : State) :
  refs (onTranscriptions m s) = refs s
  /\ browser (onTranscriptions m s) = browser s
  /\ awaiting (onTranscriptions m s) = awaiting s.
Proof.
  unfold onTranscriptions.
  destruct (inputTranscription m), (outputTranscription m); done.
Qed.

(** A delivery that resumes at once, in one piece. *)
Lemma deepDive_onmessage_eq render m now s :
  onmessage render m now s
  = let s := onTranscriptions m s in
    match audioToPlay m (refs s) with
    | Some (base64Audio, ctx) =>
        let '(r, b) :=
          Scheduler.playBuffer (decodeAudioData (decode base64Audio) 24000 1)
            (Scheduler.clampClock now (refs s), browser s) in
        onToolCall render m (mkState (ui s) r b (awaiting s))
    | None => onToolCall render m s
    end.
Proof.
  unfold onmessage, onmessage_begin. cbv zeta.
  destruct (transcriptions_frame m s) as (_ & _ & Ha). rewrite <- Ha. clear Ha.
  generalize (onTranscriptions m s). intros s2.
  destruct (audioToPlay m (refs s2)) as [[base64Audio ctx]|].
  - unfold onmessage_resume. simpl.
    rewrite lookup_app_r, Nat.sub_diag by lia. simpl.
    by rewrite (delete_middle (awaiting s2) []), app_nil_r.
  - unfold onmessage_resume.
    destruct (onToolCall_frame render m s2) as (_ & _ & _ & ->).
    by rewrite lookup_ge_None_2 by lia.
Qed.

Lemma deepDive_step_tidy b0 render s e :
  doubleTime e -> tidySince b0 (refs s) (browser s) ->
  tidySince b0 (refs (step render s e)) (browser (step render s e))
  /\ (nextStartTimeRef (refs s) <= nextStartTimeRef (refs (step render s e)))%Q.
Proof.
  intros Hd Ht. pose proof (tidySince_isDouble _ _ _ Ht) as Hdc.
  destruct e as [|m now|k|source| |]; cbn [step].
  - unfold onopen. pose proof (silent_openCapture (refs s) (browser s)) as Hs.
    assert (Hc : nextStartTimeRef (openCapture (refs s) (browser s)).1
                 = nextStartTimeRef (refs s)) by reflexivity.
    destruct (openCapture (refs s) (browser s)) as [r b]. cbn in *.
    split; [|rewrite Hc; apply Qle_refl].
    eapply tidySince_silent; [exact Hs| | |exact Ht]; rewrite Hc;
      [apply Qle_refl|exact Hdc].
  - cbn in Hd. unfold onmessage_begin.
    destruct (transcriptions_frame m s) as (Hr & Hb & _).
    rewrite <- Hr, <- Hb in Ht. rewrite <- Hr in Hdc. rewrite <- Hr. clear Hr Hb.
    generalize dependent (onTranscriptions m s). intros s2 Ht Hdc.
    destruct (audioToPlay m (refs s2)) as [[base64Audio ctx]|].
    + cbn. split; [|apply clampClock_le].
      eapply tidySince_silent; [apply silent_refl| | |exact Ht].
      * apply clampClock_le.
      * by apply clampClock_isDouble.
    + destruct (onToolCall_frame render m s2) as (Hs & Hc & _).
      rewrite Hc. split; [|apply Qle_refl].
      eapply tidySince_silent; [exact Hs| | |exact Ht]; rewrite Hc;
        [apply Qle_refl|exact Hdc].
  - unfold onmessage_resume. destruct (awaiting s !! k) as [a|].
    + pose proof (tidySince_play b0 (aw_buffer a) _ _ Ht) as Hp.
      pose proof (playBuffer_le (aw_buffer a) (refs s) (browser s) Hdc) as Hle.
      pose proof (tidySince_isDouble _ _ _ Hp) as Hdp.
      destruct (playBuffer (aw_buffer a) (refs s, browser s)) as [r b].
      destruct (onToolCall_frame render (aw_message a)
                  (mkState (ui s) r b (delete k (awaiting s)))) as (Hs & Hc & _).
      cbn in Hs, Hc, Hp, Hle, Hdp. rewrite Hc. split; [|exact Hle].
      eapply tidySince_silent; [exact Hs| | |exact Hp]; rewrite Hc;
        [apply Qle_refl|exact Hdp].
    + split; [exact Ht|apply Qle_refl].
  - split; [exact Ht|apply Qle_refl].
  - unfold onerror.
    match goal with |- context [stopDeepDive render ?x] =>
      destruct (stopDeepDive_frame render x) as (Hs & Hc & _) end.
    cbn in Hs, Hc. rewrite Hc. split; [|apply Qle_refl].
    eapply tidySince_silent; [| | |exact Ht]; [|rewrite Hc; apply Qle_refl
                                               |rewrite Hc; exact Hdc].
    eapply silent_trans; [|exact Hs]. by apply silent_emit.
  - unfold onclose.
    destruct (handleDeepDiveSessionEnded_frame render s) as (Hs & _ & Hr & _).
    rewrite Hr. cbn. split; [|apply Qle_refl].
    eapply tidySince_silent; [exact Hs| | |exact Ht]; [apply Qle_refl|exact Hdc].
Qed.

Lemma deepDive_steps_tidy b0 render es s :
  Forall doubleTime es -> tidySince b0 (refs s) (browser s) ->
  tidySince b0 (refs (steps render es s)) (browser (steps render es s))
  /\ (nextStartTimeRef (refs s) <= nextStartTimeRef (refs (steps render es s)))%Q.
Proof.
  unfold steps. revert s. induction es as [|e es IH]; intros s Hds Ht.
  - split; [exact Ht|apply Qle_refl].
  - apply Forall_cons_1 in Hds as [Hd Hds]. cbn [foldl].
    destruct (deepDive_step_tidy b0 render s e Hd Ht) as (Ht1 & Hle1).
    destruct (IH _ Hds Ht1) as (Ht2 & Hle2).
    split; [exact Ht2|]. eapply Qle_trans; eassumption.
Qed.

End WithUtils.
End DeepDiveScheduling.

Module SchedulingClaims.
Import Scheduler SchedulerFacts.

(** C3, as the code has it. In both sessions, as long as no interruption
    is signalled and the clock and the times read from the context are
    binary64 numbers, the segments started since any given state are in
    order, whatever the order in which messages arrive, suspended handlers
    resume and sources end: a later segment starts no earlier than an
    earlier one and no earlier than the end the scheduler computed for
    it, the binary64 number nearest to the sum of its start and duration;
    so an instant two segments share lies between that number and the
    exact end of the earlier one. The clock [nextStartTimeRef] never
    decreases along the way. *)
Theorem scheduled_segments_follow_computed_ends `{AudioUtils}
    (sa : AudioTranscriber.State) (ea1 ea2 : list AudioTranscriber.event)
    (render : VideoProcessor.UI) (sv : VideoProcessor.State)
    (ev1 ev2 : list VideoProcessor.event) :
  AudioTranscriber.uninterrupted sa (ea1 ++ ea2) ->
  Binary64.isDouble (nextStartTimeRef (AudioTranscriber.refs sa)) ->
  Forall AudioTranscriber.doubleTime (ea1 ++ ea2) ->
  Binary64.isDouble (nextStartTimeRef (VideoProcessor.refs sv)) ->
  Forall VideoProcessor.doubleTime (ev1 ++ ev2) ->
  ForallOrdPairs (fun a b => before a b /\ sharedOnlyInRounding a b)
    (segments (since (AudioTranscriber.browser sa)
                 (AudioTranscriber.browser
                    (AudioTranscriber.steps (ea1 ++ ea2) sa))))
  /\ (nextStartTimeRef (AudioTranscriber.refs (AudioTranscriber.steps ea1 sa))
      <= nextStartTimeRef
           (AudioTranscriber.refs (AudioTranscriber.steps (ea1 ++ ea2) sa)))%Q
  /\ ForallOrdPairs (fun a b => before a b /\ sharedOnlyInRounding a b)
       (segments (since (VideoProcessor.browser sv)
                    (VideoProcessor.browser
                       (VideoProcessor.steps render (ev1 ++ ev2) sv))))
  /\ (nextStartTimeRef (VideoProcessor.refs (VideoProcessor.steps render ev1 sv))
      <= nextStartTimeRef
           (VideoProcessor.refs (VideoProcessor.steps render (ev1 ++ ev2) sv)))%Q.
Proof.
  intros [Hq Hes] Hda Hdea Hdv Hdev.
  apply Forall_app in Hes as [Hes1 Hes2].
  apply Forall_app in Hdea as [Hdea1 Hdea2].
  apply Forall_app in Hdev as [Hdev1 Hdev2].
  assert (Hshared : forall l, ForallOrdPairs before l ->
            ForallOrdPairs (fun a b => before a b /\ sharedOnlyInRounding a b) l).
  { intros l. apply ForallOrdPairs_impl. intros a b Hab. split; [exact Hab|].
    intros x Ha Hb. by apply (before_shared a b). }
  unfold AudioTranscriber.steps, VideoProcessor.steps. rewrite !foldl_app.
  fold (AudioTranscriber.steps ea1 sa).
  fold (AudioTranscriber.steps ea2 (AudioTranscriber.steps ea1 sa)).
  fold (VideoProcessor.steps render ev1 sv).
  fold (VideoProcessor.steps render ev2 (VideoProcessor.steps render ev1 sv)).
  destruct (TranscriberScheduling.transcriber_steps_tidy
              (AudioTranscriber.browser sa) ea1 sa Hes1 Hdea1 Hq
              (tidySince_refl _ _ Hda)) as (Hq1 & Ht1 & _).
  destruct (TranscriberScheduling.transcriber_steps_tidy
              (AudioTranscriber.browser sa) ea2 _ Hes2 Hdea2 Hq1 Ht1)
    as (_ & Ht2 & Hle2).
  destruct (DeepDiveScheduling.deepDive_steps_tidy
              (VideoProcessor.browser sv) render ev1 sv Hdev1
              (tidySince_refl _ _ Hdv)) as (Hv1 & _).
  destruct (DeepDiveScheduling.deepDive_steps_tidy
              (VideoProcessor.browser sv) render ev2 _ Hdev2 Hv1)
    as (Hv2 & Hvle).
  split; [eapply Hshared, tidySince_before; exact Ht2|].
  split; [exact Hle2|].
  split; [eapply Hshared, tidySince_before; exact Hv2|exact Hvle].
Qed.

Lemma scheduled_segments_witness :
  ForallOrdPairs (fun a b => before a b /\ sharedOnlyInRounding a b)
    (segments (since (AudioTranscriber.browser openedTranscriber)
                 (AudioTranscriber.browser
                    (AudioTranscriber.steps (H:=exampleAudioUtils)
                       (firstEvents ++ nextEvents) openedTranscriber))))
  /\ (nextStartTimeRef
        (AudioTranscriber.refs
           (AudioTranscriber.steps (H:=exampleAudioUtils) firstEvents
              openedTranscriber))
      <= nextStartTimeRef
           (AudioTranscriber.refs
              (AudioTranscriber.steps (H:=exampleAudioUtils)
                 (firstEvents ++ nextEvents) openedTranscriber)))%Q
  /\ ForallOrdPairs (fun a b => before a b /\ sharedOnlyInRounding a b)
       (segments (since (VideoProcessor.browser startedDeepDive)
                    (VideoProcessor.browser
                       (VideoProcessor.steps (H:=exampleAudioUtils)
                          (VideoProcessor.ui analysedPage)
                          (openingEvents ++ playingEvents) startedDeepDive))))
  /\ (nextStartTimeRef
        (VideoProcessor.refs
           (VideoProcessor.steps (H:=exampleAudioUtils)
              (VideoProcessor.ui analysedPage) openingEvents startedDeepDive))
      <= nextStartTimeRef
           (VideoProcessor.refs
              (VideoProcessor.steps (H:=exampleAudioUtils)
                 (VideoProcessor.ui analysedPage)
                 (openingEvents ++ playingEvents) startedDeepDive)))%Q.
Proof.
  apply (scheduled_segments_follow_computed_ends (H:=exampleAudioUtils)
           openedTranscriber firstEvents nextEvents
           (VideoProcessor.ui analysedPage) startedDeepDive
           openingEvents playingEvents).
  - split; vm_compute; repeat constructor.
  - vm_compute. reflexivity.
  - repeat constructor; vm_compute; reflexivity.
  - vm_compute. reflexivity.
  - repeat constructor; vm_compute; reflexivity.
Defined.

(** The claim as it stands fails on four chunks of five frames that all
    arrive at time 0: no interruption is signalled and every time is a
    binary64 number, yet the third and the fourth segment overlap, because
    the clock after the third advance is the rounded sum and lies below
    the exact end of the third segment. *)
Lemma rounded_clock_lets_segments_overlap :
  AudioTranscriber.uninterrupted openedTranscriber roundingEvents
  /\ Forall AudioTranscriber.doubleTime roundingEvents
  /\ ~ ForallOrdPairs noOverlap
        (segments (since (AudioTranscriber.browser openedTranscriber)
                     (AudioTranscriber.browser
                        (AudioTranscriber.steps (H:=exampleAudioUtils)
                           roundingEvents openedTranscriber)))).
Proof.
  split; [split; vm_compute; repeat constructor|].
  split; [repeat constructor; vm_compute; reflexivity|].
  intros Hall.
  assert (Hsegs : exists g1 g2 g3 g4,
             segments (since (AudioTranscriber.browser openedTranscriber)
                         (AudioTranscriber.browser
                            (AudioTranscriber.steps (H:=exampleAudioUtils)
                               roundingEvents openedTranscriber)))
             = [g1; g2; g3; g4]
             /\ (start g3 <= start g4)%Q /\ (start g4 < finish g3)%Q
             /\ (start g4 < finish g4)%Q).
  { do 4 eexists. split; [vm_compute; reflexivity|].
    split; [|split]; vm_compute; congruence. }
  destruct Hsegs as (g1 & g2 & g3 & g4 & Heq & H34 & H43 & H44).
  rewrite Heq in Hall.
  inversion Hall as [|? ? _ Hall2]. inversion Hall2 as [|? ? _ Hall3].
  inversion Hall3 as [|? ? Hg3 _]. inversion Hg3 as [|? ? Hno _].
  apply Hno. exists (start g4). split; [split; assumption|].
  split; [apply Qle_refl|assumption].
Qed.

(** C4, as the code has it. A resumed handler goes through five states
    while it plays a buffer: on entry, after [connect], after
    [source.start], after the advance of the clock and after
    [audioSources.add]. The source is started in the third and joins the
    handle set only in the fifth, which is the state the block ends in;
    nothing else is called in between. *)
Theorem start_precedes_registration (buffer : AudioBuffer) (r : Refs) (b : Browser) :
  exists m0 m1 m2 m3 m4,
    playMoments buffer (r, b) = [m0; m1; m2; m3; m4]
    /\ m4 = playBuffer buffer (r, b)
    /\ log m1.2 = log b ++ [NodeConnect (nextObject b)]
    /\ log m2.2 = log m1.2
                  ++ [SourceStart (nextObject b) (nextStartTimeRef r) (duration buffer)]
    /\ audioSourcesRef m2.1 = audioSourcesRef r
    /\ nextStartTimeRef m2.1 = nextStartTimeRef r
    /\ audioSourcesRef m3.1 = audioSourcesRef r
    /\ nextStartTimeRef m3.1
       = Binary64.binary64 (nextStartTimeRef r + duration buffer)%Q
    /\ log m3.2 = log m2.2
    /\ audioSourcesRef m4.1 = {[nextObject b]} ∪ audioSourcesRef r
    /\ log m4.2 = log m2.2
    /\ nextObject b ∈ audioSourcesRef m4.1.
Proof.
  do 5 eexists. split; [reflexivity|]. cbn.
  repeat split; try reflexivity. set_solver.
Qed.

(** The first source of a fresh page, with a buffer of one second: after
    [source.start] it is started and not yet in the handle set. *)
Lemma started_yet_unregistered :
  ~ Forall (registeredWhenStarted 0)
      (playMoments (mkAudioBuffer 24000 24000) (initialRefs, mkBrowser [] ∅ 0 ∅)).
Proof.
  intros Hall. apply Forall_cons_1 in Hall as [_ Hall].
  apply Forall_cons_1 in Hall as [_ Hall].
  apply Forall_cons_1 in Hall as [Hbad _].
  unfold registeredWhenStarted in Hbad. cbn in Hbad.
  apply (not_elem_of_empty (C:=gset nat) 0%nat). apply Hbad.
  exists 0%Q, (duration (mkAudioBuffer 24000 24000)). right. left. reflexivity.
Qed.

End SchedulingClaims.

(** ** Interruption *)
Module InterruptionFacts.

Lemma onmessage_tail_interrupted m (s : AudioTranscriber.State) :
  interrupted m = true ->
  AudioTranscriber.refs (AudioTranscriber.onmessage_tail m s) = AudioTranscriber.refs (AudioTranscriber.onInterrupted s)
  /\ AudioTranscriber.browser (AudioTranscriber.onmessage_tail m s) = AudioTranscriber.browser (AudioTranscriber.onInterrupted s).
Proof.
  intros Hi. unfold AudioTranscriber.onmessage_tail. rewrite Hi. by destruct (turnComplete m).
Qed.

Lemma stopped_of_member (h : nat) (set : gset nat) (l : list op) :
  h ∈ set -> In (SourceStop h) (l ++ (SourceStop <$> elements set)).
Proof.
  intros Hh. apply in_or_app. right. apply list_elem_of_In.
  apply list_elem_of_fmap. exists h. split; [done|]. by apply elem_of_elements.
Qed.

Section WithUtils.
Context `{AudioUtils}.

(** The transcriber does what the interruption asks for: every source in
    the handle set, the one the same message starts included, is stopped;
    the set is emptied and the clock is back at 0. *)
Lemma transcriber_interrupt_clears i o d tc fc now (s : AudioTranscriber.State) :
  let s' := AudioTranscriber.onmessage (mkMessage i o d true tc fc) now s in
  audioSourcesRef (AudioTranscriber.refs s') = ∅
  /\ nextStartTimeRef (AudioTranscriber.refs s') = 0%Q
  /\ (forall h, h ∈ audioSourcesRef (AudioTranscriber.refs s) ->
               In (SourceStop h) (log (AudioTranscriber.browser s'))).
Proof.
  set (m := mkMessage i o d true tc fc). intros s'. subst s'.
  rewrite TranscriptFacts.transcriber_onmessage_eq. cbv zeta.
  destruct (TranscriptFacts.onTranscription_frame m s) as (Hr & Hb & _).
  rewrite <- Hr. clear Hr Hb. generalize (AudioTranscriber.onTranscription m s). intros s1.
  destruct (audioToPlay m (AudioTranscriber.refs s1)) as [[base64Audio ctx]|].
  - pose proof (SchedulerFacts.playBuffer_spec
                  (decodeAudioData (decode base64Audio) 24000 1)
                  (Scheduler.clampClock now (AudioTranscriber.refs s1)) (AudioTranscriber.browser s1))
      as (_ & _ & Hset & _).
    destruct (Scheduler.playBuffer _ _) as [r b]. simpl in Hset.
    match goal with |- context [AudioTranscriber.onmessage_tail m ?x] =>
      destruct (onmessage_tail_interrupted m x eq_refl) as [Hr1 Hb1] end.
    rewrite Hr1, Hb1.
    split; [done|]. split; [done|]. intros h Hh.
    cbn. rewrite Hset. apply stopped_of_member. cbn.
    apply elem_of_union. by right.
  - destruct (onmessage_tail_interrupted m s1 eq_refl) as [-> ->].
    split; [done|]. split; [done|]. intros h Hh.
    cbn. by apply stopped_of_member.
Qed.

(** C2, at the deep dive. Its handler never reads the interruption flag: a
    message is handled the same with the flag and without it, and a message
    that carries only the flag leaves the state as it is. So source 7,
    playing from 3 to 5 when the interruption arrives at 4, is not
    stopped, stays in the handle set, and the clock stays at 5. *)
Theorem deep_dive_ignores_interruption :
  (forall render i o d tc fc now s,
      VideoProcessor.onmessage render (mkMessage i o d true tc fc) now s
      = VideoProcessor.onmessage render (mkMessage i o d false tc fc) now s)
  /\ (forall render now s, VideoProcessor.onmessage render interruptedMessage now s = s)
  /\ (let s := VideoProcessor.mkState VideoProcessor.initialUI
                  (mkRefs (Some 1%nat) None (Some 0%nat) None None (Some [2%nat])
                          5%Q {[7%nat]})
                  (mkBrowser [SourceStart 7 3%Q 2%Q] ∅ 8 ∅) [] in
      let s' := VideoProcessor.onmessage (VideoProcessor.ui s) interruptedMessage 4%Q s in
      7%nat ∈ audioSourcesRef (VideoProcessor.refs s')
      /\ nextStartTimeRef (VideoProcessor.refs s') = 5%Q
      /\ ~ In (SourceStop 7) (log (VideoProcessor.browser s'))).
Proof.
  assert (Hflag : forall render now s,
             VideoProcessor.onmessage render interruptedMessage now s = s).
  { intros. rewrite DeepDiveScheduling.deepDive_onmessage_eq. reflexivity. }
  split; [|split; [exact Hflag|]].
  - intros. rewrite !DeepDiveScheduling.deepDive_onmessage_eq. reflexivity.
  - cbv zeta. rewrite Hflag. cbn. split; [set_solver|]. split; [done|].
    intros [Hin|[]]. discriminate.
Qed.

End WithUtils.
End InterruptionFacts.

(** ** Teardown *)
Module TeardownFacts.

Lemma releaseResources_frame r b :
  localStorage (releaseResources r b) = localStorage b
  /\ nextObject (releaseResources r b) = nextObject b.
Proof.
  unfold releaseResources, closeUnlessClosed, disconnectNode, stopTracks.
  destruct (mediaStreamRef r), (scriptProcessorRef r), (mediaStreamSourceRef r),
    (inputAudioContextRef r), (outputAudioContextRef r);
    repeat case_decide; done.
Qed.

Lemma releaseResources_nothing r b :
  nothingToRelease r b -> releaseResources r b = b.
Proof.
  intros (Hs & Hp & Hn & Hi & Ho). unfold releaseResources. rewrite Hs, Hp, Hn.
  cbn [stopTracks disconnectNode]. unfold closeUnlessClosed.
  destruct (inputAudioContextRef r) as [ci|].
  - rewrite decide_True by auto.
    destruct (outputAudioContextRef r) as [co|]; [|done].
    by rewrite decide_True by auto.
  - destruct (outputAudioContextRef r) as [co|]; [|done].
    by rewrite decide_True by auto.
Qed.

Lemma Forall_releaseOp_app l1 l2 :
  Forall releaseOp l1 -> Forall releaseOp l2 -> Forall releaseOp (l1 ++ l2).
Proof. intros. by apply Forall_app. Qed.

Lemma releaseResources_ops r b :
  exists ops, log (releaseResources r b) = log b ++ ops /\ Forall releaseOp ops.
Proof.
  unfold releaseResources.
  assert (Hc : forall ctx b0, exists ops,
               log (closeUnlessClosed ctx b0) = log b0 ++ ops /\ Forall releaseOp ops).
  { intros [c|] b0; cbn; [case_decide|].
    - exists []. by rewrite app_nil_r.
    - exists [ContextClose c]. split; [done|]. by repeat constructor.
    - exists []. by rewrite app_nil_r. }
  assert (Hd : forall node b0, exists ops,
               log (disconnectNode node b0) = log b0 ++ ops /\ Forall releaseOp ops).
  { intros [n|] b0; cbn.
    - exists [NodeDisconnect n]. split; [done|]. by repeat constructor.
    - exists []. by rewrite app_nil_r. }
  assert (Ht : exists ops, log (stopTracks (mediaStreamRef r) b) = log b ++ ops
                           /\ Forall releaseOp ops).
  { destruct (mediaStreamRef r) as [tracks|]; cbn.
    - exists (TrackStop <$> tracks). split; [done|].
      apply Forall_fmap, Forall_true. done.
    - exists []. by rewrite app_nil_r. }
  destruct Ht as (o1 & E1 & F1).
  destruct (Hd (scriptProcessorRef r) (stopTracks (mediaStreamRef r) b))
    as (o2 & E2 & F2).
  destruct (Hd (mediaStreamSourceRef r)
              (disconnectNode (scriptProcessorRef r) (stopTracks (mediaStreamRef r) b)))
    as (o3 & E3 & F3).
  destruct (Hc (inputAudioContextRef r)
              (disconnectNode (mediaStreamSourceRef r)
                 (disconnectNode (scriptProcessorRef r)
                    (stopTracks (mediaStreamRef r) b))))
    as (o4 & E4 & F4).
  destruct (Hc (outputAudioContextRef r)
              (closeUnlessClosed (inputAudioContextRef r)
                 (disconnectNode (mediaStreamSourceRef r)
                    (disconnectNode (scriptProcessorRef r)
                       (stopTracks (mediaStreamRef r) b)))))
    as (o5 & E5 & F5).
  exists (o1 ++ o2 ++ o3 ++ o4 ++ o5).
  rewrite E5, E4, E3, E2, E1, <- !app_assoc. split; [done|].
  repeat apply Forall_releaseOp_app; assumption.
Qed.

Lemma stopDeepDive_idle render (s : VideoProcessor.State) :
  sessionPromiseRef (VideoProcessor.refs s) = None ->
  VideoProcessor.deepDiveStatus (VideoProcessor.ui s) = VideoProcessor.idle ->
  VideoProcessor.stopDeepDive render s = VideoProcessor.with_browser (releaseResources (VideoProcessor.refs s)) s.
Proof.
  intros Hs Hi. unfold VideoProcessor.stopDeepDive, VideoProcessor.handleDeepDiveSessionEnded.
  rewrite Hs. destruct s as [u r b aw]. cbn in *.
  destruct r; cbn in *; subst. destruct u; cbn in *; subst.
  unfold VideoProcessor.with_browser, VideoProcessor.with_refs, VideoProcessor.with_ui. cbn.
  by case_decide.
Qed.

(** C6, as the code has it. With no session handle, [stop] asks for no
    remote close and raises nothing. The transcriber's [stopSession] then
    does nothing at all. The deep dive's [stopDeepDive] runs the teardown
    again: the state changes by the release calls for what the refs still
    hold, and by nothing when they hold nothing. *)
Theorem stop_when_idle (sa : AudioTranscriber.State) (render : VideoProcessor.UI) (sv : VideoProcessor.State) :
  sessionPromiseRef (AudioTranscriber.refs sa) = None ->
  sessionPromiseRef (VideoProcessor.refs sv) = None ->
  VideoProcessor.deepDiveStatus (VideoProcessor.ui sv) = VideoProcessor.idle ->
  AudioTranscriber.stopSession sa = sa
  /\ VideoProcessor.stopDeepDive render sv = VideoProcessor.with_browser (releaseResources (VideoProcessor.refs sv)) sv
  /\ (exists ops,
        log (VideoProcessor.browser (VideoProcessor.stopDeepDive render sv)) = log (VideoProcessor.browser sv) ++ ops
        /\ Forall releaseOp ops)
  /\ (nothingToRelease (VideoProcessor.refs sv) (VideoProcessor.browser sv) ->
      VideoProcessor.stopDeepDive render sv = sv).
Proof.
  intros Ha Hv Hi. split; [unfold AudioTranscriber.stopSession; by rewrite Ha|].
  rewrite (stopDeepDive_idle render sv Hv Hi).
  split; [reflexivity|]. split; [apply releaseResources_ops|].
  intros Hn. unfold VideoProcessor.with_browser. rewrite (releaseResources_nothing _ _ Hn).
  by destruct sv.
Qed.

Lemma stop_when_idle_witness :
  AudioTranscriber.stopSession (AudioTranscriber.initialState ∅)
  = AudioTranscriber.initialState ∅
  /\ VideoProcessor.stopDeepDive VideoProcessor.initialUI afterDeepDive
     = VideoProcessor.with_browser
         (releaseResources (VideoProcessor.refs afterDeepDive)) afterDeepDive
  /\ (exists ops,
        log (VideoProcessor.browser
               (VideoProcessor.stopDeepDive VideoProcessor.initialUI afterDeepDive))
        = log (VideoProcessor.browser afterDeepDive) ++ ops
        /\ Forall releaseOp ops)
  /\ (nothingToRelease (VideoProcessor.refs afterDeepDive)
                       (VideoProcessor.browser afterDeepDive) ->
      VideoProcessor.stopDeepDive VideoProcessor.initialUI afterDeepDive
      = afterDeepDive).
Proof.
  apply (stop_when_idle (AudioTranscriber.initialState ∅)
           VideoProcessor.initialUI afterDeepDive); reflexivity.
Defined.

(** The deep dive after one session is idle and holds no session handle;
    a [stop] then stops the track of the old stream and disconnects the
    two old nodes once more. *)
Lemma second_stop_releases_again :
  sessionPromiseRef (VideoProcessor.refs afterDeepDive) = None
  /\ VideoProcessor.deepDiveStatus (VideoProcessor.ui afterDeepDive)
     = VideoProcessor.idle
  /\ log (VideoProcessor.browser
            (VideoProcessor.stopDeepDive (VideoProcessor.ui afterDeepDive)
                                         afterDeepDive))
     = log (VideoProcessor.browser afterDeepDive)
       ++ [TrackStop 0; NodeDisconnect 4; NodeDisconnect 3].
Proof. split; [|split]; vm_compute; reflexivity. Qed.

End TeardownFacts.

(** ** The tool call that ends a deep dive *)
Module ToolCallFacts.
Import VideoProcessor.

Lemma onToolCall_report render args (s : State) :
  onToolCall render (toolCallMessage args) s
  = stopDeepDive render
      (with_ui (setDeepDiveStatus complete)
         (with_ui (setLearningReport (Some args)) s)).
Proof.
  unfold onToolCall. cbn [functionCalls toolCallMessage fc_args fc_name].
  by rewrite decide_True.
Qed.

Lemma stopDeepDive_ui render (s : State) :
  ui (stopDeepDive render s)
  = if decide (deepDiveStatus render = complete) then ui s
    else setDeepDiveStatus idle (ui s).
Proof.
  unfold stopDeepDive, handleDeepDiveSessionEnded.
  destruct (sessionPromiseRef (refs s)); case_decide; reflexivity.
Qed.

Lemma stopDeepDive_browser render (s : State) :
  browser (stopDeepDive render s)
  = emits (SessionClose <$> option_list (sessionPromiseRef (refs s)))
          (releaseResources (refs s) (browser s))
  /\ sessionPromiseRef (refs (stopDeepDive render s)) = None.
Proof.
  assert (Hnil : forall b, emits [] b = b)
    by (intros [l c n st]; unfold emits; cbn; by rewrite app_nil_r).
  unfold stopDeepDive, handleDeepDiveSessionEnded.
  destruct (sessionPromiseRef (refs s)); case_decide; cbn;
    rewrite ?Hnil; done.
Qed.

Section WithUtils.
Context `{AudioUtils}.

(** C5, at the code. The handler of the tool call stores the report, sets
    the status to [complete], tears down and has the session closed; but
    the teardown is the one of the render in which the session was
    started, and it puts the status back to [idle] unless that render
    already showed [complete]. A session started from the idle page thus
    ends with the report stored and the status [idle]. *)
Theorem tool_call_ends_idle :
  (forall render args now s,
      let s' := onmessage render (toolCallMessage args) now s in
      learningReport (ui s') = Some args
      /\ sessionPromiseRef (refs s') = None
      /\ browser s'
         = emits (SessionClose <$> option_list (sessionPromiseRef (refs s)))
                 (releaseResources (refs s) (browser s))
      /\ deepDiveStatus (ui s')
         = if decide (deepDiveStatus render = complete) then complete else idle)
  /\ (forall res hist conv report err r b aw stream args now,
        let s := mkState (mkUI (Some res) hist idle conv report err) r b aw in
        let s' := session (Some stream) [Open; Message (toolCallMessage args) now] s in
        learningReport (ui s') = Some args
        /\ deepDiveStatus (ui s') = idle
        /\ deepDiveStatus (ui s') <> complete
        /\ sessionPromiseRef (refs s') = None
        /\ In (SessionClose (S (nextObject b))) (log (browser s'))).
Proof.
  assert (Hgen : forall render args now s,
      let s' := onmessage render (toolCallMessage args) now s in
      learningReport (ui s') = Some args
      /\ sessionPromiseRef (refs s') = None
      /\ browser s'
         = emits (SessionClose <$> option_list (sessionPromiseRef (refs s)))
                 (releaseResources (refs s) (browser s))
      /\ deepDiveStatus (ui s')
         = if decide (deepDiveStatus render = complete) then complete else idle).
  { intros render args now s s'. subst s'.
    rewrite DeepDiveScheduling.deepDive_onmessage_eq.
    change (onTranscriptions (toolCallMessage args) s) with s.
    cbv zeta. cbn [audioToPlay inlineData toolCallMessage].
    rewrite onToolCall_report, stopDeepDive_ui.
    destruct (stopDeepDive_browser render
                (with_ui (setDeepDiveStatus complete)
                   (with_ui (setLearningReport (Some args)) s))) as [Hb Hs].
    rewrite Hb, Hs. by case_decide. }
  split; [exact Hgen|].
  intros res hist conv report err r b aw stream args now s s'.
  assert (Hs' : s' = onmessage (ui s) (toolCallMessage args) now
                       (onopen (startDeepDive (ui s) (Some stream) s))).
  { subst s'. unfold session, steps. cbn [foldl step].
    unfold onmessage. unfold onmessage_resume at 1.
    rewrite lookup_ge_None_2; [reflexivity|].
    unfold onmessage_begin.
    change (onTranscriptions (toolCallMessage args) ?x) with x.
    cbn [audioToPlay inlineData toolCallMessage].
    destruct (DeepDiveScheduling.onToolCall_frame (ui s) (toolCallMessage args)
                (onopen (startDeepDive (ui s) (Some stream) s)))
      as (_ & _ & _ & Ha).
    fold (toolCallMessage args). rewrite Ha. lia. }
  destruct (Hgen (ui s) args now (onopen (startDeepDive (ui s) (Some stream) s)))
    as (Hrep & Hses & Hbr & Hst).
  rewrite <- Hs' in Hrep, Hses, Hbr, Hst.
  split; [exact Hrep|]. split; [exact Hst|]. split; [by rewrite Hst|].
  split; [exact Hses|]. rewrite Hbr.
  cbn. apply in_or_app. right. by left.
Qed.

End WithUtils.
End ToolCallFacts.


(** ** History *)
Module HistoryFacts.

Section WithJSON.
Context `{JSON (list AudioTranscriber.AudioHistoryItem)}
        `{JSON (list VideoProcessor.VideoHistoryItem)}.

Lemma transcriber_load_unparseable (s : AudioTranscriber.State) stored :
  localStorage (AudioTranscriber.browser s) !! AudioTranscriber.historyKey
    = Some stored ->
  JSON_parse (A:=list AudioTranscriber.AudioHistoryItem) stored = None ->
  AudioTranscriber.ui (AudioTranscriber.loadHistory s) = AudioTranscriber.ui s
  /\ ~ In Uncaught (Scheduler.since (AudioTranscriber.browser s)
                      (AudioTranscriber.browser (AudioTranscriber.loadHistory s))).
Proof.
  intros Hget Hparse. unfold AudioTranscriber.loadHistory. rewrite Hget.
  destruct stored as [|c rest].
  - split; [done|]. unfold Scheduler.since. rewrite drop_all. intros [].
  - rewrite Hparse. split; [done|]. unfold Scheduler.since. cbn.
    rewrite drop_app_length. intros [Hin|[]]. discriminate.
Qed.

Lemma deepDive_load_unparseable (s : VideoProcessor.State) stored :
  localStorage (VideoProcessor.browser s) !! VideoProcessor.historyKey
    = Some stored ->
  JSON_parse (A:=list VideoProcessor.VideoHistoryItem) stored = None ->
  VideoProcessor.ui (VideoProcessor.loadHistory s) = VideoProcessor.ui s
  /\ ~ In Uncaught (Scheduler.since (VideoProcessor.browser s)
                      (VideoProcessor.browser (VideoProcessor.loadHistory s))).
Proof.
  intros Hget Hparse. unfold VideoProcessor.loadHistory. rewrite Hget.
  destruct stored as [|c rest].
  - split; [done|]. unfold Scheduler.since. rewrite drop_all. intros [].
  - rewrite Hparse. split; [done|]. unfold Scheduler.since. cbn.
    rewrite drop_app_length. intros [Hin|[]]. discriminate.
Qed.

(** C8. When the stored history of a component is not parseable, the
    effect that loads it on mount leaves the history as it starts, the
    empty list, changes no other state cell, and nothing is thrown: the
    only call made, if any, is [console.error]. This holds for each
    component on its own, whatever else the storage holds or lacks, and
    the effect changes no state cell from whatever state it runs in. *)
Theorem corrupt_history_loads_empty :
  (forall (storage : gmap string string) (stored : string),
      storage !! AudioTranscriber.historyKey = Some stored ->
      JSON_parse (A:=list AudioTranscriber.AudioHistoryItem) stored = None ->
      let a := AudioTranscriber.loadHistory (AudioTranscriber.initialState storage) in
      AudioTranscriber.history (AudioTranscriber.ui a) = []
      /\ AudioTranscriber.ui a = AudioTranscriber.initialUI
      /\ ~ In Uncaught (log (AudioTranscriber.browser a)))
  /\ (forall (s : AudioTranscriber.State) (stored : string),
        localStorage (AudioTranscriber.browser s) !! AudioTranscriber.historyKey
          = Some stored ->
        JSON_parse (A:=list AudioTranscriber.AudioHistoryItem) stored = None ->
        AudioTranscriber.ui (AudioTranscriber.loadHistory s) = AudioTranscriber.ui s
        /\ ~ In Uncaught
               (Scheduler.since (AudioTranscriber.browser s)
                  (AudioTranscriber.browser (AudioTranscriber.loadHistory s))))
  /\ (forall (storage : gmap string string) (stored : string),
        storage !! VideoProcessor.historyKey = Some stored ->
        JSON_parse (A:=list VideoProcessor.VideoHistoryItem) stored = None ->
        let v := VideoProcessor.loadHistory (VideoProcessor.initialState storage) in
        VideoProcessor.history (VideoProcessor.ui v) = []
        /\ VideoProcessor.ui v = VideoProcessor.initialUI
        /\ ~ In Uncaught (log (VideoProcessor.browser v)))
  /\ (forall (s : VideoProcessor.State) (stored : string),
        localStorage (VideoProcessor.browser s) !! VideoProcessor.historyKey
          = Some stored ->
        JSON_parse (A:=list VideoProcessor.VideoHistoryItem) stored = None ->
        VideoProcessor.ui (VideoProcessor.loadHistory s) = VideoProcessor.ui s
        /\ ~ In Uncaught
               (Scheduler.since (VideoProcessor.browser s)
                  (VideoProcessor.browser (VideoProcessor.loadHistory s)))).
Proof.
  split; [|split; [exact transcriber_load_unparseable|
                   split; [|exact deepDive_load_unparseable]]].
  - intros storage stored Hget Hparse a.
    destruct (transcriber_load_unparseable
                (AudioTranscriber.initialState storage) stored Hget Hparse)
      as [Hu Hl].
    unfold Scheduler.since in Hl.
    cbn [length log AudioTranscriber.browser AudioTranscriber.initialState drop]
      in Hl.
    subst a. rewrite Hu. done.
  - intros storage stored Hget Hparse v.
    destruct (deepDive_load_unparseable
                (VideoProcessor.initialState storage) stored Hget Hparse)
      as [Hu Hl].
    unfold Scheduler.since in Hl.
    cbn [length log VideoProcessor.browser VideoProcessor.initialState drop]
      in Hl.
    subst v. rewrite Hu. done.
Qed.

(** C10. [saveToHistory] with an empty conversation returns the state it
    was given; and a teardown whose render holds an empty conversation
    leaves the history list and the storage as they are. *)
Theorem empty_conversation_not_saved render idNow timestampNow
    (s : AudioTranscriber.State) :
  AudioTranscriber.saveToHistory render [] idNow timestampNow s = s
  /\ (let render0 := AudioTranscriber.setConversation (fun _ => []) render in
      let s' := AudioTranscriber.handleSessionEnded render0 idNow timestampNow s in
      AudioTranscriber.history (AudioTranscriber.ui s')
      = AudioTranscriber.history (AudioTranscriber.ui s)
      /\ localStorage (AudioTranscriber.browser s')
         = localStorage (AudioTranscriber.browser s)).
Proof.
  split; [reflexivity|]. cbv zeta. unfold AudioTranscriber.handleSessionEnded.
  cbn [AudioTranscriber.setConversation AudioTranscriber.conversation length].
  rewrite (bool_decide_eq_false_2 (0 < 0)%nat) by lia. rewrite andb_false_r.
  cbn. split; [reflexivity|]. apply TeardownFacts.releaseResources_frame.
Qed.

End WithJSON.

(** A storage that holds a corrupt audio history and no video history,
    and one that holds a corrupt video history and no audio history. *)
Lemma corrupt_history_witness :
  let a := AudioTranscriber.loadHistory (H0:=exampleJSON _)
             (AudioTranscriber.initialState
                (<[AudioTranscriber.historyKey := "{not json"]> ∅)) in
  let v := VideoProcessor.loadHistory (H0:=exampleJSON _)
             (VideoProcessor.initialState
                (<[VideoProcessor.historyKey := "[{"]> ∅)) in
  (AudioTranscriber.history (AudioTranscriber.ui a) = []
   /\ AudioTranscriber.ui a = AudioTranscriber.initialUI
   /\ ~ In Uncaught (log (AudioTranscriber.browser a)))
  /\ (VideoProcessor.history (VideoProcessor.ui v) = []
      /\ VideoProcessor.ui v = VideoProcessor.initialUI
      /\ ~ In Uncaught (log (VideoProcessor.browser v))).
Proof.
  destruct (corrupt_history_loads_empty (H:=exampleJSON _) (H0:=exampleJSON _))
    as (Ha & _ & Hv & _).
  split.
  - apply (Ha (<[AudioTranscriber.historyKey := "{not json"]> ∅) "{not json");
      reflexivity.
  - apply (Hv (<[VideoProcessor.historyKey := "[{"]> ∅) "[{"); reflexivity.
Defined.

End HistoryFacts.

(** * Further properties of the code *)

(** ** The encoder on samples in range, and its buffer *)
Module EncoderFacts.
Import PCM PCMFacts.

Lemma scaled_bounds (m e : Z) :
  (-1 <= value m e)%Q -> (value m e < 1)%Q ->
  - 2 ^ 15 <= Qtruncate (value m e * 32768) < 2 ^ 15.
Proof.
  intros Hlo Hhi. set (x := (value m e * 32768)%Q).
  assert (Hx : (-32768 <= x)%Q /\ (x < 32768)%Q) by (subst x; split; lra).
  destruct Hx as [Hx1 Hx2].
  destruct (Qlt_le_dec x 0) as [Hneg|Hpos].
  - destruct (Qtruncate_nonpos x (Qlt_le_weak _ _ Hneg)) as [Ht1 Ht2].
    assert (H1 : (inject_Z (-32768) <= inject_Z (Qtruncate x))%Q)
      by (change (inject_Z (-32768)) with (-32768)%Q; lra).
    assert (H2 : (inject_Z (Qtruncate x) < inject_Z 1)%Q)
      by (change (inject_Z 1) with 1%Q; lra).
    rewrite <- Zle_Qle in H1. rewrite <- Zlt_Qlt in H2.
    change (2 ^ 15) with 32768. lia.
  - destruct (Qtruncate_nonneg x Hpos) as [Ht1 Ht2].
    assert (H1 : (inject_Z (-1) < inject_Z (Qtruncate x))%Q)
      by (change (inject_Z (-1)) with (-1)%Q; lra).
    assert (H2 : (inject_Z (Qtruncate x) < inject_Z 32768)%Q)
      by (change (inject_Z 32768) with 32768%Q; lra).
    rewrite <- Zlt_Qlt in H1, H2.
    change (2 ^ 15) with 32768. lia.
Qed.

Lemma wrap_in_range (v : Z) :
  - 2 ^ 15 <= v < 2 ^ 15 ->
  (if 2 ^ 15 <=? v mod 2 ^ 16 then v mod 2 ^ 16 - 2 ^ 16 else v mod 2 ^ 16) = v.
Proof.
  intros Hv. destruct (Z_lt_le_dec v 0) as [Hneg|Hpos].
  - assert (Hm : v mod 2 ^ 16 = v + 2 ^ 16).
    { symmetry. apply (Z.mod_unique v (2 ^ 16) (-1)); lia. }
    rewrite Hm. destruct (Z.leb_spec (2 ^ 15) (v + 2 ^ 16)); lia.
  - rewrite Z.mod_small by lia.
    destruct (Z.leb_spec (2 ^ 15) v); lia.
Qed.

(** X1. A sample in [-1, 1) is stored without wrap-around: the stored
    integer is the truncation of the sample times 32768, it lies in the
    16-bit signed range, and it differs from the scaled sample by less
    than one. *)
Theorem sample_in_range_is_exact (m e : Z) :
  (-1 <= value m e)%Q -> (value m e < 1)%Q ->
  let v := ToInt16 (times32768 (Dyadic m e)) in
  v = Qtruncate (value m e * 32768)
  /\ - 2 ^ 15 <= v < 2 ^ 15
  /\ (value m e * 32768 - 1 < inject_Z v)%Q
  /\ (inject_Z v < value m e * 32768 + 1)%Q.
Proof.
  intros Hlo Hhi v.
  pose proof (scaled_bounds m e Hlo Hhi) as Hb.
  assert (Hv : v = Qtruncate (value m e * 32768)).
  { subst v. cbn [times32768 ToInt16]. rewrite truncate_scaled.
    apply wrap_in_range, Hb. }
  rewrite Hv. split; [reflexivity|]. split; [exact Hb|].
  destruct (Qlt_le_dec (value m e * 32768) 0) as [Hneg|Hpos].
  - destruct (Qtruncate_nonpos _ (Qlt_le_weak _ _ Hneg)). split; lra.
  - destruct (Qtruncate_nonneg _ Hpos). split; lra.
Qed.

Lemma sample_in_range_witness :
  let v := ToInt16 (times32768 (Dyadic (-3) (-2))) in
  v = Qtruncate (value (-3) (-2) * 32768)
  /\ - 2 ^ 15 <= v < 2 ^ 15
  /\ (value (-3) (-2) * 32768 - 1 < inject_Z v)%Q
  /\ (inject_Z v < value (-3) (-2) * 32768 + 1)%Q.
Proof.
  apply (sample_in_range_is_exact (-3) (-2)); vm_compute; congruence.
Defined.

Lemma bytes_of_int16_inj (v1 v2 : Z) :
  - 2 ^ 15 <= v1 < 2 ^ 15 -> - 2 ^ 15 <= v2 < 2 ^ 15 ->
  bytes_of_int16 v1 = bytes_of_int16 v2 -> v1 = v2.
Proof.
  intros H1 H2 Hb. unfold bytes_of_int16 in Hb.
  injection Hb as Hlo Hhi.
  assert (Hm : v1 mod 2 ^ 16 = v2 mod 2 ^ 16).
  { rewrite (Z.div_mod (v1 mod 2 ^ 16) (2 ^ 8)) by lia.
    rewrite (Z.div_mod (v2 mod 2 ^ 16) (2 ^ 8)) by lia.
    by rewrite Hlo, Hhi. }
  rewrite <- (wrap_in_range v1 H1), <- (wrap_in_range v2 H2).
  by rewrite Hm.
Qed.

Lemma Uint8Array_of_Int16Array_inj (l1 l2 : list Z) :
  Forall (fun v => - 2 ^ 15 <= v < 2 ^ 15) l1 ->
  Forall (fun v => - 2 ^ 15 <= v < 2 ^ 15) l2 ->
  Uint8Array_of_Int16Array l1 = Uint8Array_of_Int16Array l2 -> l1 = l2.
Proof.
  intros H1. revert l2. induction H1 as [|v1 l1 Hv1 _ IH]; intros l2 H2 Hb.
  - destruct l2 as [|v2 l2]; [reflexivity|discriminate Hb].
  - destruct H2 as [|v2 l2 Hv2 H2]; [discriminate Hb|].
    change (bytes_of_int16 v1 ++ Uint8Array_of_Int16Array l1
            = bytes_of_int16 v2 ++ Uint8Array_of_Int16Array l2) in Hb.
    assert (Hhead : bytes_of_int16 v1 = bytes_of_int16 v2
                    /\ Uint8Array_of_Int16Array l1 = Uint8Array_of_Int16Array l2).
    { unfold bytes_of_int16 in *. cbn [app] in Hb.
      injection Hb as Hlo Hhi Hrest. by rewrite Hlo, Hhi. }
    destruct Hhead as [Hhead Hrest].
    f_equal; [by apply bytes_of_int16_inj|by apply IH].
Qed.

(** X2. The packet of a frame holds two bytes per sample, each byte
    below 256, and the byte view loses nothing of what the encoder stored:
    two frames with the same packet have the same number of samples and
    the same stored integers, whatever the samples were, in range or not. *)
Theorem frame_bytes_determine_stored_integers (inputData other : list number) :
  floatToPCM16 inputData = floatToPCM16 other ->
  length (floatToPCM16 inputData) = (2 * length inputData)%nat
  /\ Forall (fun b => 0 <= b < 2 ^ 8) (floatToPCM16 inputData)
  /\ int16_of_samples inputData = int16_of_samples other
  /\ length inputData = length other.
Proof.
  intros Hsame.
  assert (Hint : int16_of_samples inputData = int16_of_samples other).
  { apply Uint8Array_of_Int16Array_inj; [| |exact Hsame];
      unfold int16_of_samples; apply Forall_fmap, Forall_true;
      intros s; apply ToInt16_range. }
  split; [|split; [|split; [exact Hint|]]].
  - rewrite floatToPCM16_bind.
    induction inputData as [|s l IH] in |- *; [reflexivity|].
    cbn [mbind list_bind app bytes_of_int16 length]. cbn [length] in IH.
    rewrite IH. lia.
  - rewrite floatToPCM16_bind. apply Forall_bind, Forall_true.
    intros s. apply bytes_of_int16_le.
  - apply (f_equal length) in Hint. unfold int16_of_samples in Hint.
    by rewrite !length_fmap in Hint.
Qed.

Lemma frame_bytes_witness :
  int16_of_samples [Dyadic 1 (-1); Dyadic (-3) (-2)]
  = int16_of_samples [Dyadic 5 (-1); Dyadic 5 (-2)].
Proof.
  pose proof (frame_bytes_determine_stored_integers
                [Dyadic 1 (-1); Dyadic (-3) (-2)]
                [Dyadic 5 (-1); Dyadic 5 (-2)] eq_refl) as (_ & _ & Hint & _).
  exact Hint.
Defined.

End EncoderFacts.

(** ** Nothing is lost from a transcript *)
Module WordsFacts.
Import Words.

Lemma append_cons c (s t : string) : String c s +:+ t = String c (s +:+ t).
Proof. reflexivity. Qed.

Lemma append_nil_r (s : string) : s +:+ EmptyString = s.
Proof. induction s as [|c s IH]; [reflexivity|]. by rewrite append_cons, IH. Qed.

Lemma append_assoc (s t u : string) : (s +:+ t) +:+ u = s +:+ (t +:+ u).
Proof.
  induction s as [|c s IH]; [reflexivity|]. by rewrite !append_cons, IH.
Qed.

Section Transcriber.
Import AudioTranscriber.

Lemma saidBy_app who c1 c2 : saidBy who (c1 ++ c2) = saidBy who c1 +:+ saidBy who c2.
Proof.
  induction c1 as [|t c1 IH]; [reflexivity|].
  cbn [app saidBy foldr]. fold (saidBy who (c1 ++ c2)). fold (saidBy who c1).
  rewrite IH. case_decide; [by rewrite append_assoc|done].
Qed.

Lemma saidBy_finalize who conv : saidBy who (finalizeTurns conv) = saidBy who conv.
Proof.
  induction conv as [|t conv IH]; [reflexivity|].
  cbn [finalizeTurns fmap list_fmap saidBy foldr speaker text].
  fold (finalizeTurns conv). fold (saidBy who (finalizeTurns conv)).
  fold (saidBy who conv). by rewrite IH.
Qed.

Lemma saidBy_append who w tr conv :
  saidBy who (appendTranscription w tr conv)
  = saidBy who conv +:+ (if decide (w = who) then tr else EmptyString).
Proof.
  destruct conv as [|t init _] using rev_ind.
  - cbn. case_decide; [by rewrite append_nil_r|done].
  - rewrite TranscriptFacts.appendTranscription_snoc.
    destruct (bool_decide (speaker t = w) && negb (isFinal t)) eqn:E.
    + apply andb_true_iff in E as [E _]. apply bool_decide_eq_true in E.
      rewrite !saidBy_app. cbn [saidBy foldr speaker text]. rewrite E.
      case_decide; rewrite ?append_nil_r, ?append_assoc; done.
    + change (init ++ [t; mkTurn w tr false])
        with (init ++ [t] ++ [mkTurn w tr false]).
      rewrite app_assoc, (saidBy_app who (init ++ [t])).
      cbn [saidBy foldr speaker text].
      case_decide; by rewrite ?append_nil_r.
Qed.

Context `{AudioUtils}.

Lemma step_conversation s e :
  conversation (ui (step s e))
  = match e with
    | Message m _ =>
        let conv := match transcriptionOf m with
                    | Some (w, tr) => appendTranscription w tr (conversation (ui s))
                    | None => conversation (ui s)
                    end in
        match audioToPlay m (refs s) with
        | Some _ => conv
        | None => if turnComplete m then finalizeTurns conv else conv
        end
    | Decoded k =>
        match awaiting s !! k with
        | Some a => if turnComplete (aw_message a)
                    then finalizeTurns (conversation (ui s))
                    else conversation (ui s)
        | None => conversation (ui s)
        end
    | Ended _ => conversation (ui s)
    end.
Proof.
  destruct e as [m now|k|source]; cbn [step].
  - unfold onmessage_begin.
    destruct (TranscriptFacts.onTranscription_frame m s) as (Hr & _ & _ & Hc).
    cbv zeta. rewrite <- Hc, <- Hr. clear Hc Hr.
    generalize (onTranscription m s). intros s1.
    destruct (audioToPlay m (refs s1)) as [[base64Audio ctx]|]; [reflexivity|].
    apply TranscriptFacts.onmessage_tail_conversation.
  - unfold onmessage_resume. destruct (awaiting s !! k) as [a|]; [|reflexivity].
    destruct (Scheduler.playBuffer _ _) as [r b].
    by rewrite TranscriptFacts.onmessage_tail_conversation.
  - reflexivity.
Qed.

Lemma step_saidBy who s e :
  saidBy who (conversation (ui (step s e)))
  = saidBy who (conversation (ui s)) +:+ heardFrom who (messagesOf [e]).
Proof.
  rewrite step_conversation. destruct e as [m now|k|source].
  - cbn [messagesOf omap list_omap heardFrom foldr]. cbv zeta.
    assert (Hconv :
      saidBy who (match transcriptionOf m with
                  | Some (w, tr) => appendTranscription w tr (conversation (ui s))
                  | None => conversation (ui s)
                  end)
      = saidBy who (conversation (ui s))
        +:+ match who with
            | user => default EmptyString (inputTranscription m) +:+ EmptyString
            | model =>
                match inputTranscription m with
                | Some _ => EmptyString
                | None =>
                    default EmptyString (outputTranscription m) +:+ EmptyString
                end
            end).
    { unfold transcriptionOf.
      destruct (inputTranscription m) as [i|], (outputTranscription m) as [o|],
               who; rewrite ?saidBy_append; cbn [default];
        repeat case_decide; try done; by rewrite ?append_nil_r. }
    destruct (audioToPlay m (refs s)); [exact Hconv|].
    destruct (turnComplete m); [rewrite saidBy_finalize|]; exact Hconv.
  - cbn [messagesOf omap list_omap heardFrom foldr]. rewrite append_nil_r.
    destruct (awaiting s !! k) as [a|]; [|reflexivity].
    destruct (turnComplete (aw_message a)); [apply saidBy_finalize|reflexivity].
  - cbn [messagesOf omap list_omap heardFrom foldr]. by rewrite append_nil_r.
Qed.

Lemma heardFrom_app who ms1 ms2 :
  heardFrom who (ms1 ++ ms2) = heardFrom who ms1 +:+ heardFrom who ms2.
Proof.
  induction ms1 as [|m ms1 IH]; [reflexivity|].
  cbn [app heardFrom foldr]. fold (heardFrom who (ms1 ++ ms2)).
  fold (heardFrom who ms1). rewrite IH.
  destruct who; [by rewrite append_assoc|].
  destruct (inputTranscription m); [done|by rewrite append_assoc].
Qed.

(** X3. What the audio transcriber keeps of what it hears. After any
    events of a session, the texts of the user's turns, put end to end,
    are what they were before followed by every input transcription that
    arrived, in the order of arrival; the texts of the model's turns are
    what they were before followed by the output transcription of every
    message that carried no input transcription. Merging turns, starting
    turns and finalizing them neither drops nor repeats a word of these.
    A message that carries both transcriptions leaves the model's words as
    they were: the handler files only the user's text of such a message. *)
Theorem transcriber_keeps_words_it_files who es s :
  saidBy who (conversation (ui (steps es s)))
  = saidBy who (conversation (ui s)) +:+ heardFrom who (messagesOf es)
  /\ (forall i o d intr tc fc now,
        saidBy model
          (conversation
             (ui (step s (Message (mkMessage (Some i) (Some o) d intr tc fc) now))))
        = saidBy model (conversation (ui s))
        /\ saidBy user
             (conversation
                (ui (step s (Message (mkMessage (Some i) (Some o) d intr tc fc) now))))
           = saidBy user (conversation (ui s)) +:+ i).
Proof.
  split.
  - unfold steps. revert s. induction es as [|e es IH]; intros s.
    + cbn. by rewrite append_nil_r.
    + cbn [foldl]. rewrite IH, step_saidBy, append_assoc.
      change (e :: es) with ([e] ++ es).
      unfold messagesOf. rewrite omap_app.
      fold (messagesOf [e]). fold (messagesOf es).
      by rewrite heardFrom_app.
  - intros i o d intr tc fc now. rewrite !step_saidBy.
    cbn [messagesOf omap list_omap heardFrom foldr inputTranscription
         outputTranscription default].
    by rewrite !append_nil_r.
Qed.

End Transcriber.

Section DeepDive.
Import VideoProcessor.

Lemma appendText_snoc who fragment init t :
  appendText who fragment (init ++ [t])
  = if bool_decide (speaker t = who)
    then init ++ [mkTurn (speaker t) (text t +:+ fragment)]
    else init ++ [t; mkTurn who fragment].
Proof.
  unfold appendText. rewrite TranscriptFacts.lookup_last_snoc.
  destruct (bool_decide (speaker t = who)).
  - rewrite length_app, Nat.add_1_r. cbn [pred].
    by rewrite take_app_length.
  - by rewrite <- app_assoc.
Qed.

Lemma alternates_snoc init t u :
  alternates (init ++ [t; u])
  <-> alternates (init ++ [t]) /\ speaker t <> speaker u.
Proof.
  induction init as [|a init IH]; [cbn; tauto|].
  change (alternates ((a :: init) ++ [t; u]))
    with (match init ++ [t; u] with
          | t2 :: _ => speaker a <> speaker t2
          | [] => True
          end /\ alternates (init ++ [t; u])).
  change (alternates ((a :: init) ++ [t]))
    with (match init ++ [t] with
          | t2 :: _ => speaker a <> speaker t2
          | [] => True
          end /\ alternates (init ++ [t])).
  rewrite IH. destruct init; cbn; tauto.
Qed.

Lemma alternates_last init t t' :
  speaker t' = speaker t -> alternates (init ++ [t]) -> alternates (init ++ [t']).
Proof.
  intros Hs. induction init as [|a init IH]; [cbn; tauto|].
  cbn [app alternates]. intros [Ha Hrest]. split; [|auto].
  destruct init; cbn in *; [rewrite Hs|]; exact Ha.
Qed.

Lemma alternates_appendText who fragment conv :
  alternates conv -> alternates (appendText who fragment conv).
Proof.
  destruct conv as [|t init _] using rev_ind; [cbn; tauto|].
  rewrite appendText_snoc. intros Hok.
  destruct (bool_decide (speaker t = who)) eqn:E.
  - eapply alternates_last; [|exact Hok]. reflexivity.
  - apply alternates_snoc. split; [exact Hok|].
    by apply bool_decide_eq_false in E.
Qed.

Lemma saidInDeepDive_app who c1 c2 :
  saidInDeepDive who (c1 ++ c2)
  = saidInDeepDive who c1 +:+ saidInDeepDive who c2.
Proof.
  induction c1 as [|t c1 IH]; [reflexivity|].
  cbn [app saidInDeepDive foldr]. fold (saidInDeepDive who (c1 ++ c2)).
  fold (saidInDeepDive who c1).
  rewrite IH. case_decide; [by rewrite append_assoc|done].
Qed.

Lemma saidInDeepDive_appendText who w fragment conv :
  saidInDeepDive who (appendText w fragment conv)
  = saidInDeepDive who conv
    +:+ (if decide (w = who) then fragment else EmptyString).
Proof.
  destruct conv as [|t init _] using rev_ind.
  - cbn. case_decide; [by rewrite append_nil_r|done].
  - rewrite appendText_snoc.
    destruct (bool_decide (speaker t = w)) eqn:E.
    + apply bool_decide_eq_true in E.
      rewrite !saidInDeepDive_app. cbn [saidInDeepDive foldr speaker text].
      rewrite E. case_decide; rewrite ?append_nil_r, ?append_assoc; done.
    + change (init ++ [t; mkTurn w fragment])
        with (init ++ [t] ++ [mkTurn w fragment]).
      rewrite app_assoc, (saidInDeepDive_app who (init ++ [t])).
      cbn [saidInDeepDive foldr speaker text].
      case_decide; by rewrite ?append_nil_r.
Qed.

Lemma handleDeepDiveSessionEnded_conversation render s :
  deepDiveConversation (ui (handleDeepDiveSessionEnded render s))
  = deepDiveConversation (ui s).
Proof. unfold handleDeepDiveSessionEnded. by case_decide. Qed.

Lemma stopDeepDive_conversation render s :
  deepDiveConversation (ui (stopDeepDive render s)) = deepDiveConversation (ui s).
Proof.
  unfold stopDeepDive. cbv zeta.
  destruct (sessionPromiseRef (refs s)); cbn [ui with_browser];
    apply handleDeepDiveSessionEnded_conversation.
Qed.

Lemma onToolCall_conversation render m s :
  deepDiveConversation (ui (onToolCall render m s)) = deepDiveConversation (ui s).
Proof.
  unfold onToolCall. destruct (functionCalls m) as [[|fc fcs]|]; [done| |done].
  case_decide; [|done]. destruct (fc_args fc); [|done].
  by rewrite stopDeepDive_conversation.
Qed.

Lemma onTranscriptions_conversation m s :
  deepDiveConversation (ui (onTranscriptions m s))
  = let conv := match inputTranscription m with
                | Some fragment => appendText user fragment (deepDiveConversation (ui s))
                | None => deepDiveConversation (ui s)
                end in
    match outputTranscription m with
    | Some fragment => appendText model fragment conv
    | None => conv
    end.
Proof.
  unfold onTranscriptions.
  by destruct (inputTranscription m), (outputTranscription m).
Qed.

Context `{AudioUtils}.

Lemma deepDive_step_conversation render s e :
  deepDiveConversation (ui (step render s e))
  = match e with
    | Message m _ => deepDiveConversation (ui (onTranscriptions m s))
    | _ => deepDiveConversation (ui s)
    end.
Proof.
  destruct e as [|m now|k|source| |]; cbn [step].
  - unfold onopen. by destruct (openCapture _ _).
  - unfold onmessage_begin.
    destruct (audioToPlay m (refs (onTranscriptions m s))) as [[a ctx]|];
      [reflexivity|apply onToolCall_conversation].
  - unfold onmessage_resume. destruct (awaiting s !! k) as [a|]; [|reflexivity].
    destruct (Scheduler.playBuffer _ _) as [r b].
    by rewrite onToolCall_conversation.
  - reflexivity.
  - unfold onerror. by rewrite stopDeepDive_conversation.
  - unfold onclose. apply handleDeepDiveSessionEnded_conversation.
Qed.

Lemma deepDive_steps_alternates render es s :
  alternates (deepDiveConversation (ui s)) ->
  alternates (deepDiveConversation (ui (steps render es s))).
Proof.
  unfold steps. revert s. induction es as [|e es IH]; intros s Hok; [exact Hok|].
  cbn [foldl]. apply IH. rewrite deepDive_step_conversation.
  destruct e as [|m now|k|source| |]; try exact Hok.
  rewrite onTranscriptions_conversation. cbv zeta.
  destruct (inputTranscription m), (outputTranscription m);
    repeat apply alternates_appendText; exact Hok.
Qed.

(** X4. In a deep dive started from a page that holds an analysis, the
    conversation alternates: after any events of the session, no two
    adjacent turns have the same speaker, since a fragment always merges
    into a trailing turn of its speaker. *)
Theorem deep_dive_turns_alternate res hist status conv report err r b aw
    microphone es :
  alternates
    (deepDiveConversation
       (ui (session microphone es
              (mkState (mkUI (Some res) hist status conv report err) r b aw)))).
Proof.
  unfold session. apply deepDive_steps_alternates.
  unfold startDeepDive. cbn [ui analysisResult].
  destruct microphone as [stream|]; [|exact I].
  cbn. exact I.
Qed.

Lemma heardInDeepDive_app who ms1 ms2 :
  heardInDeepDive who (ms1 ++ ms2)
  = heardInDeepDive who ms1 +:+ heardInDeepDive who ms2.
Proof.
  induction ms1 as [|m ms1 IH]; [reflexivity|].
  cbn [app heardInDeepDive foldr]. fold (heardInDeepDive who (ms1 ++ ms2)).
  fold (heardInDeepDive who ms1). rewrite IH.
  destruct who; by rewrite append_assoc.
Qed.

Lemma deepDive_step_said who render s e :
  saidInDeepDive who (deepDiveConversation (ui (step render s e)))
  = saidInDeepDive who (deepDiveConversation (ui s))
    +:+ heardInDeepDive who (deepDiveMessagesOf [e]).
Proof.
  rewrite deepDive_step_conversation.
  destruct e as [|m now|k|source| |];
    try (cbn [deepDiveMessagesOf omap list_omap heardInDeepDive foldr];
         by rewrite append_nil_r).
  rewrite onTranscriptions_conversation. cbv zeta.
  cbn [deepDiveMessagesOf omap list_omap heardInDeepDive foldr].
  destruct (inputTranscription m) as [fi|], (outputTranscription m) as [fo|];
    rewrite ?saidInDeepDive_appendText; destruct who; cbn [default];
    repeat case_decide; try congruence;
    rewrite ?append_nil_r, ?append_assoc; try reflexivity.
Qed.

(** X5. In a deep dive the words of each speaker are kept whole and in
    order: after any events of a session, the texts of a speaker's turns,
    put end to end, are what they were before followed by that speaker's
    transcriptions in the messages that arrived, in the order of arrival;
    errors, closes and tool calls do not touch them. *)
Theorem deep_dive_keeps_every_word who render es s :
  saidInDeepDive who (deepDiveConversation (ui (steps render es s)))
  = saidInDeepDive who (deepDiveConversation (ui s))
    +:+ heardInDeepDive who (deepDiveMessagesOf es).
Proof.
  unfold steps. revert s. induction es as [|e es IH]; intros s.
  - cbn. by rewrite append_nil_r.
  - cbn [foldl]. rewrite IH, deepDive_step_said, append_assoc.
    change (e :: es) with ([e] ++ es).
    unfold deepDiveMessagesOf. rewrite omap_app.
    fold (deepDiveMessagesOf [e]). fold (deepDiveMessagesOf es).
    by rewrite heardInDeepDive_app.
Qed.

End DeepDive.

End WordsFacts.

(** ** When a chunk of audio starts *)
Module EnqueueFacts.
Import Scheduler.

Lemma Qmax_left (x y : Q) : (y <= x)%Q -> Qmax x y = x.
Proof.
  intros Hle. unfold Qmax, GenericMinMax.gmax.
  destruct (x ?= y)%Q eqn:E; try reflexivity.
  apply Qlt_alt in E. exfalso. apply (Qlt_irrefl x).
  eapply Qlt_le_trans; eassumption.
Qed.

Lemma Qmax_right (x y : Q) : (x < y)%Q -> Qmax x y = y.
Proof.
  intros Hlt. unfold Qmax, GenericMinMax.gmax.
  assert (E : (x ?= y)%Q = Lt) by (by apply Qlt_alt).
  by rewrite E.
Qed.

Section WithUtils.
Context `{AudioUtils}.

Lemma transcriber_plays_audio c rest ctx now (s : AudioTranscriber.State) :
  outputAudioContextRef (AudioTranscriber.refs s) = Some ctx ->
  AudioTranscriber.onmessage (audioMessage (String c rest)) now s
  = let '(r, b) :=
      playBuffer (decodeAudioData (decode (String c rest)) 24000 1)
        (clampClock now (AudioTranscriber.refs s), AudioTranscriber.browser s) in
    AudioTranscriber.mkState (AudioTranscriber.ui s) r b (AudioTranscriber.awaiting s).
Proof.
  intros Hctx. rewrite TranscriptFacts.transcriber_onmessage_eq.
  change (AudioTranscriber.onTranscription (audioMessage (String c rest)) s) with s.
  cbv zeta. unfold audioToPlay. cbn [inlineData audioMessage]. rewrite Hctx.
  by destruct (playBuffer _ _).
Qed.

Lemma deepDive_plays_audio render c rest ctx now (s : VideoProcessor.State) :
  outputAudioContextRef (VideoProcessor.refs s) = Some ctx ->
  VideoProcessor.onmessage render (audioMessage (String c rest)) now s
  = let '(r, b) :=
      playBuffer (decodeAudioData (decode (String c rest)) 24000 1)
        (clampClock now (VideoProcessor.refs s), VideoProcessor.browser s) in
    VideoProcessor.mkState (VideoProcessor.ui s) r b (VideoProcessor.awaiting s).
Proof.
  intros Hctx. rewrite DeepDiveScheduling.deepDive_onmessage_eq.
  change (VideoProcessor.onTranscriptions (audioMessage (String c rest)) s) with s.
  cbv zeta. unfold audioToPlay. cbn [inlineData audioMessage]. rewrite Hctx.
  by destruct (playBuffer _ _).
Qed.

(** X6. Playback is gapless while audio is queued and immediate when the
    queue has run dry. In both components a chunk that is decoded as soon
    as it arrives, at a time not after [nextStartTimeRef], is started
    exactly at [nextStartTimeRef], the computed end of what was queued; a
    chunk that arrives later is started at its arrival time; either way
    the clock moves to the binary64 number nearest to the sum of that
    start and the duration, and the new source joins the handle set. *)
Theorem chunk_starts_at_queue_end_or_now (base64Audio : string) ctx now
    (sa : AudioTranscriber.State) render (sv : VideoProcessor.State) :
  base64Audio <> EmptyString ->
  outputAudioContextRef (AudioTranscriber.refs sa) = Some ctx ->
  outputAudioContextRef (VideoProcessor.refs sv) = Some ctx ->
  let d := duration (decodeAudioData (decode base64Audio) 24000 1) in
  let sa' := AudioTranscriber.onmessage (audioMessage base64Audio) now sa in
  let sv' := VideoProcessor.onmessage render (audioMessage base64Audio) now sv in
  let ca := nextStartTimeRef (AudioTranscriber.refs sa) in
  let cv := nextStartTimeRef (VideoProcessor.refs sv) in
  let ha := nextObject (AudioTranscriber.browser sa) in
  let hv := nextObject (VideoProcessor.browser sv) in
  let starta := if Qle_bool now ca then ca else now in
  let startv := if Qle_bool now cv then cv else now in
  since (AudioTranscriber.browser sa) (AudioTranscriber.browser sa')
    = [NodeConnect ha; SourceStart ha starta d]
  /\ nextStartTimeRef (AudioTranscriber.refs sa')
     = Binary64.binary64 (starta + d)%Q
  /\ audioSourcesRef (AudioTranscriber.refs sa')
     = {[ha]} ∪ audioSourcesRef (AudioTranscriber.refs sa)
  /\ since (VideoProcessor.browser sv) (VideoProcessor.browser sv')
     = [NodeConnect hv; SourceStart hv startv d]
  /\ nextStartTimeRef (VideoProcessor.refs sv')
     = Binary64.binary64 (startv + d)%Q
  /\ audioSourcesRef (VideoProcessor.refs sv')
     = {[hv]} ∪ audioSourcesRef (VideoProcessor.refs sv).
Proof.
  intros Hne. destruct base64Audio as [|c rest]; [done|]. clear Hne.
  intros Ha Hv d sa' sv' ca cv ha hv starta startv.
  assert (Hmax : forall clock, Qmax clock now
                               = if Qle_bool now clock then clock else now).
  { intros clock. destruct (Qle_bool now clock) eqn:E.
    - apply Qmax_left. by apply Qle_bool_iff.
    - apply Qmax_right. apply Qnot_le_lt. intros Hle.
      apply Qle_bool_iff in Hle. congruence. }
  subst sa' sv'.
  rewrite (transcriber_plays_audio c rest ctx now sa Ha).
  rewrite (deepDive_plays_audio render c rest ctx now sv Hv).
  pose proof (SchedulerFacts.playBuffer_spec
                (decodeAudioData (decode (String c rest)) 24000 1)
                (clampClock now (AudioTranscriber.refs sa))
                (AudioTranscriber.browser sa)) as (La & Ca & Sa & _).
  pose proof (SchedulerFacts.playBuffer_spec
                (decodeAudioData (decode (String c rest)) 24000 1)
                (clampClock now (VideoProcessor.refs sv))
                (VideoProcessor.browser sv)) as (Lv & Cv & Sv & _).
  destruct (playBuffer _ (clampClock now (AudioTranscriber.refs sa), _)) as [ra ba].
  destruct (playBuffer _ (clampClock now (VideoProcessor.refs sv), _)) as [rv bv].
  cbn [fst snd] in La, Ca, Sa, Lv, Cv, Sv.
  cbn [AudioTranscriber.refs AudioTranscriber.browser
       VideoProcessor.refs VideoProcessor.browser].
  unfold since. rewrite La, Lv, !drop_app_length, Ca, Cv, Sa, Sv.
  cbn [clampClock set_nextStartTimeRef nextStartTimeRef audioSourcesRef].
  rewrite !Hmax. done.
Qed.

Lemma interruptedMessage_handled now (s : AudioTranscriber.State) :
  AudioTranscriber.onmessage interruptedMessage now s = AudioTranscriber.onInterrupted s.
Proof.
  rewrite TranscriptFacts.transcriber_onmessage_eq.
  change (AudioTranscriber.onTranscription interruptedMessage s) with s.
  reflexivity.
Qed.

(** X7. Barge-in in the audio transcriber. When no handler is suspended
    at [decodeAudioData] as an interruption arrives, every source that was
    in the handle set is stopped, and a chunk of audio that arrives next,
    at a time [now] that is not negative, and is decoded before anything
    else happens starts at [now] however much audio had been queued
    before; it is then the only source in the handle set. *)
Theorem chunk_after_interruption_plays_at_once (base64Audio : string) ctx t now
    (s : AudioTranscriber.State) :
  base64Audio <> EmptyString ->
  outputAudioContextRef (AudioTranscriber.refs s) = Some ctx ->
  AudioTranscriber.awaiting s = [] ->
  (0 <= now)%Q ->
  let d := duration (decodeAudioData (decode base64Audio) 24000 1) in
  let s1 := AudioTranscriber.step s (AudioTranscriber.Message interruptedMessage t) in
  let s2 := AudioTranscriber.steps
              [AudioTranscriber.Message (audioMessage base64Audio) now;
               AudioTranscriber.Decoded 0] s1 in
  let h := nextObject (AudioTranscriber.browser s) in
  (forall old, old ∈ audioSourcesRef (AudioTranscriber.refs s) ->
               In (SourceStop old)
                  (since (AudioTranscriber.browser s) (AudioTranscriber.browser s1)))
  /\ (exists start,
        since (AudioTranscriber.browser s1) (AudioTranscriber.browser s2)
        = [NodeConnect h; SourceStart h start d]
        /\ (start == now)%Q
        /\ nextStartTimeRef (AudioTranscriber.refs s2)
           = Binary64.binary64 (start + d)%Q)
  /\ audioSourcesRef (AudioTranscriber.refs s2) = {[h]}.
Proof.
  intros Hne. destruct base64Audio as [|c rest]; [done|]. clear Hne.
  intros Hctx Haw Hnow d s1 s2 h.
  assert (H1 : s1 = AudioTranscriber.onInterrupted s) by reflexivity.
  assert (Hctx1 : outputAudioContextRef (AudioTranscriber.refs s1) = Some ctx)
    by (rewrite H1; exact Hctx).
  assert (Haw1 : AudioTranscriber.awaiting s1 = []) by (rewrite H1; exact Haw).
  assert (H2 : s2 = AudioTranscriber.onmessage (audioMessage (String c rest)) now s1).
  { subst s2. unfold AudioTranscriber.steps, AudioTranscriber.onmessage.
    cbn [foldl AudioTranscriber.step]. by rewrite Haw1. }
  split.
  { intros old Hold. rewrite H1. unfold since. cbn. rewrite drop_app_length.
    apply (InterruptionFacts.stopped_of_member old _ []). exact Hold. }
  rewrite H2.
  rewrite (transcriber_plays_audio c rest ctx now s1 Hctx1).
  pose proof (SchedulerFacts.playBuffer_spec
                (decodeAudioData (decode (String c rest)) 24000 1)
                (clampClock now (AudioTranscriber.refs s1))
                (AudioTranscriber.browser s1)) as (L & C & S & _).
  destruct (playBuffer _ _) as [r b]. cbn [fst snd] in L, C, S.
  cbn [AudioTranscriber.refs AudioTranscriber.browser].
  unfold since. rewrite L, drop_app_length, S, C. rewrite H1. cbn.
  split; [|by rewrite union_empty_r_L].
  eexists. split; [reflexivity|]. split; [|reflexivity].
  apply Q.max_r. exact Hnow.
Qed.

(** X18. An interruption does not cancel a handler that is suspended at
    [decodeAudioData] when it arrives. When such a handler resumes after
    the interruption, and its own message signals no interruption, its
    chunk is started at the reset clock, 0, joins the emptied handle set
    as its only source, and moves the clock to the duration of the
    chunk. *)
Theorem suspended_chunk_survives_interruption k a t (s : AudioTranscriber.State) :
  AudioTranscriber.awaiting s !! k = Some a ->
  interrupted (aw_message a) = false ->
  let s1 := AudioTranscriber.step s (AudioTranscriber.Message interruptedMessage t) in
  let s3 := AudioTranscriber.step s1 (AudioTranscriber.Decoded k) in
  let h := nextObject (AudioTranscriber.browser s) in
  since (AudioTranscriber.browser s1) (AudioTranscriber.browser s3)
  = [NodeConnect h; SourceStart h 0%Q (duration (aw_buffer a))]
  /\ audioSourcesRef (AudioTranscriber.refs s3) = {[h]}
  /\ nextStartTimeRef (AudioTranscriber.refs s3)
     = Binary64.binary64 (0 + duration (aw_buffer a))%Q.
Proof.
  intros Hk Hq s1 s3 h.
  assert (H1 : s1 = AudioTranscriber.onInterrupted s) by reflexivity.
  subst s3. cbn [AudioTranscriber.step]. unfold AudioTranscriber.onmessage_resume.
  assert (Hk1 : AudioTranscriber.awaiting s1 !! k = Some a)
    by (rewrite H1; exact Hk).
  rewrite Hk1.
  pose proof (SchedulerFacts.playBuffer_spec (aw_buffer a)
                (AudioTranscriber.refs s1) (AudioTranscriber.browser s1))
    as (L & C & S & _).
  destruct (playBuffer _ _) as [r b]. cbn [fst snd] in L, C, S.
  match goal with |- context [AudioTranscriber.onmessage_tail ?m ?x] =>
    destruct (TranscriberScheduling.onmessage_tail_quiet m x Hq) as [-> ->] end.
  cbn [AudioTranscriber.refs AudioTranscriber.browser].
  unfold since. rewrite L, drop_app_length, S, C. rewrite H1. cbn.
  split; [reflexivity|]. split; [by rewrite union_empty_r_L|reflexivity].
Qed.

End WithUtils.

Lemma chunk_starts_witness :
  nextStartTimeRef
    (AudioTranscriber.refs
       (AudioTranscriber.onmessage (H:=exampleAudioUtils) (audioMessage "abcd")
          (1 # 2)%Q openedTranscriber))
  = Binary64.binary64
      ((1 # 2) + duration (decodeAudioData (AudioUtils:=exampleAudioUtils)
                             (decode (AudioUtils:=exampleAudioUtils) "abcd") 24000 1))%Q.
Proof.
  pose proof (chunk_starts_at_queue_end_or_now (H:=exampleAudioUtils)
                "abcd" 0%nat (1 # 2)%Q openedTranscriber
                (VideoProcessor.ui analysedPage) startedDeepDive
                ltac:(discriminate) eq_refl eq_refl) as (_ & Hclock & _).
  exact Hclock.
Defined.

Lemma suspended_chunk_witness :
  audioSourcesRef
    (AudioTranscriber.refs
       (AudioTranscriber.steps (H:=exampleAudioUtils)
          [AudioTranscriber.Message (audioMessage "abcd") 0%Q;
           AudioTranscriber.Message interruptedMessage (1 # 4)%Q;
           AudioTranscriber.Decoded 0]
          (AudioTranscriber.steps (H:=exampleAudioUtils) firstEvents
             openedTranscriber)))
  = {[6%nat]}.
Proof.
  pose proof (suspended_chunk_survives_interruption (H:=exampleAudioUtils)
                0%nat _ (1 # 4)%Q
                (AudioTranscriber.steps (H:=exampleAudioUtils)
                   [AudioTranscriber.Message (audioMessage "abcd") 0%Q]
                   (AudioTranscriber.steps (H:=exampleAudioUtils) firstEvents
                      openedTranscriber))
                eq_refl eq_refl) as (_ & Hset & _).
  exact Hset.
Defined.

(** A transcriber that has played one chunk, so that a source is in the
    handle set and the clock is past 0, is interrupted at a quarter of a
    second and hears the next chunk at half a second. *)
Lemma chunk_after_interruption_witness :
  In (SourceStop 5)
     (since (AudioTranscriber.browser
               (AudioTranscriber.steps (H:=exampleAudioUtils) firstEvents
                  openedTranscriber))
        (AudioTranscriber.browser
           (AudioTranscriber.step (H:=exampleAudioUtils)
              (AudioTranscriber.steps (H:=exampleAudioUtils) firstEvents
                 openedTranscriber)
              (AudioTranscriber.Message interruptedMessage (1 # 4)%Q))))
  /\ audioSourcesRef
       (AudioTranscriber.refs
          (AudioTranscriber.steps (H:=exampleAudioUtils)
             [AudioTranscriber.Message (audioMessage "abcd") (1 # 2)%Q;
              AudioTranscriber.Decoded 0]
             (AudioTranscriber.step (H:=exampleAudioUtils)
                (AudioTranscriber.steps (H:=exampleAudioUtils) firstEvents
                   openedTranscriber)
                (AudioTranscriber.Message interruptedMessage (1 # 4)%Q))))
     = {[6%nat]}.
Proof.
  pose proof (chunk_after_interruption_plays_at_once (H:=exampleAudioUtils)
                "abcd" 0%nat (1 # 4)%Q (1 # 2)%Q
                (AudioTranscriber.steps (H:=exampleAudioUtils) firstEvents
                   openedTranscriber)
                ltac:(discriminate) eq_refl eq_refl
                ltac:(vm_compute; congruence))
    as (Hstop & _ & Hset).
  split; [apply Hstop; vm_compute; reflexivity|exact Hset].
Defined.

End EnqueueFacts.

(** ** What a teardown releases *)
Module ReleaseFacts.
Import Release.

Lemma closeUnlessClosed_log ctx b :
  log (closeUnlessClosed ctx b) = log b ++ closeCalls ctx b.
Proof.
  unfold closeUnlessClosed, closeCalls. destruct ctx as [c|].
  - destruct (decide (c ∈ closedContexts b)); [by rewrite app_nil_r|done].
  - by rewrite app_nil_r.
Qed.

(** The guard reads the [state] attribute, and [close()] does not change
    it. *)
Lemma closeUnlessClosed_contexts ctx b :
  closedContexts (closeUnlessClosed ctx b) = closedContexts b.
Proof.
  unfold closeUnlessClosed. destruct ctx as [c|]; [|done].
  by destruct (decide (c ∈ closedContexts b)).
Qed.

Lemma closeCalls_closes ctx b c :
  In (ContextClose c) (closeCalls ctx b) <-> ctx = Some c /\ c ∉ closedContexts b.
Proof.
  unfold closeCalls. destruct ctx as [c'|].
  - destruct (decide (c' ∈ closedContexts b)) as [Hin|Hout].
    + split; [intros []|]. intros [[= ->] Hn]. by destruct Hn.
    + split.
      * intros [[= <-]|[]]. done.
      * intros [[= ->] _]. by left.
  - split; [intros []|]. by intros [[=] _].
Qed.

Lemma releaseResources_before_closes r b :
  closedContexts
    (disconnectNode (mediaStreamSourceRef r)
       (disconnectNode (scriptProcessorRef r) (stopTracks (mediaStreamRef r) b)))
  = closedContexts b
  /\ log (disconnectNode (mediaStreamSourceRef r)
            (disconnectNode (scriptProcessorRef r) (stopTracks (mediaStreamRef r) b)))
     = log b ++ (TrackStop <$> default [] (mediaStreamRef r))
         ++ (NodeDisconnect <$> option_list (scriptProcessorRef r))
         ++ (NodeDisconnect <$> option_list (mediaStreamSourceRef r)).
Proof.
  destruct (mediaStreamRef r), (scriptProcessorRef r), (mediaStreamSourceRef r);
    cbn; rewrite <- ?app_assoc, ?app_nil_r; done.
Qed.

Lemma closeCalls_same_contexts ctx b b' :
  closedContexts b' = closedContexts b -> closeCalls ctx b' = closeCalls ctx b.
Proof. intros Heq. unfold closeCalls. by rewrite Heq. Qed.

(** The log after a teardown is the log before it followed by
    [releaseCalls]. *)
Lemma releaseResources_log r b :
  log (releaseResources r b) = log b ++ releaseCalls r b.
Proof.
  unfold releaseResources, releaseCalls.
  destruct (releaseResources_before_closes r b) as [Hc Hl].
  rewrite !closeUnlessClosed_log, Hl, <- !app_assoc.
  rewrite (closeCalls_same_contexts (inputAudioContextRef r) b _ Hc).
  rewrite (closeCalls_same_contexts (outputAudioContextRef r) b
             (closeUnlessClosed _ _)).
  - reflexivity.
  - by rewrite closeUnlessClosed_contexts.
Qed.

Lemma releaseResources_contexts r b :
  closedContexts (releaseResources r b) = closedContexts b.
Proof.
  unfold releaseResources. rewrite !closeUnlessClosed_contexts.
  apply releaseResources_before_closes.
Qed.

(** A teardown calls [close()] on a context exactly when the refs hold it
    and its state does not read closed. *)
Lemma releaseCalls_closes r b c :
  In (ContextClose c) (releaseCalls r b)
  <-> (c ∉ closedContexts b)
      /\ (inputAudioContextRef r = Some c \/ outputAudioContextRef r = Some c).
Proof.
  unfold releaseCalls. rewrite !in_app_iff, !closeCalls_closes. split.
  - intros [Hin|[Hin|[Hin|[[Hc Hn]|[Hc Hn]]]]]; [| | |by auto|by auto];
      apply list_elem_of_In, list_elem_of_fmap in Hin as (? & [=] & _).
  - intros [Hn [Hc|Hc]]; [right; right; right; left|right; right; right; right];
      done.
Qed.

Lemma releaseCalls_releases r b :
  (forall tracks t, mediaStreamRef r = Some tracks -> t ∈ tracks ->
                    In (TrackStop t) (releaseCalls r b))
  /\ (forall n, scriptProcessorRef r = Some n ->
                In (NodeDisconnect n) (releaseCalls r b))
  /\ (forall n, mediaStreamSourceRef r = Some n ->
                In (NodeDisconnect n) (releaseCalls r b)).
Proof.
  unfold releaseCalls. split; [|split].
  - intros tracks t -> Ht. apply in_or_app. left.
    apply list_elem_of_In, list_elem_of_fmap. by exists t.
  - intros n ->. apply in_or_app. right. apply in_or_app. left. by left.
  - intros n ->. do 2 (apply in_or_app; right). apply in_or_app. left. by left.
Qed.

Lemma releaseCalls_only_release r b o :
  In o (releaseCalls r b) -> releaseOp o.
Proof.
  unfold releaseCalls, closeCalls. rewrite !in_app_iff.
  intros [Hin|[Hin|[Hin|[Hin|Hin]]]].
  - apply list_elem_of_In, list_elem_of_fmap in Hin as (? & -> & _). exact I.
  - apply list_elem_of_In, list_elem_of_fmap in Hin as (? & -> & _). exact I.
  - apply list_elem_of_In, list_elem_of_fmap in Hin as (? & -> & _). exact I.
  - destruct (inputAudioContextRef r); [|destruct Hin].
    case_decide; [destruct Hin|]. destruct Hin as [<-|[]]. exact I.
  - destruct (outputAudioContextRef r); [|destruct Hin].
    case_decide; [destruct Hin|]. destruct Hin as [<-|[]]. exact I.
Qed.

Lemma emits_nil b : emits [] b = b.
Proof. destruct b. unfold emits. cbn. by rewrite app_nil_r. Qed.

Lemma emits_emit o os b : emits os (emit o b) = emits (o :: os) b.
Proof. unfold emits, emit. cbn. by rewrite <- app_assoc. Qed.

(** A browser whose log holds the calls of a teardown of [r] made when the
    closed contexts were those of [b] shows the release. *)
Lemma released_by_teardown r b before after b' :
  log b' = (log b ++ before) ++ releaseCalls r (emits before b) ++ after ->
  released r b b'.
Proof.
  intros Hlog.
  destruct (releaseCalls_releases r (emits before b)) as (Ht & Hp & Hn).
  assert (Hsince : Scheduler.since b b'
                   = before ++ releaseCalls r (emits before b) ++ after).
  { unfold Scheduler.since. by rewrite Hlog, <- app_assoc, drop_app_length. }
  assert (Hclose : forall c,
             inputAudioContextRef r = Some c \/ outputAudioContextRef r = Some c ->
             closedOrClosing c b b').
  { intros c Hc. unfold closedOrClosing. rewrite Hsince.
    destruct (decide (c ∈ closedContexts b)) as [Hin|Hout]; [by left|right].
    apply in_or_app. right. apply in_or_app. left.
    apply releaseCalls_closes. by split. }
  unfold released. rewrite Hsince.
  split; [|split; [|split; [|split]]].
  - intros tracks t H1 H2. apply in_or_app. right. apply in_or_app. left. eauto.
  - intros n H1. apply in_or_app. right. apply in_or_app. left. eauto.
  - intros n H1. apply in_or_app. right. apply in_or_app. left. eauto.
  - intros c Hc. apply Hclose. by left.
  - intros c Hc. apply Hclose. by right.
Qed.

(** *** The state attribute, later *)

Lemma closeCalled_In c l : closeCalled c l = true <-> In (ContextClose c) l.
Proof.
  unfold closeCalled. rewrite existsb_exists. split.
  - intros (o & Hin & Ho). destruct o; try discriminate Ho.
    apply bool_decide_eq_true in Ho. by subst.
  - intros Hin. exists (ContextClose c). split; [exact Hin|].
    by apply bool_decide_eq_true.
Qed.

Lemma contextsStateClosed_frame ctxs b :
  log (contextsStateClosed ctxs b) = log b
  /\ localStorage (contextsStateClosed ctxs b) = localStorage b
  /\ nextObject (contextsStateClosed ctxs b) = nextObject b
  /\ (forall c, c ∈ closedContexts (contextsStateClosed ctxs b)
                <-> c ∈ closedContexts b \/ (c ∈ ctxs /\ In (ContextClose c) (log b))).
Proof.
  induction ctxs as [|x ctxs (Hl & Hs & Hn & Hc)]; cbn [contextsStateClosed foldr].
  - repeat split; try done; [by left|]. intros [Hin|[Hin _]]; [done|].
    by apply elem_of_nil in Hin.
  - fold (contextsStateClosed ctxs b). unfold contextStateClosed. rewrite Hl.
    destruct (closeCalled x (log b)) eqn:Ex; cbn.
    + apply closeCalled_In in Ex. repeat split; try done.
      * rewrite elem_of_union, elem_of_singleton, Hc, elem_of_cons.
        intros [->|[Hin|[Hin Hcall]]]; auto.
      * rewrite elem_of_union, elem_of_singleton, Hc, elem_of_cons.
        intros [Hin|[[->|Hin] Hcall]]; auto.
    + assert (Hno : ~ In (ContextClose x) (log b))
        by (rewrite <- closeCalled_In; congruence).
      repeat split; try done.
      * rewrite Hc, elem_of_cons. intros [Hin|[Hin Hcall]]; auto.
      * rewrite Hc, elem_of_cons. intros [Hin|[[->|Hin] Hcall]]; auto. done.
Qed.

(** A second teardown: [b1] is the browser some time after a teardown of
    [r] that found the closed contexts of [b], and the contexts [settled]
    reach the closed state before the teardown runs again. It calls
    [close()] again on the contexts it holds that were not closed before
    the first run and are not among [settled]. *)
Lemma second_release_closes r r' b b1 settled c :
  inputAudioContextRef r' = inputAudioContextRef r ->
  outputAudioContextRef r' = outputAudioContextRef r ->
  closedContexts b1 = closedContexts b ->
  (forall c, In (ContextClose c) (releaseCalls r b) -> In (ContextClose c) (log b1)) ->
  In (ContextClose c) (releaseCalls r' (contextsStateClosed settled b1))
  <-> (inputAudioContextRef r = Some c \/ outputAudioContextRef r = Some c)
      /\ (c ∉ closedContexts b) /\ (c ∉ settled).
Proof.
  intros Hi Ho Hcl Hcalled.
  destruct (contextsStateClosed_frame settled b1) as (_ & _ & _ & Hc).
  rewrite releaseCalls_closes, Hi, Ho, Hc, Hcl. split.
  - intros [Hn Hheld]. split; [exact Hheld|].
    split; [intros Hin; apply Hn; by left|].
    intros Hs. apply Hn. right. split; [exact Hs|].
    apply Hcalled, releaseCalls_closes. split; [|exact Hheld].
    intros Hin. apply Hn. by left.
  - intros (Hheld & Hn & Hs). split; [|exact Hheld].
    intros [Hin|[Hin _]]; done.
Qed.

Section Transcriber.
Import AudioTranscriber.
Context `{JSON (list AudioHistoryItem)}.

Lemma handleSessionEnded_frame render idNow timestampNow s :
  let s' := handleSessionEnded render idNow timestampNow s in
  log (browser s') = log (browser s) ++ releaseCalls (refs s) (browser s)
  /\ closedContexts (browser s') = closedContexts (browser s)
  /\ refs s' = set_sessionPromiseRef None (refs s)
  /\ isSessionActive (ui s') = false
  /\ conversation (ui s') = conversation (ui s)
  /\ awaiting s' = awaiting s.
Proof.
  cbv zeta. unfold handleSessionEnded.
  rewrite <- releaseResources_log, <- (releaseResources_contexts (refs s) (browser s)).
  destruct (bool_decide _ && bool_decide _);
    [unfold saveToHistory; case_decide|]; cbn; done.
Qed.

Lemma handleSessionEnded_released render idNow timestampNow s :
  released (refs s) (browser s)
           (browser (handleSessionEnded render idNow timestampNow s)).
Proof.
  destruct (handleSessionEnded_frame render idNow timestampNow s) as (Hl & _).
  apply (released_by_teardown _ _ [] []).
  by rewrite emits_nil, !app_nil_r.
Qed.

Lemma onerror_released render idNow timestampNow s :
  released (refs s) (browser s) (browser (onerror render idNow timestampNow s)).
Proof.
  unfold onerror.
  destruct (handleSessionEnded_frame render idNow timestampNow
              (with_ui (setError (Some "session_interrupted"))
                 (with_browser (emit ConsoleError) s))) as (Hl & _).
  apply (released_by_teardown _ _ [ConsoleError] []).
  rewrite Hl, app_nil_r. reflexivity.
Qed.

End Transcriber.

Section DeepDive.
Import VideoProcessor.

Lemma handleDeepDiveSessionEnded_released render s :
  released (refs s) (browser s) (browser (handleDeepDiveSessionEnded render s)).
Proof.
  destruct (DeepDiveScheduling.handleDeepDiveSessionEnded_frame render s)
    as (_ & Hb & _).
  apply (released_by_teardown _ _ [] []).
  by rewrite emits_nil, !app_nil_r, Hb, releaseResources_log.
Qed.

Lemma stopDeepDive_log render s :
  log (browser (stopDeepDive render s))
  = log (browser s) ++ releaseCalls (refs s) (browser s)
      ++ (SessionClose <$> option_list (sessionPromiseRef (refs s)))
  /\ closedContexts (browser (stopDeepDive render s)) = closedContexts (browser s)
  /\ inputAudioContextRef (refs (stopDeepDive render s))
     = inputAudioContextRef (refs s)
  /\ outputAudioContextRef (refs (stopDeepDive render s))
     = outputAudioContextRef (refs s).
Proof.
  destruct (ToolCallFacts.stopDeepDive_browser render s) as [Hb _].
  rewrite Hb. cbn [log closedContexts emits].
  rewrite releaseResources_log, releaseResources_contexts, <- app_assoc.
  split; [done|]. split; [done|].
  unfold stopDeepDive, handleDeepDiveSessionEnded.
  destruct (sessionPromiseRef (refs s)); by case_decide.
Qed.

Lemma stopDeepDive_released render s :
  released (refs s) (browser s) (browser (stopDeepDive render s)).
Proof.
  destruct (stopDeepDive_log render s) as (Hl & _).
  apply (released_by_teardown _ _ []
           (SessionClose <$> option_list (sessionPromiseRef (refs s)))).
  by rewrite emits_nil, app_nil_r, Hl.
Qed.

Lemma deepDive_onerror_released render s :
  released (refs s) (browser s) (browser (onerror render s)).
Proof.
  unfold onerror.
  match goal with |- context [stopDeepDive render ?x] =>
    destruct (stopDeepDive_log render x) as (Hl & _) end.
  apply (released_by_teardown _ _ [ConsoleError]
           (SessionClose <$> option_list (sessionPromiseRef (refs s)))).
  rewrite Hl. cbn. by rewrite <- !app_assoc.
Qed.

End DeepDive.

(** X8. Every exit path releases what the session holds. Whatever the
    refs hold when a teardown runs - on close, on a transport error, or on
    a stop of the deep dive - each track of the microphone stream is
    stopped, the processor and the stream source are disconnected, and
    [close()] is called on the input and on the output context unless the
    state of the context reads closed already. *)
Theorem every_exit_path_releases
    `{JSON (list AudioTranscriber.AudioHistoryItem)}
    renderA idNow timestampNow (sa : AudioTranscriber.State)
    renderV (sv : VideoProcessor.State) :
  released (AudioTranscriber.refs sa) (AudioTranscriber.browser sa)
    (AudioTranscriber.browser (AudioTranscriber.onclose renderA idNow timestampNow sa))
  /\ released (AudioTranscriber.refs sa) (AudioTranscriber.browser sa)
       (AudioTranscriber.browser (AudioTranscriber.onerror renderA idNow timestampNow sa))
  /\ released (VideoProcessor.refs sv) (VideoProcessor.browser sv)
       (VideoProcessor.browser (VideoProcessor.onclose renderV sv))
  /\ released (VideoProcessor.refs sv) (VideoProcessor.browser sv)
       (VideoProcessor.browser (VideoProcessor.onerror renderV sv))
  /\ released (VideoProcessor.refs sv) (VideoProcessor.browser sv)
       (VideoProcessor.browser (VideoProcessor.stopDeepDive renderV sv)).
Proof.
  split; [apply handleSessionEnded_released|].
  split; [apply onerror_released|].
  split; [apply handleDeepDiveSessionEnded_released|].
  split; [apply deepDive_onerror_released|apply stopDeepDive_released].
Qed.

(** X9. A transport error is followed by a close, so the teardown runs
    twice; in between, the contexts [settled] reach the closed state. The
    second run makes release calls only: it asks for no remote close, and
    in the audio transcriber it saves nothing more, so the history list
    and the storage are as the first run left them. It calls [close()]
    again on exactly those contexts the refs hold whose state did not
    read closed before the first run and has not become closed since. *)
Theorem second_teardown_repeats_release
    `{JSON (list AudioTranscriber.AudioHistoryItem)}
    render1 id1 ts1 render2 id2 ts2 (sa : AudioTranscriber.State)
    (settledA : list nat)
    renderV1 renderV2 (sv : VideoProcessor.State) (settledV : list nat) :
  let sa1 := AudioTranscriber.onerror render1 id1 ts1 sa in
  let sa1' := AudioTranscriber.with_browser (contextsStateClosed settledA) sa1 in
  let sa2 := AudioTranscriber.onclose render2 id2 ts2 sa1' in
  let sv1 := VideoProcessor.onerror renderV1 sv in
  let sv1' := VideoProcessor.with_browser (contextsStateClosed settledV) sv1 in
  let sv2 := VideoProcessor.onclose renderV2 sv1' in
  AudioTranscriber.history (AudioTranscriber.ui sa2)
    = AudioTranscriber.history (AudioTranscriber.ui sa1)
  /\ localStorage (AudioTranscriber.browser sa2)
     = localStorage (AudioTranscriber.browser sa1)
  /\ (forall o, In o (Scheduler.since (AudioTranscriber.browser sa1')
                                      (AudioTranscriber.browser sa2)) ->
                releaseOp o)
  /\ (forall c, In (ContextClose c)
                   (Scheduler.since (AudioTranscriber.browser sa1')
                                    (AudioTranscriber.browser sa2))
                <-> (inputAudioContextRef (AudioTranscriber.refs sa) = Some c
                     \/ outputAudioContextRef (AudioTranscriber.refs sa) = Some c)
                    /\ (c ∉ closedContexts (AudioTranscriber.browser sa))
                    /\ (c ∉ settledA))
  /\ (forall o, In o (Scheduler.since (VideoProcessor.browser sv1')
                                      (VideoProcessor.browser sv2)) ->
                releaseOp o)
  /\ (forall c, In (ContextClose c)
                   (Scheduler.since (VideoProcessor.browser sv1')
                                    (VideoProcessor.browser sv2))
                <-> (inputAudioContextRef (VideoProcessor.refs sv) = Some c
                     \/ outputAudioContextRef (VideoProcessor.refs sv) = Some c)
                    /\ (c ∉ closedContexts (VideoProcessor.browser sv))
                    /\ (c ∉ settledV)).
Proof.
  intros sa1 sa1' sa2 sv1 sv1' sv2.
  (* the transcriber *)
  destruct (handleSessionEnded_frame render1 id1 ts1
              (AudioTranscriber.with_ui
                 (AudioTranscriber.setError (Some "session_interrupted"))
                 (AudioTranscriber.with_browser (emit ConsoleError) sa)))
    as (Hl1 & Hc1 & Hr1 & _).
  fold (AudioTranscriber.onerror render1 id1 ts1 sa) in Hl1, Hc1, Hr1.
  fold sa1 in Hl1, Hc1, Hr1.
  cbn [AudioTranscriber.refs AudioTranscriber.browser AudioTranscriber.with_ui
       AudioTranscriber.with_browser closedContexts emit log] in Hl1, Hc1, Hr1.
  destruct (handleSessionEnded_frame render2 id2 ts2 sa1') as (Hl2 & _).
  fold (AudioTranscriber.onclose render2 id2 ts2 sa1') in Hl2. fold sa2 in Hl2.
  assert (Hrefs : AudioTranscriber.refs sa1' = AudioTranscriber.refs sa1)
    by reflexivity.
  assert (Hsess : sessionPromiseRef (AudioTranscriber.refs sa1') = None)
    by (by rewrite Hrefs, Hr1).
  destruct (contextsStateClosed_frame settledA (AudioTranscriber.browser sa1))
    as (Hlog' & Hst' & _).
  assert (HsinceA : Scheduler.since (AudioTranscriber.browser sa1')
                      (AudioTranscriber.browser sa2)
                    = releaseCalls (AudioTranscriber.refs sa1')
                        (AudioTranscriber.browser sa1'))
    by (unfold Scheduler.since; by rewrite Hl2, drop_app_length).
  assert (Hidle : forall s,
             sessionPromiseRef (AudioTranscriber.refs s) = None ->
             AudioTranscriber.history
               (AudioTranscriber.ui (AudioTranscriber.onclose render2 id2 ts2 s))
             = AudioTranscriber.history (AudioTranscriber.ui s)
             /\ localStorage
                  (AudioTranscriber.browser (AudioTranscriber.onclose render2 id2 ts2 s))
                = localStorage (AudioTranscriber.browser s)).
  { intros s Hs. unfold AudioTranscriber.onclose, AudioTranscriber.handleSessionEnded.
    cbn [AudioTranscriber.refs AudioTranscriber.with_browser]. rewrite Hs.
    split; [reflexivity|]. cbn. apply TeardownFacts.releaseResources_frame. }
  destruct (Hidle sa1' Hsess) as [Hhist Hstore].
  split; [exact Hhist|]. split; [etrans; [exact Hstore|exact Hst']|].
  split; [|split; [|split]].
  - intros o. rewrite HsinceA. apply releaseCalls_only_release.
  - intros c. rewrite HsinceA.
    apply (second_release_closes (AudioTranscriber.refs sa) _
             (AudioTranscriber.browser sa) (AudioTranscriber.browser sa1)).
    + by rewrite Hrefs, Hr1.
    + by rewrite Hrefs, Hr1.
    + exact Hc1.
    + intros c' Hin. rewrite Hl1. apply in_or_app. right.
      apply releaseCalls_closes. apply releaseCalls_closes in Hin. exact Hin.
  - (* the deep dive *)
    destruct (DeepDiveScheduling.handleDeepDiveSessionEnded_frame renderV2 sv1')
      as (_ & Hb2 & _).
    fold (VideoProcessor.onclose renderV2 sv1') in Hb2. fold sv2 in Hb2.
    intros o. unfold Scheduler.since.
    rewrite Hb2, releaseResources_log, drop_app_length.
    apply releaseCalls_only_release.
  - destruct (DeepDiveScheduling.handleDeepDiveSessionEnded_frame renderV2 sv1')
      as (_ & Hb2 & _).
    fold (VideoProcessor.onclose renderV2 sv1') in Hb2. fold sv2 in Hb2.
    intros c. unfold Scheduler.since.
    rewrite Hb2, releaseResources_log, drop_app_length.
    assert (Hsv1 : sv1 = VideoProcessor.stopDeepDive renderV1
                           (VideoProcessor.with_ui
                              (VideoProcessor.setDeepDiveError (Some "session_interrupted"))
                              (VideoProcessor.with_browser (emit ConsoleError) sv)))
      by reflexivity.
    set (sv0 := VideoProcessor.with_ui _ _) in Hsv1.
    destruct (stopDeepDive_log renderV1 sv0) as (Hl1v & Hc1v & Hi & Ho).
    rewrite <- Hsv1 in Hl1v, Hc1v, Hi, Ho.
    apply (second_release_closes (VideoProcessor.refs sv) _
             (VideoProcessor.browser sv) (VideoProcessor.browser sv1)).
    + exact Hi.
    + exact Ho.
    + exact Hc1v.
    + intros c' Hin. rewrite Hl1v. apply in_or_app. right.
      apply in_or_app. left.
      apply releaseCalls_closes. apply releaseCalls_closes in Hin. exact Hin.
Qed.

End ReleaseFacts.

(** ** The history lists *)
Module HistoryListFacts.

Lemma take_cons_take {A} n (x : A) l :
  take (S n) (x :: take (S n) l) = take (S n) (x :: l).
Proof.
  cbn [take]. f_equal. rewrite take_take. f_equal. lia.
Qed.

Section Video.
Import VideoProcessor VideoHistory.
Context `{JSON (list VideoHistoryItem)}.

Lemma saveAnalysis_history s a :
  history (ui (saveAnalysis s a)) = take 10 (itemOf a :: history (ui s))
  /\ localStorage (browser (saveAnalysis s a)) !! historyKey
     = Some (JSON_stringify (take 10 (itemOf a :: history (ui s)))).
Proof.
  destruct a as [[[res name] idNow] timestampNow]. cbn.
  split; [reflexivity|]. apply lookup_insert_eq.
Qed.

Lemma saveAnalyses_take ans s :
  take 10 (history (ui (saveAnalyses ans s)))
  = take 10 (reverse (itemOf <$> ans) ++ history (ui s)).
Proof.
  induction ans as [|a ans IH] using rev_ind; [reflexivity|].
  unfold saveAnalyses in *. rewrite foldl_app. cbn [foldl].
  destruct (saveAnalysis_history (foldl saveAnalysis s ans) a) as [-> _].
  rewrite fmap_app, reverse_app. cbn [fmap list_fmap reverse app].
  rewrite take_take. cbn [Nat.min]. rewrite <- take_cons_take, IH, take_cons_take.
  reflexivity.
Qed.

(** X10. The history of the video page is capped and ordered. After
    analyses saved one after the other, each from the render that follows
    the save before it, the history is the ten most recent entries, the
    most recent first: the new items in reverse order of saving, then the
    old ones, cut at ten; and the storage holds the serialization of that
    very list. *)
Theorem video_history_keeps_ten_most_recent ans a s :
  let s' := saveAnalyses (ans ++ [a]) s in
  history (ui s')
  = take 10 (itemOf a :: reverse (itemOf <$> ans) ++ history (ui s))
  /\ (length (history (ui s')) <= 10)%nat
  /\ localStorage (browser s') !! historyKey
     = Some (JSON_stringify (history (ui s'))).
Proof.
  cbv zeta. unfold saveAnalyses. rewrite foldl_app. cbn [foldl].
  fold (saveAnalyses ans s).
  destruct (saveAnalysis_history (saveAnalyses ans s) a) as [Hh Hl].
  rewrite Hl, Hh. split; [|split; [|reflexivity]].
  - rewrite <- take_cons_take, saveAnalyses_take, take_cons_take. reflexivity.
  - rewrite length_take. lia.
Qed.

Lemma video_reload storage l :
  storage !! historyKey = Some (JSON_stringify l) ->
  JSON_stringify l <> EmptyString ->
  JSON_parse (JSON_stringify l) = Some l ->
  history (ui (loadHistory (initialState storage))) = l.
Proof.
  intros Hget Hne Hparse. unfold loadHistory. cbn [browser initialState localStorage].
  rewrite Hget. destruct (JSON_stringify l) as [|c rest]; [done|].
  by rewrite Hparse.
Qed.

End Video.

Section Audio.
Import AudioTranscriber.
Context `{JSON (list AudioHistoryItem)}.

Lemma audio_reload storage l :
  storage !! historyKey = Some (JSON_stringify l) ->
  JSON_stringify l <> EmptyString ->
  JSON_parse (JSON_stringify l) = Some l ->
  history (ui (loadHistory (initialState storage))) = l.
Proof.
  intros Hget Hne Hparse. unfold loadHistory. cbn [browser initialState localStorage].
  rewrite Hget. destruct (JSON_stringify l) as [|c rest]; [done|].
  by rewrite Hparse.
Qed.

End Audio.

(** X11. What is saved is what the next visit shows. When the
    serialization of the saved list is not empty and parses back to the
    list, a component mounted on the storage left by a save loads exactly
    the history the save produced: the analysis just saved on the video
    page, the conversation just saved in the audio transcriber. *)
Theorem saved_history_is_loaded_again
    `{JSON (list VideoProcessor.VideoHistoryItem)}
    `{JSON (list AudioTranscriber.AudioHistoryItem)}
    (sv : VideoProcessor.State) a
    (render : AudioTranscriber.UI) turn conv idNow timestampNow
    (sa : AudioTranscriber.State) :
  let sv' := VideoHistory.saveAnalysis sv a in
  let sa' := AudioTranscriber.saveToHistory render (turn :: conv) idNow timestampNow sa in
  let lv := VideoProcessor.history (VideoProcessor.ui sv') in
  let la := AudioTranscriber.history (AudioTranscriber.ui sa') in
  JSON_stringify lv <> EmptyString -> JSON_parse (JSON_stringify lv) = Some lv ->
  JSON_stringify la <> EmptyString -> JSON_parse (JSON_stringify la) = Some la ->
  VideoProcessor.history
    (VideoProcessor.ui
       (VideoProcessor.loadHistory
          (VideoProcessor.initialState (localStorage (VideoProcessor.browser sv')))))
  = lv
  /\ AudioTranscriber.history
       (AudioTranscriber.ui
          (AudioTranscriber.loadHistory
             (AudioTranscriber.initialState
                (localStorage (AudioTranscriber.browser sa')))))
     = la.
Proof.
  intros sv' sa' lv la Hv1 Hv2 Ha1 Ha2. split.
  - apply video_reload; [|exact Hv1|exact Hv2].
    subst lv sv'. destruct (saveAnalysis_history sv a) as [Hh Hl].
    rewrite Hh. exact Hl.
  - apply audio_reload; [|exact Ha1|exact Ha2].
    subst la sa'. unfold AudioTranscriber.saveToHistory. cbn.
    apply lookup_insert_eq.
Qed.

Lemma saved_history_witness :
  VideoProcessor.history
    (VideoProcessor.ui
       (VideoProcessor.loadHistory
          (H0:=memoJSON [VideoProcessor.mkItem "7" 8 "clip.mp4"
                           (VideoProcessor.mkResult
                              (VideoProcessor.mkSummary "brief" "detailed" []) [])])
          (VideoProcessor.initialState
             (localStorage
                (VideoProcessor.browser
                   (VideoHistory.saveAnalysis
                      (H:=memoJSON [VideoProcessor.mkItem "7" 8 "clip.mp4"
                                      (VideoProcessor.mkResult
                                         (VideoProcessor.mkSummary "brief" "detailed" [])
                                         [])])
                      analysedPage
                      (VideoProcessor.mkResult
                         (VideoProcessor.mkSummary "brief" "detailed" []) [],
                       "clip.mp4", 7, 8)))))))
  = [VideoProcessor.mkItem "7" 8 "clip.mp4"
       (VideoProcessor.mkResult (VideoProcessor.mkSummary "brief" "detailed" []) [])].
Proof.
  pose proof (saved_history_is_loaded_again
                (H:=memoJSON [VideoProcessor.mkItem "7" 8 "clip.mp4"
                                (VideoProcessor.mkResult
                                   (VideoProcessor.mkSummary "brief" "detailed" []) [])])
                (H0:=memoJSON [AudioTranscriber.mkItem "7" 8
                                 [AudioTranscriber.mkTurn user "Hi" true]])
                analysedPage
                (VideoProcessor.mkResult
                   (VideoProcessor.mkSummary "brief" "detailed" []) [],
                 "clip.mp4", 7, 8)
                AudioTranscriber.initialUI
                (AudioTranscriber.mkTurn user "Hi" true) [] 7 8
                (AudioTranscriber.initialState ∅)
                ltac:(discriminate) ltac:(vm_compute; reflexivity)
                ltac:(discriminate) ltac:(vm_compute; reflexivity)) as [Hv _].
  exact Hv.
Defined.

(** X12. A cleared history stays cleared: after [clearHistory] the list is
    empty, the storage has no entry under the component's key, and a
    component mounted on that storage loads an empty history. *)
Theorem cleared_history_stays_cleared
    `{JSON (list VideoProcessor.VideoHistoryItem)}
    `{JSON (list AudioTranscriber.AudioHistoryItem)}
    (sv : VideoProcessor.State) (sa : AudioTranscriber.State) :
  let sv' := VideoHistory.clearHistory sv in
  let sa' := AudioTranscriber.clearHistory sa in
  VideoProcessor.history (VideoProcessor.ui sv') = []
  /\ localStorage (VideoProcessor.browser sv') !! VideoProcessor.historyKey = None
  /\ VideoProcessor.history
       (VideoProcessor.ui
          (VideoProcessor.loadHistory
             (VideoProcessor.initialState (localStorage (VideoProcessor.browser sv')))))
     = []
  /\ AudioTranscriber.history (AudioTranscriber.ui sa') = []
  /\ localStorage (AudioTranscriber.browser sa') !! AudioTranscriber.historyKey = None
  /\ AudioTranscriber.history
       (AudioTranscriber.ui
          (AudioTranscriber.loadHistory
             (AudioTranscriber.initialState
                (localStorage (AudioTranscriber.browser sa')))))
     = [].
Proof.
  cbv zeta.
  assert (Hv : localStorage (VideoProcessor.browser (VideoHistory.clearHistory sv))
               !! VideoProcessor.historyKey = None) by apply lookup_delete_eq.
  assert (Ha : localStorage (AudioTranscriber.browser (AudioTranscriber.clearHistory sa))
               !! AudioTranscriber.historyKey = None) by apply lookup_delete_eq.
  split; [reflexivity|]. split; [exact Hv|]. split.
  { unfold VideoProcessor.loadHistory.
    cbn [VideoProcessor.browser VideoProcessor.initialState localStorage].
    by rewrite Hv. }
  split; [reflexivity|]. split; [exact Ha|].
  unfold AudioTranscriber.loadHistory.
  cbn [AudioTranscriber.browser AudioTranscriber.initialState localStorage].
  by rewrite Ha.
Qed.

End HistoryListFacts.

(** ** What a session of the transcriber records *)
Module SessionRecordFacts.
Import AudioTranscriber TranscriberSession.

Lemma onmessage_tail_kept m s :
  history (ui (onmessage_tail m s)) = history (ui s)
  /\ localStorage (browser (onmessage_tail m s)) = localStorage (browser s)
  /\ sessionPromiseRef (refs (onmessage_tail m s)) = sessionPromiseRef (refs s)
  /\ outputAudioContextRef (refs (onmessage_tail m s))
     = outputAudioContextRef (refs s).
Proof.
  unfold onmessage_tail. by destruct (interrupted m), (turnComplete m).
Qed.

Section WithUtils.
Context `{AudioUtils} `{JSON (list AudioHistoryItem)}.

Lemma step_kept s e :
  history (ui (step s e)) = history (ui s)
  /\ localStorage (browser (step s e)) = localStorage (browser s)
  /\ sessionPromiseRef (refs (step s e)) = sessionPromiseRef (refs s)
  /\ outputAudioContextRef (refs (step s e)) = outputAudioContextRef (refs s).
Proof.
  destruct e as [m now|k|source]; cbn [step].
  - unfold onmessage_begin.
    assert (Hs1 : history (ui (onTranscription m s)) = history (ui s)
                  /\ localStorage (browser (onTranscription m s))
                     = localStorage (browser s)
                  /\ sessionPromiseRef (refs (onTranscription m s))
                     = sessionPromiseRef (refs s)
                  /\ outputAudioContextRef (refs (onTranscription m s))
                     = outputAudioContextRef (refs s)).
    { unfold onTranscription. by destruct (transcriptionOf m) as [[? ?]|]. }
    destruct Hs1 as (<- & <- & <- & <-).
    generalize (onTranscription m s). intros s1.
    destruct (audioToPlay m (refs s1)) as [[a ctx]|]; [done|].
    apply onmessage_tail_kept.
  - unfold onmessage_resume. destruct (awaiting s !! k) as [a|]; [|done].
    pose proof (SchedulerFacts.playBuffer_spec (aw_buffer a) (refs s) (browser s))
      as (_ & _ & _ & _ & Hls & Hsess).
    assert (Hout : outputAudioContextRef
                     (Scheduler.playBuffer (aw_buffer a) (refs s, browser s)).1
                   = outputAudioContextRef (refs s)) by reflexivity.
    destruct (Scheduler.playBuffer _ _) as [r b]. cbn [fst snd] in Hls, Hsess, Hout.
    destruct (onmessage_tail_kept (aw_message a)
                (mkState (ui s) r b (delete k (awaiting s))))
      as (-> & -> & -> & ->).
    done.
  - done.
Qed.

Lemma steps_kept es s :
  history (ui (steps es s)) = history (ui s)
  /\ localStorage (browser (steps es s)) = localStorage (browser s)
  /\ sessionPromiseRef (refs (steps es s)) = sessionPromiseRef (refs s)
  /\ outputAudioContextRef (refs (steps es s)) = outputAudioContextRef (refs s).
Proof.
  unfold steps. revert s. induction es as [|e es IH]; intros s; [done|].
  cbn [foldl]. destruct (IH (step s e)) as (-> & -> & -> & ->).
  apply step_kept.
Qed.

Lemma foldl_events render es s :
  foldl (call render) s (Event <$> es) = steps es s.
Proof.
  unfold steps. revert s. induction es as [|e es IH]; intros s; [done|].
  cbn. apply IH.
Qed.

(** X13. What the audio transcriber records at the end of a session is
    the conversation that was on the page when the start button was
    clicked, not the one transcribed since: the callbacks keep the render
    of the click. However many messages arrive between the opening and
    the close, a session started from an empty page records nothing, and
    one started from a page that shows a conversation records that
    conversation as the newest of at most ten entries. *)
Theorem session_records_the_page_it_started_from
    active shown err msg hist panel r b aw stream es idNow timestampNow :
  let s := mkState (mkUI active shown err msg hist panel) r b aw in
  let s' := session (Some stream)
              (Opened :: (Event <$> es) ++ [Closed idNow timestampNow]) s in
  history (ui s')
  = match shown with
    | [] => hist
    | _ :: _ => take 10 (mkItem (pretty idNow) timestampNow shown :: hist)
    end
  /\ sessionPromiseRef (refs s') = None
  /\ isSessionActive (ui s') = false.
Proof.
  intros s s'. subst s'. unfold session.
  cbn [foldl call]. rewrite foldl_app, foldl_events. cbn [foldl call].
  set (s1 := onopen (startSession (Some stream) s)).
  assert (H1 : history (ui s1) = hist /\ is_Some (sessionPromiseRef (refs s1)))
    by (subst s1; cbn; eauto).
  destruct H1 as [Hh1 Hs1].
  assert (H2 : history (ui (steps es s1)) = hist
               /\ is_Some (sessionPromiseRef (refs (steps es s1)))).
  { destruct (steps_kept es s1) as (Hh & _ & Hs & _). by rewrite Hh, Hs. }
  destruct H2 as [Hh2 Hs2]. generalize dependent (steps es s1). intros s2 Hh2 Hs2.
  unfold onclose, handleSessionEnded.
  cbn [refs with_browser ui s conversation].
  rewrite (bool_decide_eq_true_2 _ Hs2).
  destruct shown as [|turn shown].
  - cbn. split; [exact Hh2|done].
  - rewrite bool_decide_eq_true_2 by (cbn; lia). cbn. done.
Qed.

End WithUtils.
End SessionRecordFacts.

(** ** A refused microphone *)
Module RefusalFacts.
Import Scheduler SchedulerFacts.

Lemma silent_same_log b b1 b2 :
  log b2 = log b1 -> silent b b1 -> silent b b2.
Proof. intros Hl (extra & He & Hs). exists extra. by rewrite Hl. Qed.

Section Transcriber.
Import AudioTranscriber TranscriberSession.
Context `{AudioUtils} `{JSON (list AudioHistoryItem)}.

Lemma transcriber_call_mute render s c :
  awaiting s = [] -> outputAudioContextRef (refs s) = None ->
  awaiting (call render s c) = []
  /\ outputAudioContextRef (refs (call render s c)) = None
  /\ silent (browser s) (browser (call render s c)).
Proof.
  intros Ha Ho. destruct c as [|e|idNow ts|idNow ts]; cbn [call].
  - unfold onopen. cbn. split; [exact Ha|]. split; [exact Ho|].
    apply (silent_openCapture (refs s)).
  - destruct e as [m now|k|source]; cbn [step].
    + unfold onmessage_begin.
      destruct (TranscriptFacts.onTranscription_frame m s) as (Hr & Hb & Haw & _).
      rewrite <- Hr in Ho. rewrite <- Hb. rewrite <- Haw in Ha.
      generalize dependent (onTranscription m s). intros s1 Ha Ho _ _ _.
      unfold audioToPlay. rewrite Ho.
      replace (match inlineData m with
               | Some (String _ _) | _ => None
               end) with (@None (string * nat))
        by (by destruct (inlineData m) as [[|]|]).
      rewrite TranscriptFacts.onmessage_tail_awaiting.
      split; [exact Ha|].
      unfold onmessage_tail. destruct (interrupted m), (turnComplete m); cbn;
        (split; [exact Ho|]); try apply silent_refl;
        apply silent_emits; by apply segments_fmap_silent.
    + unfold onmessage_resume. rewrite Ha. cbn.
      split; [exact Ha|]. split; [exact Ho|apply silent_refl].
    + cbn. split; [exact Ha|]. split; [exact Ho|apply silent_refl].
  - unfold onerror.
    destruct (ReleaseFacts.handleSessionEnded_frame render idNow ts
                (with_ui (setError (Some "session_interrupted"))
                   (with_browser (emit ConsoleError) s)))
      as (Hlog & _ & Hrefs & _ & _ & Haw).
    split; [by rewrite Haw|]. split; [by rewrite Hrefs|].
    eapply silent_trans; [by apply (silent_emit ConsoleError)|].
    eapply silent_same_log;
      [rewrite Hlog, <- ReleaseFacts.releaseResources_log; reflexivity|].
    apply silent_releaseResources.
  - unfold onclose.
    destruct (ReleaseFacts.handleSessionEnded_frame render idNow ts s)
      as (Hlog & _ & Hrefs & _ & _ & Haw).
    split; [by rewrite Haw|]. split; [by rewrite Hrefs|].
    eapply silent_same_log;
      [rewrite Hlog, <- ReleaseFacts.releaseResources_log; reflexivity|].
    apply silent_releaseResources.
Qed.

Lemma transcriber_calls_mute render cs s :
  awaiting s = [] -> outputAudioContextRef (refs s) = None ->
  outputAudioContextRef (refs (foldl (call render) s cs)) = None
  /\ silent (browser s) (browser (foldl (call render) s cs)).
Proof.
  revert s. induction cs as [|c cs IH]; intros s Ha Ho.
  - split; [exact Ho|apply silent_refl].
  - cbn [foldl].
    destruct (transcriber_call_mute render s c Ha Ho) as (Ha1 & Ho1 & Hs1).
    destruct (IH _ Ha1 Ho1) as (Ho2 & Hs2).
    split; [exact Ho2|]. eapply silent_trans; eassumption.
Qed.

End Transcriber.

Section DeepDive.
Import VideoProcessor.
Context `{AudioUtils}.

Lemma handleDeepDiveSessionEnded_mute render s :
  awaiting (handleDeepDiveSessionEnded render s) = awaiting s
  /\ outputAudioContextRef (refs (handleDeepDiveSessionEnded render s))
     = outputAudioContextRef (refs s)
  /\ silent (browser s) (browser (handleDeepDiveSessionEnded render s)).
Proof.
  destruct (DeepDiveScheduling.handleDeepDiveSessionEnded_frame render s)
    as (Hs & _ & Hr & Ha).
  by rewrite Hr, Ha.
Qed.

Lemma stopDeepDive_mute render s :
  awaiting (stopDeepDive render s) = awaiting s
  /\ outputAudioContextRef (refs (stopDeepDive render s))
     = outputAudioContextRef (refs s)
  /\ silent (browser s) (browser (stopDeepDive render s)).
Proof.
  unfold stopDeepDive. cbv zeta.
  destruct (handleDeepDiveSessionEnded_mute render s) as (Ha & Ho & Hs).
  destruct (sessionPromiseRef (refs s)) as [session|];
    cbn [awaiting refs browser with_browser]; rewrite Ha, Ho.
  - split; [done|]. split; [done|].
    eapply silent_trans; [exact Hs|]. by apply silent_emit.
  - done.
Qed.

Lemma onToolCall_mute render m s :
  awaiting (onToolCall render m s) = awaiting s
  /\ outputAudioContextRef (refs (onToolCall render m s))
     = outputAudioContextRef (refs s)
  /\ silent (browser s) (browser (onToolCall render m s)).
Proof.
  unfold onToolCall.
  destruct (functionCalls m) as [[|fc fcs]|].
  - cbn. split; [done|]. split; [done|]. by apply silent_emit.
  - case_decide; [|split; [done|]; split; [done|apply silent_refl]].
    destruct (fc_args fc) as [args|];
      [|split; [done|]; split; [done|apply silent_refl]].
    apply (stopDeepDive_mute render
             (with_ui (setDeepDiveStatus complete)
                (with_ui (setLearningReport (Some args)) s))).
  - split; [done|]. split; [done|apply silent_refl].
Qed.

Lemma deepDive_step_mute render s e :
  awaiting s = [] -> outputAudioContextRef (refs s) = None ->
  awaiting (step render s e) = []
  /\ outputAudioContextRef (refs (step render s e)) = None
  /\ silent (browser s) (browser (step render s e)).
Proof.
  intros Ha Ho. destruct e as [|m now|k|source| |]; cbn [step].
  - unfold onopen. cbn. split; [exact Ha|]. split; [exact Ho|].
    apply (silent_openCapture (refs s)).
  - unfold onmessage_begin.
    destruct (DeepDiveScheduling.transcriptions_frame m s) as (Hr & Hb & Haw).
    rewrite <- Hr in Ho. rewrite <- Hb. rewrite <- Haw in Ha.
    generalize dependent (onTranscriptions m s). intros s1 Ha Ho _ _ _.
    unfold audioToPlay. rewrite Ho.
    replace (match inlineData m with
             | Some (String _ _) | _ => None
             end) with (@None (string * nat))
      by (by destruct (inlineData m) as [[|]|]).
    destruct (onToolCall_mute render m s1) as (Ha1 & Ho1 & Hs1).
    by rewrite Ha1, Ho1.
  - unfold onmessage_resume. rewrite Ha. cbn.
    split; [exact Ha|]. split; [exact Ho|apply silent_refl].
  - cbn. split; [exact Ha|]. split; [exact Ho|apply silent_refl].
  - unfold onerror.
    destruct (stopDeepDive_mute render
                (with_ui (setDeepDiveError (Some "session_interrupted"))
                   (with_browser (emit ConsoleError) s))) as (Ha1 & Ho1 & Hs1).
    rewrite Ha1, Ho1. split; [exact Ha|]. split; [exact Ho|].
    eapply silent_trans; [|exact Hs1]. by apply (silent_emit ConsoleError).
  - unfold onclose.
    destruct (handleDeepDiveSessionEnded_mute render s) as (Ha1 & Ho1 & Hs1).
    by rewrite Ha1, Ho1.
Qed.

Lemma deepDive_steps_mute render es s :
  awaiting s = [] -> outputAudioContextRef (refs s) = None ->
  outputAudioContextRef (refs (steps render es s)) = None
  /\ silent (browser s) (browser (steps render es s)).
Proof.
  unfold steps. revert s. induction es as [|e es IH]; intros s Ha Ho.
  - split; [exact Ho|apply silent_refl].
  - cbn [foldl].
    destruct (deepDive_step_mute render s e Ha Ho) as (Ha1 & Ho1 & Hs1).
    destruct (IH _ Ha1 Ho1) as (Ho2 & Hs2).
    split; [exact Ho2|]. eapply silent_trans; eassumption.
Qed.

End DeepDive.

Section Both.
Context `{AudioUtils} `{JSON (list AudioTranscriber.AudioHistoryItem)}.

(** X14. Nothing is played without an output context. On a page of either
    component where no output context has been made and no message is
    waiting for its audio, a start that is refused the microphone makes no
    context, and whatever callbacks follow (messages carrying audio
    included), the calls made on the browser start no source. The refused
    start itself leaves the transcriber inactive with the error
    [mic_permission], and leaves an analysed video page idle with the same
    error. *)
Theorem refused_microphone_plays_nothing
    (sa : AudioTranscriber.State) (cs : list TranscriberSession.callback)
    (sv : VideoProcessor.State) (es : list VideoProcessor.event) :
  AudioTranscriber.awaiting sa = [] ->
  outputAudioContextRef (AudioTranscriber.refs sa) = None ->
  VideoProcessor.awaiting sv = [] ->
  outputAudioContextRef (VideoProcessor.refs sv) = None ->
  let sa0 := AudioTranscriber.startSession None sa in
  let sa' := TranscriberSession.session None cs sa in
  let sv0 := VideoProcessor.startDeepDive (VideoProcessor.ui sv) None sv in
  let sv' := VideoProcessor.session None es sv in
  AudioTranscriber.error (AudioTranscriber.ui sa0) = Some "mic_permission"
  /\ AudioTranscriber.isSessionActive (AudioTranscriber.ui sa0) = false
  /\ outputAudioContextRef (AudioTranscriber.refs sa') = None
  /\ segments (since (AudioTranscriber.browser sa) (AudioTranscriber.browser sa'))
     = []
  /\ (is_Some (VideoProcessor.analysisResult (VideoProcessor.ui sv)) ->
      VideoProcessor.deepDiveError (VideoProcessor.ui sv0) = Some "mic_permission"
      /\ VideoProcessor.deepDiveStatus (VideoProcessor.ui sv0)
         = VideoProcessor.idle)
  /\ outputAudioContextRef (VideoProcessor.refs sv') = None
  /\ segments (since (VideoProcessor.browser sv) (VideoProcessor.browser sv'))
     = [].
Proof.
  intros Haa Hoa Hav Hov sa0 sa' sv0 sv'.
  assert (Hsince : forall b b', silent b b' -> segments (since b b') = []).
  { intros b b' (extra & Hl & Hs). unfold since.
    by rewrite Hl, drop_app_length. }
  split; [done|]. split; [done|].
  assert (Ha : outputAudioContextRef (AudioTranscriber.refs sa') = None
               /\ silent (AudioTranscriber.browser sa) (AudioTranscriber.browser sa')).
  { subst sa'. unfold TranscriberSession.session.
    destruct (transcriber_calls_mute (AudioTranscriber.ui sa) cs
                (AudioTranscriber.startSession None sa) Haa Hoa) as (Ho & Hs).
    split; [exact Ho|].
    eapply silent_trans; [|exact Hs]. by apply (silent_emit ConsoleError). }
  destruct Ha as [Hoa' Hsa'].
  split; [exact Hoa'|]. split; [by apply Hsince|].
  split.
  { intros [res Hres]. subst sv0. unfold VideoProcessor.startDeepDive.
    by rewrite Hres. }
  assert (Hv : outputAudioContextRef (VideoProcessor.refs sv') = None
               /\ silent (VideoProcessor.browser sv) (VideoProcessor.browser sv')).
  { subst sv'. unfold VideoProcessor.session.
    assert (H0v : VideoProcessor.awaiting sv0 = []
                  /\ outputAudioContextRef (VideoProcessor.refs sv0) = None
                  /\ silent (VideoProcessor.browser sv) (VideoProcessor.browser sv0)).
    { subst sv0. unfold VideoProcessor.startDeepDive.
      destruct (VideoProcessor.analysisResult (VideoProcessor.ui sv)); cbn.
      - split; [exact Hav|]. split; [exact Hov|]. by apply silent_emit.
      - split; [exact Hav|]. split; [exact Hov|apply silent_refl]. }
    destruct H0v as (Ha0 & Ho0 & Hs0).
    destruct (deepDive_steps_mute (VideoProcessor.ui sv) es sv0 Ha0 Ho0)
      as (Ho & Hs).
    split; [exact Ho|]. eapply silent_trans; eassumption. }
  destruct Hv as [Hov' Hsv']. split; [exact Hov'|by apply Hsince].
Qed.

End Both.

Lemma refused_microphone_witness :
  segments
    (since (AudioTranscriber.browser (AudioTranscriber.initialState ∅))
       (AudioTranscriber.browser
          (TranscriberSession.session (H:=exampleAudioUtils)
             (H0:=exampleJSON AudioTranscriber.AudioHistoryItem) None
             [TranscriberSession.Opened;
              TranscriberSession.Event
                (AudioTranscriber.Message (audioMessage "abcd") 0%Q);
              TranscriberSession.Event (AudioTranscriber.Decoded 0)]
             (AudioTranscriber.initialState ∅))))
  = [].
Proof.
  pose proof (refused_microphone_plays_nothing (H:=exampleAudioUtils)
                (H0:=exampleJSON AudioTranscriber.AudioHistoryItem)
                (AudioTranscriber.initialState ∅)
                [TranscriberSession.Opened;
                 TranscriberSession.Event
                   (AudioTranscriber.Message (audioMessage "abcd") 0%Q);
                 TranscriberSession.Event (AudioTranscriber.Decoded 0)]
                analysedPage
                [VideoProcessor.Open;
                 VideoProcessor.Message (audioMessage "abcd") 0%Q;
                 VideoProcessor.Decoded 0]
                eq_refl eq_refl eq_refl eq_refl) as (_ & _ & _ & Hplay & _).
  exact Hplay.
Defined.

End RefusalFacts.

(** ** The URL field, the quiz and failed analyses of the video page *)
Module VideoPageFacts.
Import VideoProcessor VideoPage.

Lemma prefix_split (a s : string) :
  String.prefix a s = true <-> exists post, s = a +:+ post.
Proof.
  revert s. induction a as [|c a IH]; intros s.
  - split; [intros _; by exists s|intros _; by destruct s].
  - destruct s as [|d s]; cbn [String.prefix].
    + split; [done|]. intros [post Hpost]. discriminate Hpost.
    + destruct (Ascii.ascii_dec c d) as [->|Hne].
      * rewrite IH. split; intros [post Hpost]; exists post.
        -- by subst s.
        -- by injection Hpost.
      * split; [done|]. intros [post Hpost]. cbn in Hpost.
        injection Hpost as Hd _. congruence.
Qed.

Lemma includes_split (a s : string) :
  includes a s = true <-> exists pre post, s = pre +:+ a +:+ post.
Proof.
  induction s as [|d s IH].
  - cbn [includes]. rewrite orb_false_r, prefix_split. split.
    + intros [post Hpost]. by exists EmptyString, post.
    + intros (pre & post & Hs). destruct pre as [|x pre]; [|discriminate Hs].
      by exists post.
  - cbn [includes]. rewrite orb_true_iff, prefix_split, IH. split.
    + intros [[post Hpost]|(pre & post & Hs)].
      * by exists EmptyString, post.
      * exists (String d pre), post. by subst s.
    + intros (pre & post & Hs). destruct pre as [|x pre].
      * left. by exists post.
      * right. injection Hs as _ Hs. by exists pre, post.
Qed.

Lemma endsWith_split (suffix s : string) :
  endsWith suffix s = true <-> exists stem, s = stem +:+ suffix.
Proof.
  induction s as [|d s IH].
  - cbn [endsWith]. rewrite orb_false_r, String.eqb_eq. split.
    + intros <-. by exists EmptyString.
    + intros [stem Hs]. destruct stem as [|x stem]; [done|discriminate Hs].
  - cbn [endsWith]. rewrite orb_true_iff, String.eqb_eq, IH. split.
    + intros [<-|[stem Hs]]; [by exists EmptyString|].
      exists (String d stem). by subst s.
    + intros [stem Hs]. destruct stem as [|x stem].
      * by left.
      * right. injection Hs as _ Hs. by exists stem.
Qed.

Lemma lower_append (a b : string) : lower (a +:+ b) = lower a +:+ lower b.
Proof. induction a as [|x a IH]; [reflexivity|]. simpl. by rewrite IH. Qed.

Lemma lower_split (s x y : string) :
  lower s = x +:+ y -> exists a b, s = a +:+ b /\ lower a = x /\ lower b = y.
Proof.
  revert s. induction x as [|c x IH]; intros s Hs.
  - by exists EmptyString, s.
  - destruct s as [|d s]; [discriminate Hs|].
    injection Hs as Hc Hs. destruct (IH s Hs) as (a & b & -> & Ha & Hb).
    exists (String d a), b. simpl. by rewrite Hc, Ha.
Qed.

(** The pattern with [$] and [i]: the input ends in a text whose
    lower-case form is [suffix]. *)
Lemma endsWith_lower (suffix url : string) :
  endsWith suffix (lower url) = true
  <-> exists stem ext, url = stem +:+ ext /\ lower ext = suffix.
Proof.
  rewrite endsWith_split. split.
  - intros [stem Hs]. destruct (lower_split _ _ _ Hs) as (a & b & -> & _ & Hb).
    by exists a, b.
  - intros (stem & ext & -> & <-). exists (lower stem). apply lower_append.
Qed.

Lemma isPlatformLink_split (url : string) :
  isPlatformLink url = true
  <-> exists pre platform post,
        platform ∈ platforms /\ url = pre +:+ platform +:+ post.
Proof.
  unfold isPlatformLink, platforms.
  rewrite !orb_true_iff, !includes_split. split.
  - intros [[(pre & post & ->)|(pre & post & ->)]|(pre & post & ->)];
      eexists pre, _, post; (split; [|reflexivity]); set_solver.
  - intros (pre & platform & post & Hin & ->).
    apply elem_of_cons in Hin as [->|Hin]; [left; left; by exists pre, post|].
    apply elem_of_cons in Hin as [->|Hin]; [left; right; by exists pre, post|].
    apply list_elem_of_singleton in Hin as ->. right. by exists pre, post.
Qed.

Lemma hasVideoExtension_split (url : string) :
  hasVideoExtension url = true
  <-> exists stem ext, url = stem +:+ ext /\ lower ext ∈ extensions.
Proof.
  unfold hasVideoExtension, extensions.
  rewrite !orb_true_iff, !endsWith_lower. split.
  - intros [[(stem & ext & -> & He)|(stem & ext & -> & He)]|(stem & ext & -> & He)];
      exists stem, ext; (split; [reflexivity|]); rewrite He; set_solver.
  - intros (stem & ext & -> & Hin).
    apply elem_of_cons in Hin as [He|Hin]; [left; left; by exists stem, ext|].
    apply elem_of_cons in Hin as [He|Hin]; [left; right; by exists stem, ext|].
    apply list_elem_of_singleton in Hin. right. by exists stem, ext.
Qed.

(** X15. What the URL field accepts. Whatever is typed, the analysis and
    the quiz on the page are reset and the chosen file is dropped. The
    URL becomes the video source, with no error, exactly when it contains
    none of the three platform names and ends in a text that is [.mp4],
    [.webm] or [.ogv] up to the case of its letters; only then, and on a
    page that is not processing, is the Analyze button enabled. A URL
    naming a platform gets [platform_link] whatever its ending, any other
    non-empty URL without such an ending gets [invalid_url_format], and
    the empty input gets no error and no source. *)
Theorem url_accepted_iff_video_file_off_platform (url : string) (p : Page) :
  let p' := handleUrlInputChange url p in
  let onPlatform :=
    exists pre platform post,
      platform ∈ platforms /\ url = pre +:+ platform +:+ post in
  let namesVideoFile :=
    exists stem ext, url = stem +:+ ext /\ lower ext ∈ extensions in
  videoUrlInput p' = url
  /\ analysisResult p' = None /\ quizScore p' = None /\ userAnswers p' = ∅
  /\ videoFile p' = None
  /\ (videoUrl p' = url \/ videoUrl p' = EmptyString)
  /\ ((videoUrl p' = url /\ url <> EmptyString)
      <-> (~ onPlatform /\ namesVideoFile))
  /\ (error p' = None <-> (url = EmptyString \/ (~ onPlatform /\ namesVideoFile)))
  /\ (error p' = Some "platform_link" <-> (url <> EmptyString /\ onPlatform))
  /\ (error p' = Some "invalid_url_format"
      <-> (url <> EmptyString /\ ~ onPlatform /\ ~ namesVideoFile))
  /\ (analyzeDisabled p' = false
      <-> (status p <> status_processing /\ ~ onPlatform /\ namesVideoFile)).
Proof.
  intros p' onPlatform namesVideoFile.
  assert (Hplat : isPlatformLink url = true <-> onPlatform)
    by apply isPlatformLink_split.
  assert (Hext : hasVideoExtension url = true <-> namesVideoFile)
    by apply hasVideoExtension_split.
  assert (Hempty : url = EmptyString -> ~ namesVideoFile).
  { intros -> (stem & ext & Hs & Hin). destruct stem as [|? ?]; [|discriminate Hs].
    change (EmptyString = ext) in Hs. subst ext. unfold extensions in Hin.
    simpl in Hin.
    repeat (apply elem_of_cons in Hin as [Hin|Hin]; [discriminate Hin|]).
    by apply elem_of_nil in Hin. }
  subst p'. unfold handleUrlInputChange. cbv zeta.
  destruct url as [|c rest].
  { specialize (Hempty eq_refl). cbn.
    repeat split; intros;
      first [by left | by right | intuition (discriminate || congruence)]. }
  clear Hempty.
  destruct (isPlatformLink (String c rest)) eqn:Ep.
  { assert (onPlatform) as Hon by (by apply Hplat). cbn.
    repeat split; intros;
      first [by right | intuition (discriminate || congruence)]. }
  assert (~ onPlatform) as Hoff by (rewrite <- Hplat; congruence).
  destruct (hasVideoExtension (String c rest)) eqn:Ee; cbn [negb].
  - assert (namesVideoFile) as Hname by (by apply Hext). cbn.
    destruct (status p);
      repeat split; intros;
        first [by left | by right | intuition (discriminate || congruence)].
  - assert (~ namesVideoFile) as Hname by (rewrite <- Hext; congruence). cbn.
    repeat split; intros;
      first [by right | intuition (discriminate || congruence)].
Qed.

(** X16. A failed analysis is classified and blocks the button. Whatever
    the message of the error, the page ends in the error status with one
    of the five error codes, and the Analyze button is disabled. The
    errors raised on the way to an analysis are told apart: a load that
    times out gives [timeout], a load that fails gives [cors], an invalid
    duration gives [invalid_duration], no frames gives [extract_frames],
    and only the missing canvas context falls to [generic_analysis]. *)
Theorem failed_analysis_is_classified (errorMessage : string) (p : Page) :
  let p' := handleSubmit_catch errorMessage p in
  status p' = status_error
  /\ (exists code, error p' = Some code
        /\ code ∈ ["timeout"; "cors"; "extract_frames"; "invalid_duration";
                   "generic_analysis"])
  /\ analyzeDisabled p' = true
  /\ (forall r : Rejection,
        error (handleSubmit_catch (message r) p)
        = Some match r with
               | loading_timed_out => "timeout"
               | loading_failed => "cors"
               | no_frames => "extract_frames"
               | invalid_duration => "invalid_duration"
               | no_canvas_context => "generic_analysis"
               end).
Proof.
  intros p'. subst p'. unfold handleSubmit_catch. cbv zeta.
  split; [by repeat case_match|]. split.
  { repeat case_match; eexists; (split; [reflexivity|]); set_solver. }
  split.
  { unfold analyzeDisabled.
    repeat (case_match; cbn in *; try done; try congruence). }
  intros r. by destruct r.
Qed.

Section QuizFacts.
Variables trim toLowerCase : string -> string.

Lemma forEach_score_shift answers index quiz n :
  forEach_score trim toLowerCase answers index quiz n = (n + forEach_score trim toLowerCase answers index quiz 0)%nat.
Proof.
  revert index n. induction quiz as [|q quiz IH]; intros index n; cbn.
  - lia.
  - rewrite (IH _ (if isCorrect trim toLowerCase answers index q then S n else n)).
    rewrite (IH _ (if isCorrect trim toLowerCase answers index q then 1%nat else 0%nat)).
    destruct (isCorrect trim toLowerCase answers index q); lia.
Qed.

Lemma forEach_score_cons answers index q quiz :
  forEach_score trim toLowerCase answers index (q :: quiz) 0
  = ((if isCorrect trim toLowerCase answers index q then 1 else 0)
     + forEach_score trim toLowerCase answers (S index) quiz 0)%nat.
Proof.
  cbn. rewrite forEach_score_shift. by destruct (isCorrect trim toLowerCase answers index q).
Qed.

Lemma forEach_score_marks answers index quiz :
  forEach_score trim toLowerCase answers index quiz 0
  = length (filter (eq true)
              (imap (fun k q => isCorrect trim toLowerCase answers (index + k) q) quiz)).
Proof.
  revert index. induction quiz as [|q quiz IH]; intros index; [reflexivity|].
  rewrite forEach_score_cons, IH. cbn [imap]. rewrite Nat.add_0_r.
  rewrite filter_cons.
  rewrite (imap_ext (fun k q => isCorrect trim toLowerCase answers (S index + k) q)
                    ((fun k q => isCorrect trim toLowerCase answers (index + k) q) ∘ S) quiz)
    by (intros k x _; cbn; f_equal; lia).
  destruct (isCorrect trim toLowerCase answers index q); cbn; [|reflexivity].
  by destruct (decide (true = true)).
Qed.

Lemma forEach_score_le answers index quiz :
  (forEach_score trim toLowerCase answers index quiz 0 <= length quiz)%nat.
Proof.
  revert index. induction quiz as [|q quiz IH]; intros index; [done|].
  rewrite forEach_score_cons. specialize (IH (S index)). cbn [length].
  destruct (isCorrect trim toLowerCase answers index q); lia.
Qed.

Lemma forEach_score_full answers index quiz :
  forEach_score trim toLowerCase answers index quiz 0 = length quiz
  <-> forall k q, quiz !! k = Some q -> isCorrect trim toLowerCase answers (index + k) q = true.
Proof.
  revert index. induction quiz as [|q quiz IH]; intros index.
  - split; [intros _ k q Hk; by rewrite lookup_nil in Hk|done].
  - rewrite forEach_score_cons. cbn [length].
    pose proof (forEach_score_le answers (S index) quiz) as Hle.
    split.
    + intros Hs k q' Hk.
      assert (Hq : isCorrect trim toLowerCase answers index q = true)
        by (destruct (isCorrect trim toLowerCase answers index q); [done|lia]).
      rewrite Hq in Hs. destruct k as [|k].
      * injection Hk as <-. by rewrite Nat.add_0_r.
      * replace (index + S k)%nat with (S index + k)%nat by lia.
        apply (proj1 (IH (S index))); [lia|exact Hk].
    + intros Hall.
      rewrite <- (Nat.add_0_r index) at 1. rewrite (Hall 0%nat q eq_refl).
      f_equal. apply IH. intros k q' Hk.
      replace (S index + k)%nat with (index + S k)%nat by lia.
      by apply Hall.
Qed.

Lemma isCorrect_other answers i value j q :
  i <> j -> isCorrect trim toLowerCase (<[i := value]> answers) j q = isCorrect trim toLowerCase answers j q.
Proof.
  intros Hne. unfold isCorrect, answerAt. by rewrite lookup_insert_ne.
Qed.

Lemma forEach_score_past answers i value index quiz :
  (i < index)%nat ->
  forEach_score trim toLowerCase (<[i := value]> answers) index quiz 0 = forEach_score trim toLowerCase answers index quiz 0.
Proof.
  revert index. induction quiz as [|q quiz IH]; intros index Hlt; [done|].
  rewrite !forEach_score_cons, isCorrect_other by lia.
  by rewrite IH by lia.
Qed.

Lemma forEach_score_change answers i value index quiz :
  (forEach_score trim toLowerCase (<[i := value]> answers) index quiz 0
   <= forEach_score trim toLowerCase answers index quiz 0 + 1)%nat
  /\ (forEach_score trim toLowerCase answers index quiz 0
      <= forEach_score trim toLowerCase (<[i := value]> answers) index quiz 0 + 1)%nat
  /\ ((index + length quiz <= i)%nat ->
      forEach_score trim toLowerCase (<[i := value]> answers) index quiz 0 = forEach_score trim toLowerCase answers index quiz 0).
Proof.
  revert index. induction quiz as [|q quiz IH]; intros index.
  - cbn. lia.
  - rewrite !forEach_score_cons. cbn [length].
    destruct (decide (i = index)) as [->|Hne].
    + rewrite forEach_score_past by lia.
      destruct (isCorrect trim toLowerCase (<[index := value]> answers) index q),
               (isCorrect trim toLowerCase answers index q); lia.
    + rewrite isCorrect_other by done.
      destruct (IH (S index)) as (H1 & H2 & H3).
      split; [lia|]. split; [lia|]. intros Hi. rewrite H3 by lia. done.
Qed.

(** X17. The score of the quiz. On a page with an analysis, submitting
    the quiz sets the score to the number of questions the results view
    marks as correct; the score is at most the number of questions, and it
    is that number exactly when every question is marked correct.
    Changing the answer to one question before submitting moves the score
    by at most one, and an answer stored under an index that is not a
    question of the quiz does not move it. *)
Theorem quiz_score_counts_marked_questions (p : Page) res index value :
  analysisResult p = Some res ->
  let submitted := handleQuizSubmit trim toLowerCase p in
  let changed :=
    handleQuizSubmit trim toLowerCase (answer_onChange index value p) in
  exists n m,
    quizScore submitted = Some n
    /\ quizScore changed = Some m
    /\ marks trim toLowerCase submitted = marks trim toLowerCase p
    /\ n = length (filter (eq true) (marks trim toLowerCase p))
    /\ (n <= length (quiz res))%nat
    /\ (n = length (quiz res)
        <-> Forall (eq true) (marks trim toLowerCase p))
    /\ (m <= n + 1)%nat /\ (n <= m + 1)%nat
    /\ ((length (quiz res) <= index)%nat -> m = n).
Proof.
  intros Hres submitted changed.
  exists (forEach_score trim toLowerCase (userAnswers p) 0 (quiz res) 0),
         (forEach_score trim toLowerCase (<[index := value]> (userAnswers p)) 0 (quiz res) 0).
  subst submitted changed. unfold handleQuizSubmit, answer_onChange, marks.
  cbn [analysisResult setUserAnswers userAnswers]. rewrite Hres.
  cbn [quizScore setQuizScore analysisResult userAnswers].
  split; [reflexivity|]. split; [reflexivity|]. split; [by rewrite Hres|].
  split; [apply forEach_score_marks|].
  split; [apply forEach_score_le|].
  split.
  { rewrite forEach_score_full, Forall_lookup. split.
    - intros Hall k b Hk. rewrite list_lookup_imap in Hk.
      destruct (quiz res !! k) as [q|] eqn:Eq; [|discriminate Hk].
      cbn in Hk. injection Hk as <-. symmetry. by apply (Hall k q).
    - intros Hall k q Hk. symmetry. apply (Hall k).
      by rewrite list_lookup_imap, Hk. }
  destruct (forEach_score_change (userAnswers p) index value 0 (quiz res))
    as (H1 & H2 & H3).
  split; [exact H1|]. split; [exact H2|exact H3].
Qed.

End QuizFacts.

Lemma quiz_score_witness :
  exists n m,
    quizScore
      (handleQuizSubmit (fun a => a) (fun a => a)
         (mkPage None EmptyString status_success None
            (Some (mkResult (mkSummary "brief" "detailed" [])
                     [mkQuestion "1 + 1?" short_answer None "2" "sum";
                      mkQuestion "true?" true_false None "true" "yes"]))
            (<[0%nat := "2"]> ∅) None EmptyString view_brief idle [] None))
    = Some n
    /\ quizScore
         (handleQuizSubmit (fun a => a) (fun a => a)
            (answer_onChange 1 "true"
               (mkPage None EmptyString status_success None
                  (Some (mkResult (mkSummary "brief" "detailed" [])
                           [mkQuestion "1 + 1?" short_answer None "2" "sum";
                            mkQuestion "true?" true_false None "true" "yes"]))
                  (<[0%nat := "2"]> ∅) None EmptyString view_brief idle [] None)))
       = Some m
    /\ (m <= n + 1)%nat.
Proof.
  destruct (quiz_score_counts_marked_questions (fun a => a) (fun a => a)
              (mkPage None EmptyString status_success None
                 (Some (mkResult (mkSummary "brief" "detailed" [])
                          [mkQuestion "1 + 1?" short_answer None "2" "sum";
                           mkQuestion "true?" true_false None "true" "yes"]))
                 (<[0%nat := "2"]> ∅) None EmptyString view_brief idle [] None)
              _ 1%nat "true" eq_refl)
    as (n & m & Hn & Hm & _ & _ & _ & _ & Hle & _).
  exists n, m. split; [exact Hn|]. split; [exact Hm|exact Hle].
Defined.

End VideoPageFacts.
